(** * cacheSim: a trace-driven set-associative cache simulator with LRU replacement

    A shallow embedding of [cacheSim.cpp].  Each C++ class becomes a module
    holding a record for the object's data members and one function per member
    function; a member function that mutates [*this] returns the new object.

    Conventions.
    - [unsigned long] is a 64-bit and [unsigned int] a 32-bit unsigned integer,
      [int] a 32-bit signed one.  Values are integers in [Z]; where the C++
      arithmetic can leave the range the reduction is written out ([Int.to_ulong],
      [Int.to_uint], [Int.to_int]).
    - A [std::vector] is a [list]; an iterator into it is a position ([nat]).
    - A result of type [option] is [None] where the C++ run has no defined
      behaviour because it writes through the end iterator of an empty vector
      or converts an infinite or NaN [double] to [int].  The other undefined
      cases (overflow of an [int] counter, a shift by 64 or more) are noted
      where they arise, and the theorems stay clear of them.  The program has
      no error path of its own: it never throws and never aborts a run. *)

From stdpp Require Import base option list.
From Stdlib Require Import ZArith Lia.
From Stdlib Require String.

Local Open Scope Z_scope.

(** ** Machine integers *)

Module Int.

Definition INT_MAX : Z := 2 ^ 31 - 1.

(** Conversion to [unsigned long]. *)
Definition to_ulong (x : Z) : Z := x mod 2 ^ 64.

(** Conversion to [unsigned int]. *)
Definition to_uint (x : Z) : Z := x mod 2 ^ 32.

(** Conversion to [int] (two's complement). *)
Definition to_int (x : Z) : Z := (x + 2 ^ 31) mod 2 ^ 32 - 2 ^ 31.

(** [log2] of an [int], computed on [double] and stored in an [int].  For
    [1 <= n < 2^31] the truncated result is the integer logarithm; for
    [n <= 0] the [double] is minus infinity or NaN and its conversion to
    [int] is undefined. *)
Definition log2 (n : Z) : option Z :=
  if 0 <? n then Some (Z.log2 n) else None.

End Int.

(** ** enum class ReadOrWrite *)

Inductive ReadOrWrite : Set := ERROR | READ | WRITE.

(** ** class MemRef *)

Module MemRef.

Record t : Type := mk {
  refNum_ : Z;
  rW_ : ReadOrWrite;
  size_ : Z;
  address_ : Z;
  tag_ : Z;
  index_ : Z;
  offset_ : Z;
  hM_ : bool
}.

(** [MemRef(refNum, rW, size, address)].  The constructor leaves [tag_],
    [index_], [offset_] and [hM_] unset; they are written before they are
    read, and start here at [0] and [false]. *)
Definition new (refNum : Z) (rW : ReadOrWrite) (size address : Z) : t :=
  mk refNum rW size address 0 0 0 false.

Definition setHM (hM : bool) (m : t) : t :=
  mk (refNum_ m) (rW_ m) (size_ m) (address_ m) (tag_ m) (index_ m) (offset_ m) hM.

Definition getAddress (m : t) : Z := address_ m.
Definition getTag (m : t) : Z := tag_ m.
Definition getHM (m : t) : bool := hM_ m.

(** [int getIndex()] and [int getOffset()] return an [unsigned long] member
    as an [int]. *)
Definition getIndex (m : t) : Z := Int.to_int (index_ m).
Definition getOffset (m : t) : Z := Int.to_int (offset_ m).

(** [tag_ = address_ >> (indexSize + offsetSize)], both sizes being
    [unsigned long] parameters (a shift by 64 or more is undefined in C++;
    the geometry derived by [CacheTable] keeps the amount below 31). *)
Definition calculate_tag (indexSize offsetSize : Z) (m : t) : t :=
  mk (refNum_ m) (rW_ m) (size_ m) (address_ m)
     (Z.shiftr (address_ m) (Int.to_ulong (indexSize + offsetSize)))
     (index_ m) (offset_ m) (hM_ m).

(** [index_ = address_ & indexMask; index_ = index_ >> offsetSize]. *)
Definition calculate_index (indexMask offsetSize : Z) (m : t) : t :=
  mk (refNum_ m) (rW_ m) (size_ m) (address_ m) (tag_ m)
     (Z.shiftr (Z.land (address_ m) indexMask) offsetSize)
     (offset_ m) (hM_ m).

(** [offset_ = address_ & offsetMask]. *)
Definition calculate_offset (offsetMask : Z) (m : t) : t :=
  mk (refNum_ m) (rW_ m) (size_ m) (address_ m) (tag_ m) (index_ m)
     (Z.land (address_ m) offsetMask) (hM_ m).

End MemRef.

(** ** class CacheLine *)

Module CacheLine.

(** [valid_] is never written nor read and is left out. *)
Record t : Type := mk {
  tag_ : Z;
  LRUFlag_ : Z
}.

(** [CacheLine(tag)]: [LRUFlag_] is unset until [set_LRU], which
    [CacheSet::add_new_cache_line] calls at once; it starts here at [0]. *)
Definition new (tag : Z) : t := mk tag 0.

Definition set_LRU (l : t) : t := mk (tag_ l) 0.

Definition setTag (tag : Z) (l : t) : t := mk tag (LRUFlag_ l).

Definition get_LRU (l : t) : Z := LRUFlag_ l.

Definition getTag (l : t) : Z := tag_ l.

(** [LRUFlag_++] on an [unsigned long]. *)
Definition increment_LRU (l : t) : t :=
  mk (tag_ l) (Int.to_ulong (LRUFlag_ l + 1)).

End CacheLine.

(** ** class CacheSet *)

Module CacheSet.

(** [indexSize_] is never written nor read and is left out. *)
Record t : Type := mk {
  setSize_ : Z;
  index_ : Z;
  cacheLine_ : list CacheLine.t
}.

(** [CacheSet(int setSize) : setSize_(setSize)], [setSize_] being an
    [unsigned int].  [index_] is unset until [setIndex]; it starts here
    at [0]. *)
Definition new (setSize : Z) : t := mk (Int.to_uint setSize) 0 [].

Definition getIndex (s : t) : Z := index_ s.

(** [void setIndex(unsigned long index) { index_ = index; }] *)
Definition setIndex (index : Z) (s : t) : t :=
  mk (setSize_ s) (Int.to_uint index) (cacheLine_ s).

Definition with_lines (ls : list CacheLine.t) (s : t) : t :=
  mk (setSize_ s) (index_ s) ls.

(** [add_new_cache_line]: a line with the tag and [LRUFlag_ = 0] is pushed
    at the back. *)
Definition add_new_cache_line (tag : Z) (s : t) : t :=
  let cacheLine := CacheLine.set_LRU (CacheLine.new tag) in
  with_lines (cacheLine_ s ++ [cacheLine]) s.

(** [update_LRUs]: every line is aged. *)
Definition update_LRUs (s : t) : t :=
  with_lines (CacheLine.increment_LRU <$> cacheLine_ s) s.

(** The loop of [check_cache_lines]: [it] is the position of the iterator,
    [rest] the lines from [it] to the end.  At the first line with the tag
    all lines are aged, then the line under the iterator is reset. *)
Fixpoint check_cache_lines_from (tag : Z) (it : nat) (rest : list CacheLine.t)
    (s : t) : bool * t :=
  match rest with
  | [] => (false, s)
  | l :: rest' =>
      if tag =? CacheLine.getTag l then
        let s' := update_LRUs s in
        (true, with_lines (alter CacheLine.set_LRU it (cacheLine_ s')) s')
      else check_cache_lines_from tag (S it) rest' s
  end.

Definition check_cache_lines (tag : Z) (s : t) : bool * t :=
  check_cache_lines_from tag 0%nat (cacheLine_ s) s.

(** The loop of [find_LRU]: [currentLRU] is the position of the candidate
    and [cur] the line it points at; the candidate moves to [it] only on a
    strictly larger [LRUFlag_]. *)
Fixpoint find_LRU_from (currentLRU : nat) (cur : CacheLine.t) (it : nat)
    (rest : list CacheLine.t) : nat :=
  match rest with
  | [] => currentLRU
  | l :: rest' =>
      if CacheLine.get_LRU cur <? CacheLine.get_LRU l
      then find_LRU_from it l (S it) rest'
      else find_LRU_from currentLRU cur (S it) rest'
  end.

(** [find_LRU] returns an iterator; on an empty vector it is [begin()],
    which is [end()]. *)
Definition find_LRU (s : t) : nat :=
  match cacheLine_ s with
  | [] => 0%nat
  | l0 :: _ => find_LRU_from 0%nat l0 0%nat (cacheLine_ s)
  end.

(** [update_cache_lines]: room is tested with [cacheLine_.size() < setSize_];
    otherwise the line found by [find_LRU] is overwritten after all lines
    were aged.  With no line at all ([setSize_ = 0]) the write goes through
    the end iterator. *)
Definition update_cache_lines (tag : Z) (s : t) : option t :=
  if Z.of_nat (length (cacheLine_ s)) <? setSize_ s then
    Some (add_new_cache_line tag s)
  else
    let lineToReplace := find_LRU s in
    let s' := update_LRUs s in
    if decide (lineToReplace < length (cacheLine_ s'))%nat then
      Some (with_lines
              (alter (fun l => CacheLine.set_LRU (CacheLine.setTag tag l))
                     lineToReplace (cacheLine_ s')) s')
    else None.

End CacheSet.

(** ** class CacheTable *)

Module CacheTable.

(** [tagSize_], [tagMask_], [hitRate] and [missRate] are written by
    [calculate_tag_size], [calculate_tag_mask] and [print_summary] only and
    read by nothing that decides a hit or a miss; they are left out. *)
Record t : Type := mk {
  cacheSet_ : list CacheSet.t;
  memRef_ : list MemRef.t;
  totalCacheSize_ : Z;
  lineSize_ : Z;
  setSize_ : Z;
  numberOfSets_ : Z;
  indexSize_ : Z;
  offsetSize_ : Z;
  totalHits : Z;
  totalMiss : Z;
  totalAccess : Z;
  offsetMask_ : Z;
  indexMask_ : Z
}.

Definition with_cacheSet (v : list CacheSet.t) (c : t) : t :=
  mk v (memRef_ c) (totalCacheSize_ c) (lineSize_ c) (setSize_ c)
     (numberOfSets_ c) (indexSize_ c) (offsetSize_ c) (totalHits c)
     (totalMiss c) (totalAccess c) (offsetMask_ c) (indexMask_ c).

Definition with_memRef (v : list MemRef.t) (c : t) : t :=
  mk (cacheSet_ c) v (totalCacheSize_ c) (lineSize_ c) (setSize_ c)
     (numberOfSets_ c) (indexSize_ c) (offsetSize_ c) (totalHits c)
     (totalMiss c) (totalAccess c) (offsetMask_ c) (indexMask_ c).

Definition with_numberOfSets (v : Z) (c : t) : t :=
  mk (cacheSet_ c) (memRef_ c) (totalCacheSize_ c) (lineSize_ c) (setSize_ c)
     v (indexSize_ c) (offsetSize_ c) (totalHits c)
     (totalMiss c) (totalAccess c) (offsetMask_ c) (indexMask_ c).

Definition with_indexSize (v : Z) (c : t) : t :=
  mk (cacheSet_ c) (memRef_ c) (totalCacheSize_ c) (lineSize_ c) (setSize_ c)
     (numberOfSets_ c) v (offsetSize_ c) (totalHits c)
     (totalMiss c) (totalAccess c) (offsetMask_ c) (indexMask_ c).

Definition with_offsetSize (v : Z) (c : t) : t :=
  mk (cacheSet_ c) (memRef_ c) (totalCacheSize_ c) (lineSize_ c) (setSize_ c)
     (numberOfSets_ c) (indexSize_ c) v (totalHits c)
     (totalMiss c) (totalAccess c) (offsetMask_ c) (indexMask_ c).

Definition with_totalHits (v : Z) (c : t) : t :=
  mk (cacheSet_ c) (memRef_ c) (totalCacheSize_ c) (lineSize_ c) (setSize_ c)
     (numberOfSets_ c) (indexSize_ c) (offsetSize_ c) v
     (totalMiss c) (totalAccess c) (offsetMask_ c) (indexMask_ c).

Definition with_totalMiss (v : Z) (c : t) : t :=
  mk (cacheSet_ c) (memRef_ c) (totalCacheSize_ c) (lineSize_ c) (setSize_ c)
     (numberOfSets_ c) (indexSize_ c) (offsetSize_ c) (totalHits c)
     v (totalAccess c) (offsetMask_ c) (indexMask_ c).

Definition with_totalAccess (v : Z) (c : t) : t :=
  mk (cacheSet_ c) (memRef_ c) (totalCacheSize_ c) (lineSize_ c) (setSize_ c)
     (numberOfSets_ c) (indexSize_ c) (offsetSize_ c) (totalHits c)
     (totalMiss c) v (offsetMask_ c) (indexMask_ c).

Definition with_offsetMask (v : Z) (c : t) : t :=
  mk (cacheSet_ c) (memRef_ c) (totalCacheSize_ c) (lineSize_ c) (setSize_ c)
     (numberOfSets_ c) (indexSize_ c) (offsetSize_ c) (totalHits c)
     (totalMiss c) (totalAccess c) v (indexMask_ c).

Definition with_indexMask (v : Z) (c : t) : t :=
  mk (cacheSet_ c) (memRef_ c) (totalCacheSize_ c) (lineSize_ c) (setSize_ c)
     (numberOfSets_ c) (indexSize_ c) (offsetSize_ c) (totalHits c)
     (totalMiss c) (totalAccess c) (offsetMask_ c) v.

(** [read_cache_config]: the three numbers of the configuration file, in
    the order set size, line size, total size. *)
Definition read_cache_config (setSize lineSize totalCacheSize : Z) (c : t) : t :=
  mk (cacheSet_ c) (memRef_ c) totalCacheSize lineSize setSize
     (numberOfSets_ c) (indexSize_ c) (offsetSize_ c) (totalHits c)
     (totalMiss c) (totalAccess c) (offsetMask_ c) (indexMask_ c).

Definition get_number_of_sets (c : t) : Z := numberOfSets_ c.

(** [calculate_number_of_sets]: [int] division truncates toward zero; with
    a zero line or set size the member keeps the value it had. *)
Definition calculate_number_of_sets (c : t) : t :=
  if negb (lineSize_ c =? 0) && negb (setSize_ c =? 0) then
    with_numberOfSets ((totalCacheSize_ c ÷ lineSize_ c) ÷ setSize_ c) c
  else c.

Definition calculate_index_size (c : t) : option t :=
  v ← Int.log2 (numberOfSets_ c); Some (with_indexSize v c).

Definition calculate_offset_size (c : t) : option t :=
  v ← Int.log2 (lineSize_ c); Some (with_offsetSize v c).

(** [offsetMask_ = pow(2, offsetSize_) - 1].  The [double] arithmetic is
    exact for exponents up to 53; [derived_sizes_small] shows that the
    derived sizes stay below 31. *)
Definition calculate_offset_mask (c : t) : t :=
  with_offsetMask (2 ^ offsetSize_ c - 1) c.

(** [indexMask_ = (pow(2, indexSize_ + offsetSize_) - 1) - offsetMask_]. *)
Definition calculate_index_mask (c : t) : t :=
  with_indexMask ((2 ^ (indexSize_ c + offsetSize_ c) - 1) - offsetMask_ c) c.

(** [create_cache_sets(n)]: [n] sets of the table's set size are pushed at
    the back (none for [n <= 0]). *)
Definition create_cache_sets (numberOfSets : Z) (c : t) : t :=
  with_cacheSet
    (cacheSet_ c ++ replicate (Z.to_nat numberOfSets) (CacheSet.new (setSize_ c))) c.

(** [set_index_for_cache_sets]: the sets are numbered from 0 in vector
    order. *)
Definition set_index_for_cache_sets (c : t) : t :=
  with_cacheSet
    (imap (fun indexSetter s => CacheSet.setIndex (Z.of_nat indexSetter) s)
          (cacheSet_ c)) c.

(** The configuration sequence of [main], from [read_cache_config] to
    [calculate_index_mask] ([calculate_tag_size] and [calculate_tag_mask]
    write members that are left out). *)
Definition configure (setSize lineSize totalCacheSize : Z) (c : t) : option t :=
  let c := read_cache_config setSize lineSize totalCacheSize c in
  let c := calculate_number_of_sets c in
  let c := create_cache_sets (get_number_of_sets c) c in
  let c := set_index_for_cache_sets c in
  c ← calculate_index_size c;
  c ← calculate_offset_size c;
  let c := calculate_offset_mask c in
  Some (calculate_index_mask c).

(** [CacheTable(){}]: both vectors start empty; the constructor leaves the
    numeric members unset.  The theorems below quantify over their initial
    values; [new] takes 0 for them and serves in the examples. *)
Definition new : t := mk [] [] 0 0 0 0 0 0 0 0 0 0 0.

(** The loop of [determine_hit_or_miss] over [cacheSet_]: the first set whose
    index equals [index] is searched for the tag and, when the tag is absent,
    updated; the result tells whether it was a hit.  When no set has the
    index the loop ends and nothing is changed. *)
Fixpoint determine_hit_or_miss_from (index tag : Z) (sets : list CacheSet.t)
    : option (bool * list CacheSet.t) :=
  match sets with
  | [] => Some (false, [])
  | s :: rest =>
      if index =? CacheSet.getIndex s then
        let '(hit, s) := CacheSet.check_cache_lines tag s in
        if hit then Some (true, s :: rest)
        else s ← CacheSet.update_cache_lines tag s; Some (false, s :: rest)
      else
        '(hit, rest) ← determine_hit_or_miss_from index tag rest;
        Some (hit, s :: rest)
  end.

(** [determine_hit_or_miss]: [totalHits++] on a hit, [totalMiss++] otherwise
    (also when no set has the index).  The counters are [int]s: incrementing
    [INT_MAX] is undefined in C++, the model wraps there, and the theorems
    on the counters keep them in range. *)
Definition determine_hit_or_miss (index tag : Z) (c : t) : option (bool * t) :=
  '(hit, sets) ← determine_hit_or_miss_from index tag (cacheSet_ c);
  let c := with_cacheSet sets c in
  if hit : bool then Some (true, with_totalHits (Int.to_int (totalHits c + 1)) c)
  else Some (false, with_totalMiss (Int.to_int (totalMiss c + 1)) c).

(** One parsed line of the memory trace: access type, size, address (the
    value [strtoul] returns, an [unsigned long]). *)
Definition line : Type := ReadOrWrite * Z * Z.

(** The [MemRef] that [read_mem_trace] builds for a line: the constructor
    and the three [calculate_] calls with the table's geometry. *)
Definition make_mem_ref (refNum : Z) (ln : line) (c : t) : MemRef.t :=
  let '(rW, size, address) := ln in
  let memRef := MemRef.new refNum rW size address in
  let memRef :=
    MemRef.calculate_tag (Int.to_ulong (indexSize_ c))
                         (Int.to_ulong (offsetSize_ c)) memRef in
  let memRef :=
    MemRef.calculate_index (indexMask_ c) (Int.to_ulong (offsetSize_ c)) memRef in
  MemRef.calculate_offset (offsetMask_ c) memRef.

(** The body of the [while] loop of [read_mem_trace] after parsing. *)
Definition read_line (refNum : Z) (ln : line) (c : t) : option t :=
  let memRef := make_mem_ref refNum ln c in
  '(hM, c) ← determine_hit_or_miss (Int.to_ulong (MemRef.getIndex memRef))
                                   (MemRef.getTag memRef) c;
  let memRef := MemRef.setHM hM memRef in
  let c := with_memRef (memRef_ c ++ [memRef]) c in
  Some (with_totalAccess (Int.to_int (totalAccess c + 1)) c).

Fixpoint read_mem_trace_from (refNum : Z) (lines : list line) (c : t) : option t :=
  match lines with
  | [] => Some c
  | ln :: rest =>
      c ← read_line refNum ln c;
      read_mem_trace_from (Int.to_int (refNum + 1)) rest c
  end.

(** [read_mem_trace] on the parsed lines of the trace file. *)
Definition read_mem_trace (lines : list line) (c : t) : option t :=
  read_mem_trace_from 0 lines c.

End CacheTable.

(** ** Vocabulary of the properties *)

(** The tags resident in a set, in vector order. *)
Definition tags (s : CacheSet.t) : list Z :=
  CacheLine.getTag <$> CacheSet.cacheLine_ s.


(** The set an index names: the first one in vector order that carries it. *)
Fixpoint set_at (index : Z) (sets : list CacheSet.t) : option CacheSet.t :=
  match sets with
  | [] => None
  | s :: rest => if index =? CacheSet.getIndex s then Some s else set_at index rest
  end.

(** The cache before any access: [create_cache_sets] then
    [set_index_for_cache_sets] on a table without sets. *)
Definition empty_cache (numberOfSets : Z) (c : CacheTable.t) : CacheTable.t :=
  CacheTable.set_index_for_cache_sets (CacheTable.create_cache_sets numberOfSets c).

(** The states a run goes through: an empty cache, the table [main] has
    configured, and whatever an access or a trace line makes of a reachable
    state. *)
Inductive reachable : CacheTable.t -> Prop :=
  | reachable_empty c numberOfSets :
      CacheTable.cacheSet_ c = [] ->
      reachable (empty_cache numberOfSets c)
  | reachable_configured c0 setSize lineSize totalCacheSize c :
      CacheTable.cacheSet_ c0 = [] ->
      CacheTable.configure setSize lineSize totalCacheSize c0 = Some c ->
      reachable c
  | reachable_access c index tag hM c' :
      reachable c ->
      CacheTable.determine_hit_or_miss index tag c = Some (hM, c') ->
      reachable c'
  | reachable_line c refNum ln c' :
      reachable c ->
      CacheTable.read_line refNum ln c = Some c' ->
      reachable c'.

(** What holds of every set of a reachable table. *)
Definition set_ok (setSize : Z) (s : CacheSet.t) : Prop :=
  CacheSet.setSize_ s = Int.to_uint setSize /\
  Z.of_nat (length (CacheSet.cacheLine_ s)) <= CacheSet.setSize_ s /\
  NoDup (tags s).

(** The table [configure] builds, field by field. *)
Definition configured (setSize lineSize totalCacheSize numberOfSets : Z)
    (c0 : CacheTable.t) : CacheTable.t :=
  CacheTable.mk
    (imap (fun indexSetter s => CacheSet.setIndex (Z.of_nat indexSetter) s)
          (CacheTable.cacheSet_ c0 ++
           replicate (Z.to_nat numberOfSets) (CacheSet.new setSize)))
    (CacheTable.memRef_ c0) totalCacheSize lineSize setSize numberOfSets
    (Z.log2 numberOfSets) (Z.log2 lineSize)
    (CacheTable.totalHits c0) (CacheTable.totalMiss c0) (CacheTable.totalAccess c0)
    (2 ^ Z.log2 lineSize - 1)
    ((2 ^ (Z.log2 numberOfSets + Z.log2 lineSize) - 1) - (2 ^ Z.log2 lineSize - 1)).

(** The set count [calculate_number_of_sets] leaves in the table. *)
Definition derived_number_of_sets (setSize lineSize totalCacheSize : Z)
    (c0 : CacheTable.t) : Z :=
  if negb (lineSize =? 0) && negb (setSize =? 0)
  then (totalCacheSize ÷ lineSize) ÷ setSize
  else CacheTable.numberOfSets_ c0.

(** One access to the set the index names, as the loop of
    [determine_hit_or_miss] performs it: lookup, then insertion or replacement
    when the tag is absent. *)
Definition access_set (tag : Z) (s : CacheSet.t) : option (bool * CacheSet.t) :=
  let '(hit, s) := CacheSet.check_cache_lines tag s in
  if hit : bool then Some (true, s)
  else s ← CacheSet.update_cache_lines tag s; Some (false, s).

(** The vector of sets with the set an index names replaced. *)
Fixpoint put_set (index : Z) (s' : CacheSet.t) (sets : list CacheSet.t)
    : list CacheSet.t :=
  match sets with
  | [] => []
  | s :: rest =>
      if index =? CacheSet.getIndex s then s' :: rest
      else s :: put_set index s' rest
  end.

(** The counter update that ends [determine_hit_or_miss]. *)
Definition count (hit : bool) (c : CacheTable.t) : CacheTable.t :=
  if hit then CacheTable.with_totalHits (Int.to_int (CacheTable.totalHits c + 1)) c
  else CacheTable.with_totalMiss (Int.to_int (CacheTable.totalMiss c + 1)) c.

(** The reference number after [n] more lines. *)
Definition advance (n : nat) (refNum : Z) : Z :=
  Nat.iter n (fun r => Int.to_int (r + 1)) refNum.

Arguments advance : simpl never.

(** ** Runs of accesses *)

(** A sequence of tags accessed in one set, with the outcomes in order. *)
Fixpoint run_set (ts : list Z) (s : CacheSet.t) : option (list bool * CacheSet.t) :=
  match ts with
  | [] => Some ([], s)
  | tag :: rest =>
      '(hit, s) ← access_set tag s;
      '(hits, s) ← run_set rest s;
      Some (hit :: hits, s)
  end.

(** A sequence of calls of [determine_hit_or_miss], each with an index and a
    tag, with the outcomes in order. *)
Fixpoint run_accesses (accesses : list (Z * Z)) (c : CacheTable.t)
    : option (list bool * CacheTable.t) :=
  match accesses with
  | [] => Some ([], c)
  | (index, tag) :: rest =>
      '(hM, c) ← CacheTable.determine_hit_or_miss index tag c;
      '(hMs, c) ← run_accesses rest c;
      Some (hM :: hMs, c)
  end.

(** The tags a sequence of accesses sends to one index, and the outcomes of
    those accesses. *)
Definition at_index (index : Z) (accesses : list (Z * Z)) : list Z :=
  snd <$> filter (fun a => a.1 = index) accesses.

Definition outcomes_at (index : Z) (accesses : list (Z * Z)) (outcomes : list bool)
    : list bool :=
  snd <$> filter (fun p => p.1.1 = index) (zip accesses outcomes).

(** The number of lines resident in the whole cache. *)
Definition resident_lines (c : CacheTable.t) : nat :=
  sum_list ((fun s => length (CacheSet.cacheLine_ s)) <$> CacheTable.cacheSet_ c).

(** The position of the first occurrence of a tag in a list of tags. *)
Fixpoint first_index (tag : Z) (ts : list Z) : option nat :=
  match ts with
  | [] => None
  | t :: rest => if tag =? t then Some 0%nat else S <$> first_index tag rest
  end.

(** Two tables with the same geometry: the members that decompose an
    address and the configuration they were derived from. *)
Definition same_geometry (c c' : CacheTable.t) : Prop :=
  CacheTable.totalCacheSize_ c' = CacheTable.totalCacheSize_ c /\
  CacheTable.lineSize_ c' = CacheTable.lineSize_ c /\
  CacheTable.setSize_ c' = CacheTable.setSize_ c /\
  CacheTable.numberOfSets_ c' = CacheTable.numberOfSets_ c /\
  CacheTable.indexSize_ c' = CacheTable.indexSize_ c /\
  CacheTable.offsetSize_ c' = CacheTable.offsetSize_ c /\
  CacheTable.indexMask_ c' = CacheTable.indexMask_ c /\
  CacheTable.offsetMask_ c' = CacheTable.offsetMask_ c.

(** The table of a run that [main] has configured: the derived geometry and
    as many sets as derived, numbered in vector order, each of the configured
    capacity. *)
Definition derived_state (setSize lineSize totalCacheSize : Z) (c : CacheTable.t)
    : Prop :=
  let n := (totalCacheSize ÷ lineSize) ÷ setSize in
  CacheTable.totalCacheSize_ c = totalCacheSize /\
  CacheTable.lineSize_ c = lineSize /\
  CacheTable.setSize_ c = setSize /\
  CacheTable.numberOfSets_ c = n /\
  CacheTable.indexSize_ c = Z.log2 n /\
  CacheTable.offsetSize_ c = Z.log2 lineSize /\
  CacheTable.offsetMask_ c = 2 ^ Z.log2 lineSize - 1 /\
  CacheTable.indexMask_ c =
    (2 ^ (Z.log2 n + Z.log2 lineSize) - 1) - (2 ^ Z.log2 lineSize - 1) /\
  CacheSet.getIndex <$> CacheTable.cacheSet_ c = Z.of_nat <$> seq 0 (Z.to_nat n) /\
  CacheSet.setSize_ <$> CacheTable.cacheSet_ c = replicate (Z.to_nat n) setSize.

(** ** Reference model of LRU replacement

    A set of the reference model keeps, for every resident tag, the time of
    its last use.  A resident tag is a hit and gets the current time; an
    absent tag takes a free place when there is one and otherwise the place
    of the line whose last use is the oldest. *)

Module LruReference.

Abbreviation line := (Z * nat)%type.

(** The loop that finds the line of least time: [best] is its position and
    [bestTime] its time among the lines before [it]. *)
Fixpoint oldest_from (best bestTime it : nat) (rest : list line) : nat :=
  match rest with
  | [] => best
  | l :: rest' =>
      if (l.2 <? bestTime)%nat then oldest_from it l.2 (S it) rest'
      else oldest_from best bestTime (S it) rest'
  end.

Definition oldest (ls : list line) : nat :=
  match ls with
  | [] => 0%nat
  | l0 :: rest => oldest_from 0 l0.2 1 rest
  end.

Definition access (capacity : Z) (now : nat) (tag : Z) (ls : list line)
    : bool * list line :=
  match first_index tag (fst <$> ls) with
  | Some h => (true, <[h := (tag, now)]> ls)
  | None =>
      if Z.of_nat (length ls) <? capacity then (false, ls ++ [(tag, now)])
      else (false, <[oldest ls := (tag, now)]> ls)
  end.

Fixpoint run (capacity : Z) (now : nat) (ts : list Z) (ls : list line)
    : list bool * list line :=
  match ts with
  | [] => ([], ls)
  | tag :: rest =>
      let '(hit, ls) := access capacity now tag ls in
      let '(hits, ls) := run capacity (S now) rest ls in
      (hit :: hits, ls)
  end.

End LruReference.

(** A set and a set of the reference model hold the same tags in the same
    places, and whenever one line was used before another, its recency is
    larger, or equal with the line standing earlier in the vector. *)
Definition lru_related (now : nat) (s : CacheSet.t) (ls : list LruReference.line)
    : Prop :=
  tags s = fst <$> ls /\
  (forall i l, CacheSet.cacheLine_ s !! i = Some l ->
     0 <= CacheLine.LRUFlag_ l <= Z.of_nat now) /\
  (forall i a, ls !! i = Some a -> (a.2 < now)%nat) /\
  (forall i j ai aj, ls !! i = Some ai -> ls !! j = Some aj -> i <> j ->
     ai.2 <> aj.2) /\
  (forall i j li lj ai aj,
     CacheSet.cacheLine_ s !! i = Some li -> CacheSet.cacheLine_ s !! j = Some lj ->
     ls !! i = Some ai -> ls !! j = Some aj -> (ai.2 < aj.2)%nat ->
     CacheLine.LRUFlag_ lj < CacheLine.LRUFlag_ li \/
     (CacheLine.LRUFlag_ li = CacheLine.LRUFlag_ lj /\ (i < j)%nat)).

(** ** The text of the memory trace

    [read_mem_trace] reads the trace line by line and cuts each line at the
    colons.  The tokenizer and the two C conversions are library code and
    are taken as given. *)

Section Parsing.

Import String.

(** [boost::tokenizer] with [char_separator<char>(":")]. *)
Variable tokenize : string -> list string.

(** [atoi] on a token. *)
Variable atoi : string -> Z.

(** [strtoul(token, NULL, 16)]. *)
Variable strtoul16 : string -> Z.

(** The access type of a line: [rW] keeps the value of the line before when
    the first token is neither [R] nor [W]. *)
Definition access_type (rW : ReadOrWrite) (token : string) : ReadOrWrite :=
  if String.eqb token "R" then READ
  else if String.eqb token "W" then WRITE
  else rW.

(** The three tokens [read_mem_trace] takes from a line; with fewer than three
    the iterator is dereferenced at its end. *)
Definition parse_line (rW : ReadOrWrite) (input : string) : option CacheTable.line :=
  match tokenize input with
  | token0 :: token1 :: token2 :: _ =>
      Some (access_type rW token0, atoi token1, strtoul16 token2)
  | _ => None
  end.

(** The [while] loop of [read_mem_trace] on the lines [getline] returns:
    [rW] and [refNum] are declared before the loop and live across its
    turns. *)
Fixpoint read_mem_trace_text_from (refNum : Z) (rW : ReadOrWrite)
    (inputs : list string) (c : CacheTable.t) : option CacheTable.t :=
  match inputs with
  | [] => Some c
  | input :: rest =>
      ln ← parse_line rW input;
      c ← CacheTable.read_line refNum ln c;
      read_mem_trace_text_from (Int.to_int (refNum + 1)) ln.1.1 rest c
  end.

Definition read_mem_trace_text (inputs : list string) (c : CacheTable.t)
    : option CacheTable.t :=
  read_mem_trace_text_from 0 ERROR inputs c.

(** The parsed lines alone. *)
Fixpoint parse_lines (rW : ReadOrWrite) (inputs : list string)
    : option (list CacheTable.line) :=
  match inputs with
  | [] => Some []
  | input :: rest =>
      ln ← parse_line rW input;
      lns ← parse_lines ln.1.1 rest;
      Some (ln :: lns)
  end.

End Parsing.

(** The pieces a tokenizer with the separator [":"] and its default policy
    (empty pieces dropped) cuts a line into; it stands for the library
    tokenizer in the examples. *)
Section ColonTokens.

Import Ascii String.

Fixpoint colon_tokens_from (piece input : string) : list string :=
  match input with
  | EmptyString =>
      match piece with EmptyString => [] | _ => [piece] end
  | String ch rest =>
      if Ascii.eqb ch ":"%char then
        match piece with
        | EmptyString => colon_tokens_from EmptyString rest
        | _ => piece :: colon_tokens_from EmptyString rest
        end
      else colon_tokens_from (piece ++ String ch EmptyString) rest
  end.

Definition colon_tokens (input : string) : list string :=
  colon_tokens_from EmptyString input.

End ColonTokens.

(** * Properties *)

(** ** Machine integers *)

Lemma to_ulong_small x : 0 <= x < 2 ^ 64 -> Int.to_ulong x = x.
Proof. intros. unfold Int.to_ulong. apply Z.mod_small. lia. Qed.

Lemma to_uint_small x : 0 <= x < 2 ^ 32 -> Int.to_uint x = x.
Proof. intros. unfold Int.to_uint. apply Z.mod_small. lia. Qed.

Lemma to_int_small x : - 2 ^ 31 <= x <= Int.INT_MAX -> Int.to_int x = x.
Proof.
  unfold Int.to_int, Int.INT_MAX. intros.
  rewrite Z.mod_small; lia.
Qed.

Lemma log2_Some n v : Int.log2 n = Some v -> 0 < n /\ v = Z.log2 n.
Proof.
  unfold Int.log2. destruct (Z.ltb_spec 0 n); [|discriminate].
  intros [= <-]. done.
Qed.

(** ** Address decomposition *)

Section Fields.

Variables offsetBits indexBits : Z.
Hypothesis offsetBits_nonneg : 0 <= offsetBits.
Hypothesis indexBits_nonneg : 0 <= indexBits.

Abbreviation offsetMask := (2 ^ offsetBits - 1) (only parsing).
Abbreviation indexMask :=
  ((2 ^ (indexBits + offsetBits) - 1) - (2 ^ offsetBits - 1)) (only parsing).

Lemma offsetMask_ones : offsetMask = Z.ones offsetBits.
Proof using Type. by rewrite Z.ones_equiv, <- Z.sub_1_r. Qed.

Lemma indexMask_ones : indexMask = Z.shiftl (Z.ones indexBits) offsetBits.
Proof.
  rewrite Z.shiftl_mul_pow2, Z.ones_equiv, Z.pow_add_r by lia. lia.
Qed.

Lemma offset_field a : Z.land a offsetMask = a mod 2 ^ offsetBits.
Proof using offsetBits_nonneg.
  rewrite offsetMask_ones. by apply Z.land_ones.
Qed.

Lemma index_field a :
  Z.shiftr (Z.land a indexMask) offsetBits = Z.shiftr a offsetBits mod 2 ^ indexBits.
Proof.
  rewrite indexMask_ones, <- Z.land_ones by lia.
  apply Z.bits_inj'. intros n Hn.
  rewrite Z.shiftr_spec, !Z.land_spec, Z.shiftr_spec, Z.shiftl_spec by lia.
  do 2 f_equal. lia.
Qed.

Lemma fields_rebuild a :
  Z.lor (Z.land a offsetMask)
        (Z.lor (Z.shiftl (Z.shiftr (Z.land a indexMask) offsetBits) offsetBits)
               (Z.shiftl (Z.shiftr a (indexBits + offsetBits)) (offsetBits + indexBits)))
  = a.
Proof.
  rewrite index_field, <- Z.land_ones, offsetMask_ones by lia.
  apply Z.bits_inj'. intros n Hn.
  rewrite !Z.lor_spec, Z.land_spec, !Z.shiftl_spec, Z.land_spec,
    !Z.testbit_ones by lia.
  destruct (Z.ltb_spec n offsetBits).
  - rewrite (Z.testbit_neg_r _ (n - offsetBits)) by lia.
    rewrite (Z.testbit_neg_r _ (n - (offsetBits + indexBits))) by lia.
    replace (0 <=? n) with true by (symmetry; apply Z.leb_le; lia).
    cbn. by rewrite !orb_false_r, andb_true_r.
  - rewrite andb_false_r, (andb_false_r (Z.testbit a n)). cbn.
    rewrite Z.shiftr_spec by lia.
    replace (n - offsetBits + offsetBits) with n by lia.
    replace (0 <=? n - offsetBits) with true by (symmetry; apply Z.leb_le; lia).
    destruct (Z.ltb_spec (n - offsetBits) indexBits).
    + rewrite (Z.testbit_neg_r _ (n - (offsetBits + indexBits))) by lia.
      cbn. by rewrite andb_true_r, orb_false_r.
    + rewrite Z.shiftr_spec by lia.
      replace (n - (offsetBits + indexBits) + (indexBits + offsetBits)) with n by lia.
      cbn. by rewrite andb_false_r.
Qed.

Lemma fields_disjoint a :
  let offset := Z.land a offsetMask in
  let index := Z.shiftl (Z.shiftr (Z.land a indexMask) offsetBits) offsetBits in
  let tag := Z.shiftl (Z.shiftr a (indexBits + offsetBits)) (offsetBits + indexBits) in
  Z.land offset index = 0 /\ Z.land offset tag = 0 /\ Z.land index tag = 0.
Proof.
  cbn zeta. rewrite index_field, <- Z.land_ones, offsetMask_ones by lia.
  repeat split; apply Z.bits_inj'; intros n Hn;
    rewrite Z.bits_0, !Z.land_spec, ?Z.shiftl_spec, ?Z.land_spec,
      ?Z.testbit_ones by lia.
  - destruct (Z.ltb_spec n offsetBits).
    + rewrite (Z.testbit_neg_r _ (n - offsetBits)) by lia. by rewrite andb_false_r.
    + by rewrite !andb_false_r.
  - destruct (Z.ltb_spec n offsetBits).
    + rewrite (Z.testbit_neg_r _ (n - (offsetBits + indexBits))) by lia.
      by rewrite andb_false_r.
    + by rewrite !andb_false_r.
  - destruct (Z.ltb_spec (n - offsetBits) indexBits).
    + rewrite (Z.testbit_neg_r _ (n - (offsetBits + indexBits))) by lia.
      by rewrite andb_false_r.
    + by rewrite !andb_false_r.
Qed.

End Fields.

(** ** Geometry derivation *)

Lemma configure_eq setSize lineSize totalCacheSize c0 :
  CacheTable.configure setSize lineSize totalCacheSize c0 =
  let n := derived_number_of_sets setSize lineSize totalCacheSize c0 in
  if (0 <? n) && (0 <? lineSize)
  then Some (configured setSize lineSize totalCacheSize n c0)
  else None.
Proof.
  unfold CacheTable.configure, derived_number_of_sets,
    CacheTable.calculate_number_of_sets, CacheTable.calculate_index_size,
    CacheTable.calculate_offset_size, Int.log2.
  cbn [CacheTable.read_cache_config CacheTable.lineSize_ CacheTable.setSize_].
  destruct (negb (lineSize =? 0) && negb (setSize =? 0)); cbn;
    (destruct (0 <? _); [|done]); cbn; destruct (0 <? lineSize); done.
Qed.

Lemma number_of_sets_le setSize lineSize totalCacheSize :
  0 < lineSize -> 0 < setSize ->
  0 < (totalCacheSize ÷ lineSize) ÷ setSize ->
  0 < totalCacheSize /\
  ((totalCacheSize ÷ lineSize) ÷ setSize) * lineSize <= totalCacheSize.
Proof.
  intros HL HS Hn.
  assert (0 <= totalCacheSize) as HT.
  { destruct (Z.le_gt_cases 0 totalCacheSize) as [|Hneg]; [done|].
    assert (totalCacheSize ÷ lineSize <= 0) by (apply Z.quot_le_upper_bound; lia).
    assert (totalCacheSize ÷ lineSize ÷ setSize <= 0)
      by (apply Z.quot_le_upper_bound; lia).
    lia. }
  rewrite (Z.quot_div_nonneg totalCacheSize) in * by lia.
  assert (0 <= totalCacheSize / lineSize) by (apply Z.div_pos; lia).
  rewrite Z.quot_div_nonneg in * by lia.
  assert (setSize * (totalCacheSize / lineSize / setSize) <= totalCacheSize / lineSize)
    by (apply Z.mul_div_le; lia).
  assert (lineSize * (totalCacheSize / lineSize) <= totalCacheSize)
    by (apply Z.mul_div_le; lia).
  split; nia.
Qed.

(** The sizes the geometry derives stay far below the 53 bits in which the
    [double] arithmetic of the masks is exact, and below the width of an
    address. *)
Lemma derived_sizes_small setSize lineSize totalCacheSize :
  0 < lineSize -> 0 < setSize -> totalCacheSize <= Int.INT_MAX ->
  0 < (totalCacheSize ÷ lineSize) ÷ setSize ->
  0 <= Z.log2 lineSize /\
  0 <= Z.log2 ((totalCacheSize ÷ lineSize) ÷ setSize) /\
  Z.log2 ((totalCacheSize ÷ lineSize) ÷ setSize) + Z.log2 lineSize <= 30.
Proof.
  intros HL HS HT Hn.
  destruct (number_of_sets_le _ _ _ HL HS Hn) as [HT0 Hle].
  set (n := (totalCacheSize ÷ lineSize) ÷ setSize) in *.
  pose proof (Z.log2_nonneg lineSize). pose proof (Z.log2_nonneg n).
  repeat split; [done..|].
  destruct (Z.log2_spec n Hn) as [Hn2 _].
  destruct (Z.log2_spec lineSize HL) as [HL2 _].
  assert (2 ^ (Z.log2 n + Z.log2 lineSize) < 2 ^ 31) as Hpow.
  { rewrite Z.pow_add_r by done. unfold Int.INT_MAX in HT. nia. }
  apply Z.pow_lt_mono_r_iff in Hpow; lia.
Qed.

(** A completed configuration with positive sizes is the table [configured]
    describes, with at least one set. *)
Lemma configure_valid c0 c setSize lineSize totalCacheSize :
  0 < setSize -> 0 < lineSize ->
  CacheTable.configure setSize lineSize totalCacheSize c0 = Some c ->
  0 < (totalCacheSize ÷ lineSize) ÷ setSize /\
  c = configured setSize lineSize totalCacheSize
        ((totalCacheSize ÷ lineSize) ÷ setSize) c0.
Proof.
  intros HS HL Hc. rewrite configure_eq in Hc. cbn zeta in Hc.
  unfold derived_number_of_sets in Hc.
  replace (lineSize =? 0) with false in Hc by (symmetry; apply Z.eqb_neq; lia).
  replace (setSize =? 0) with false in Hc by (symmetry; apply Z.eqb_neq; lia).
  cbn [negb andb] in Hc.
  destruct (Z.ltb_spec 0 (totalCacheSize ÷ lineSize ÷ setSize)) as [Hn|]; [|done].
  replace (0 <? lineSize) with true in Hc by (symmetry; apply Z.ltb_lt; lia).
  by injection Hc as <-.
Qed.

(** In the derived geometry the index of every address is below the number
    of sets: the index has [floor(log2 numberOfSets)] bits. *)
Lemma index_below_number_of_sets c0 c setSize lineSize totalCacheSize
    refNum rW size address :
  0 < setSize -> 0 < lineSize -> totalCacheSize <= Int.INT_MAX ->
  0 <= address ->
  CacheTable.configure setSize lineSize totalCacheSize c0 = Some c ->
  0 <= MemRef.index_ (CacheTable.make_mem_ref refNum (rW, size, address) c)
    < CacheTable.numberOfSets_ c.
Proof.
  intros HS HL HT Ha Hc.
  destruct (configure_valid _ _ _ _ _ HS HL Hc) as [Hn ->].
  destruct (derived_sizes_small _ _ _ HL HS HT Hn) as (Ho & Hi & Hio).
  set (n := totalCacheSize ÷ lineSize ÷ setSize) in *.
  cbn -[Z.pow Z.shiftr Z.shiftl Z.land Z.lor Z.log2 Int.to_ulong].
  rewrite (to_ulong_small (Z.log2 lineSize)) by lia.
  rewrite (index_field _ _ Ho Hi).
  pose proof (Z.mod_pos_bound (Z.shiftr address (Z.log2 lineSize)) (2 ^ Z.log2 n)).
  destruct (Z.log2_spec n Hn) as [Hlow _].
  assert (0 < 2 ^ Z.log2 n) by (apply Z.pow_pos_nonneg; lia). lia.
Qed.

(** C1.  Partition of the address: in the geometry [configure] derives
    (offset bits = log2 of the line size, index bits = log2 of the number of
    sets, masks [2^offsetBits - 1] and [(2^(indexBits+offsetBits) - 1) -
    offsetMask]) the offset, index and tag computed for an address rebuild it,
    [offset | (index << offsetBits) | (tag << (offsetBits+indexBits)) = address],
    and the three bit-fields are pairwise disjoint: they share no bit, the
    offset lies below [2^offsetBits] and the index below [2^indexBits]. *)
Theorem address_partition (c0 c : CacheTable.t)
    (setSize lineSize totalCacheSize refNum size address : Z) (rW : ReadOrWrite) :
  0 < setSize -> 0 < lineSize -> totalCacheSize <= Int.INT_MAX ->
  0 <= address < 2 ^ 64 ->
  CacheTable.configure setSize lineSize totalCacheSize c0 = Some c ->
  let offsetBits := CacheTable.offsetSize_ c in
  let indexBits := CacheTable.indexSize_ c in
  let m := CacheTable.make_mem_ref refNum (rW, size, address) c in
  let offset := MemRef.offset_ m in
  let index := MemRef.index_ m in
  let tag := MemRef.tag_ m in
  (offsetBits = Z.log2 lineSize /\
   indexBits = Z.log2 (CacheTable.numberOfSets_ c) /\
   CacheTable.offsetMask_ c = 2 ^ offsetBits - 1 /\
   CacheTable.indexMask_ c =
     (2 ^ (indexBits + offsetBits) - 1) - CacheTable.offsetMask_ c) /\
  (offset = Z.land address (CacheTable.offsetMask_ c) /\
   index = Z.shiftr (Z.land address (CacheTable.indexMask_ c)) offsetBits /\
   tag = Z.shiftr address (indexBits + offsetBits)) /\
  Z.lor offset
        (Z.lor (Z.shiftl index offsetBits) (Z.shiftl tag (offsetBits + indexBits)))
    = address /\
  (Z.land offset (Z.shiftl index offsetBits) = 0 /\
   Z.land offset (Z.shiftl tag (offsetBits + indexBits)) = 0 /\
   Z.land (Z.shiftl index offsetBits) (Z.shiftl tag (offsetBits + indexBits)) = 0) /\
  (0 <= offset < 2 ^ offsetBits /\ 0 <= index < 2 ^ indexBits /\ 0 <= tag).
Proof.
  intros HS HL HT Ha Hc.
  destruct (configure_valid _ _ _ _ _ HS HL Hc) as [Hn ->].
  destruct (derived_sizes_small _ _ _ HL HS HT Hn) as (Ho & Hi & Hio).
  set (n := totalCacheSize ÷ lineSize ÷ setSize) in *.
  cbn -[Z.pow Z.shiftr Z.shiftl Z.land Z.lor Z.log2 Int.to_ulong].
  rewrite (to_ulong_small (Z.log2 n)), (to_ulong_small (Z.log2 lineSize)),
    to_ulong_small by lia.
  split; [done|]. split; [done|].
  split; [apply (fields_rebuild _ _ Ho Hi)|].
  split; [apply (fields_disjoint _ _ Ho Hi)|].
  rewrite (offset_field _ Ho), (index_field _ _ Ho Hi).
  repeat split; try (apply Z.mod_pos_bound; lia).
  apply Z.shiftr_nonneg. lia.
Qed.

Lemma address_partition_witness :
  exists c, CacheTable.configure 4 32 1024 CacheTable.new = Some c /\
    let m := CacheTable.make_mem_ref 0 (READ, 4, 1715004) c in
    Z.lor (MemRef.offset_ m)
      (Z.lor (Z.shiftl (MemRef.index_ m) 5) (Z.shiftl (MemRef.tag_ m) 8)) = 1715004.
Proof.
  eexists. split; [reflexivity|].
  refine (proj1 (proj2 (proj2
    (address_partition CacheTable.new _ 4 32 1024 0 4 1715004 READ _ _ _ _ eq_refl)))).
  - lia.
  - lia.
  - unfold Int.INT_MAX. lia.
  - lia.
Defined.

(** C4 (amended).  The geometry derivation validates nothing and raises no
    error.  Whenever the line size and the set size are positive and the
    truncating quotient [(totalCacheSize / lineSize) / setSize] is at least 1
    it completes with that number of sets, offset bits [floor(log2 lineSize)]
    and index bits [floor(log2 numberOfSets)], whether or not the number of
    sets is a power of two; it completes for (100, 8, 3) with 4 sets, 3 offset
    bits and 2 index bits, for (96, 8, 4) with 3 sets and 1 index bit, and for
    (1024, 32, 4) with 8 sets, 5 offset bits and 3 index bits.  With a zero
    line size or set size [calculate_number_of_sets] skips the division and
    leaves the number of sets as it was. *)
Theorem geometry_unvalidated :
  (forall c0 setSize lineSize totalCacheSize,
     0 < lineSize -> 0 < setSize ->
     0 < (totalCacheSize ÷ lineSize) ÷ setSize ->
     exists c,
       CacheTable.configure setSize lineSize totalCacheSize c0 = Some c /\
       CacheTable.numberOfSets_ c = (totalCacheSize ÷ lineSize) ÷ setSize /\
       CacheTable.offsetSize_ c = Z.log2 lineSize /\
       CacheTable.indexSize_ c = Z.log2 (CacheTable.numberOfSets_ c) /\
       length (CacheTable.cacheSet_ c) =
         (length (CacheTable.cacheSet_ c0) +
          Z.to_nat (CacheTable.numberOfSets_ c))%nat) /\
  (forall c0, exists c,
     CacheTable.configure 3 8 100 c0 = Some c /\
     CacheTable.numberOfSets_ c = 4 /\
     CacheTable.offsetSize_ c = 3 /\ CacheTable.indexSize_ c = 2) /\
  (forall c0, exists c,
     CacheTable.configure 4 8 96 c0 = Some c /\
     CacheTable.numberOfSets_ c = 3 /\
     CacheTable.offsetSize_ c = 3 /\ CacheTable.indexSize_ c = 1) /\
  (forall c0, exists c,
     CacheTable.configure 4 32 1024 c0 = Some c /\
     CacheTable.numberOfSets_ c = 8 /\
     CacheTable.offsetSize_ c = 5 /\ CacheTable.indexSize_ c = 3) /\
  (forall c,
     CacheTable.lineSize_ c = 0 \/ CacheTable.setSize_ c = 0 ->
     CacheTable.calculate_number_of_sets c = c).
Proof.
  split; [|split; [|split; [|split]]].
  - intros c0 setSize lineSize totalCacheSize HL HS Hn.
    rewrite configure_eq. cbn zeta. unfold derived_number_of_sets.
    replace (lineSize =? 0) with false by (symmetry; apply Z.eqb_neq; lia).
    replace (setSize =? 0) with false by (symmetry; apply Z.eqb_neq; lia).
    cbn [negb andb].
    replace (0 <? _ ÷ _ ÷ _) with true by (symmetry; apply Z.ltb_lt; lia).
    replace (0 <? lineSize) with true by (symmetry; apply Z.ltb_lt; lia).
    eexists. split; [reflexivity|].
    cbn [configured CacheTable.numberOfSets_ CacheTable.offsetSize_
         CacheTable.indexSize_ CacheTable.cacheSet_].
    repeat split. by rewrite length_imap, length_app, length_replicate.
  - intros c0. rewrite configure_eq. eexists. split; [reflexivity|]. done.
  - intros c0. rewrite configure_eq. eexists. split; [reflexivity|]. done.
  - intros c0. rewrite configure_eq. eexists. split; [reflexivity|]. done.
  - intros c Hz. unfold CacheTable.calculate_number_of_sets.
    destruct Hz as [-> | ->]; cbn; [done|].
    by rewrite andb_false_r.
Qed.

Lemma geometry_unvalidated_witness :
  exists c,
    CacheTable.configure 2 16 128 CacheTable.new = Some c /\
    CacheTable.numberOfSets_ c = 4.
Proof.
  destruct (proj1 geometry_unvalidated CacheTable.new 2 16 128)
    as (c & Hc & Hn & _); [lia | lia | reflexivity |].
  exists c. split; [exact Hc | exact Hn].
Defined.

(** C4 as stated fails: for total size 100, line size 8 and set size 3 the
    derivation does not fail.  The truncating divisions give 100/8 = 12 and
    12/3 = 4 sets, and the run goes on with 3 offset bits and 2 index bits. *)
Lemma geometry_100_8_3_succeeds :
  CacheTable.configure 3 8 100 CacheTable.new =
    Some (CacheTable.mk
            [CacheSet.mk 3 0 []; CacheSet.mk 3 1 []; CacheSet.mk 3 2 [];
             CacheSet.mk 3 3 []]
            [] 100 8 3 4 2 3 0 0 0 7 24) /\
  CacheTable.configure 3 8 100 CacheTable.new <> None.
Proof. split; [reflexivity | discriminate]. Qed.

(** ** One set: lookup, insertion, replacement *)

Lemma increment_exact r :
  0 <= r < 2 ^ 64 - 1 -> Int.to_ulong (r + 1) = r + 1.
Proof. intros. apply to_ulong_small. lia. Qed.

Lemma tags_update_LRUs s : tags (CacheSet.update_LRUs s) = tags s.
Proof.
  unfold tags, CacheSet.update_LRUs. cbn.
  rewrite <- list_fmap_compose. by apply list_fmap_ext.
Qed.

Lemma tags_alter_set_LRU i (ls : list CacheLine.t) :
  CacheLine.getTag <$> alter CacheLine.set_LRU i ls = CacheLine.getTag <$> ls.
Proof.
  rewrite (list_fmap_alter _ _ id) by (by apply Forall_true).
  by apply list_alter_id.
Qed.

(** A lookup that finds no line with the tag reports a miss and changes
    nothing. *)
Lemma check_cache_lines_from_miss tag s rest it :
  tag ∉ (CacheLine.getTag <$> rest) ->
  CacheSet.check_cache_lines_from tag it rest s = (false, s).
Proof.
  revert it. induction rest as [|l rest IH]; intros it Hnot; [done|].
  cbn in *. apply not_elem_of_cons in Hnot as [Hne Hnot].
  destruct (Z.eqb_spec tag (CacheLine.getTag l)); [done|]. by apply IH.
Qed.

(** A lookup that meets the tag stops at its first line. *)
Lemma check_cache_lines_from_hit tag s rest it :
  tag ∈ (CacheLine.getTag <$> rest) ->
  exists k l,
    rest !! k = Some l /\ CacheLine.getTag l = tag /\
    (forall j l', (j < k)%nat -> rest !! j = Some l' -> CacheLine.getTag l' <> tag) /\
    CacheSet.check_cache_lines_from tag it rest s =
      (true,
       CacheSet.with_lines
         (alter CacheLine.set_LRU (it + k)%nat
                (CacheLine.increment_LRU <$> CacheSet.cacheLine_ s)) s).
Proof.
  revert it. induction rest as [|l rest IH]; intros it Hin; cbn in *.
  { by apply elem_of_nil in Hin. }
  destruct (Z.eqb_spec tag (CacheLine.getTag l)) as [Heq|Hne].
  - exists 0%nat, l. rewrite Nat.add_0_r. split_and!; [done|done| |done].
    intros j l' Hj. lia.
  - apply elem_of_cons in Hin as [?|Hin]; [done|].
    destruct (IH (S it) Hin) as (k & l' & Hk & Htag & Hfirst & Heq).
    exists (S k), l'. split_and!; [done|done| |].
    + intros [|j] l'' Hj Hl''; cbn in Hl''.
      * by injection Hl'' as <-.
      * apply (Hfirst j); [lia|done].
    + rewrite Heq. do 3 f_equal. lia.
Qed.

Lemma check_cache_lines_miss tag s :
  tag ∉ tags s -> CacheSet.check_cache_lines tag s = (false, s).
Proof. apply check_cache_lines_from_miss. Qed.

Lemma check_cache_lines_hit tag s :
  tag ∈ tags s -> exists s', CacheSet.check_cache_lines tag s = (true, s').
Proof.
  intros Hin.
  destruct (check_cache_lines_from_hit tag s _ 0 Hin) as (k & l & _ & _ & _ & Heq).
  eexists. exact Heq.
Qed.

Lemma check_cache_lines_false tag s s' :
  CacheSet.check_cache_lines tag s = (false, s') -> s' = s /\ tag ∉ tags s.
Proof.
  intros Hc. destruct (decide (tag ∈ tags s)) as [Hin|Hnot].
  - destruct (check_cache_lines_from_hit tag s _ 0 Hin) as (k & l & _ & _ & _ & Heq).
    unfold CacheSet.check_cache_lines in Hc. congruence.
  - rewrite check_cache_lines_miss in Hc by done. by injection Hc as <-.
Qed.

Lemma check_cache_lines_true tag s s' :
  CacheSet.check_cache_lines tag s = (true, s') ->
  tag ∈ tags s /\ tags s' = tags s /\
  CacheSet.setSize_ s' = CacheSet.setSize_ s /\
  CacheSet.index_ s' = CacheSet.index_ s /\
  length (CacheSet.cacheLine_ s') = length (CacheSet.cacheLine_ s).
Proof.
  intros Hc. destruct (decide (tag ∈ tags s)) as [Hin|Hnot].
  - destruct (check_cache_lines_from_hit tag s _ 0 Hin) as (k & l & _ & _ & _ & Heq).
    unfold CacheSet.check_cache_lines in Hc. rewrite Heq in Hc.
    injection Hc as <-. split_and!; [done| |done|done|].
    + unfold tags. cbn. rewrite tags_alter_set_LRU, <- list_fmap_compose.
      by apply list_fmap_ext.
    + cbn. by rewrite length_alter, length_fmap.
  - by rewrite check_cache_lines_miss in Hc.
Qed.

(** C2.  Hit semantics: when the tag is resident, the lookup reports a hit;
    the matching line (the first line carrying the tag) keeps its tag and has
    recency 0; every other line keeps its tag and has its recency incremented
    by 1 in the 64-bit unsigned counter, which is exactly one more unless the
    counter stood at its maximum; the occupancy and the resident tags, in
    their order, are unchanged. *)
Theorem hit_semantics (tag : Z) (s : CacheSet.t) :
  tag ∈ tags s ->
  exists (i : nat) (s' : CacheSet.t),
    CacheSet.check_cache_lines tag s = (true, s') /\
    tags s !! i = Some tag /\
    (forall j, (j < i)%nat -> tags s !! j <> Some tag) /\
    CacheSet.cacheLine_ s' !! i = Some (CacheLine.mk tag 0) /\
    (forall j l, j <> i -> CacheSet.cacheLine_ s !! j = Some l ->
       exists l', CacheSet.cacheLine_ s' !! j = Some l' /\
         CacheLine.tag_ l' = CacheLine.tag_ l /\
         CacheLine.LRUFlag_ l' = Int.to_ulong (CacheLine.LRUFlag_ l + 1) /\
         (0 <= CacheLine.LRUFlag_ l < 2 ^ 64 - 1 ->
          CacheLine.LRUFlag_ l' = CacheLine.LRUFlag_ l + 1)) /\
    length (CacheSet.cacheLine_ s') = length (CacheSet.cacheLine_ s) /\
    tags s' = tags s /\
    CacheSet.setSize_ s' = CacheSet.setSize_ s /\
    CacheSet.index_ s' = CacheSet.index_ s.
Proof.
  intros Hin.
  destruct (check_cache_lines_from_hit tag s _ 0 Hin) as (i & l & Hi & Htag & Hfirst & Heq).
  fold (CacheSet.check_cache_lines tag s) in Heq. cbn in Heq.
  destruct (check_cache_lines_true _ _ _ Heq) as (_ & Htags & Hsz & Hidx & Hlen).
  eexists i, _. split; [exact Heq|]. split_and!; try done.
  - unfold tags. rewrite list_lookup_fmap, Hi. cbn. by rewrite Htag.
  - intros j Hj Hl. unfold tags in Hl. rewrite list_lookup_fmap in Hl.
    destruct (CacheSet.cacheLine_ s !! j) as [l'|] eqn:Hl'; [|done].
    injection Hl as Hl. by apply (Hfirst j l').
  - cbn. rewrite list_lookup_alter_eq, list_lookup_fmap, Hi. cbn.
    unfold CacheLine.set_LRU. cbn. by rewrite <- Htag.
  - intros j l0 Hj Hl0. exists (CacheLine.increment_LRU l0). cbn.
    rewrite list_lookup_alter_ne, list_lookup_fmap, Hl0 by done.
    split_and!; [done..|]. apply increment_exact.
Qed.

Lemma hit_semantics_witness :
  exists s',
    CacheSet.check_cache_lines 7
      (CacheSet.mk 2 0 [CacheLine.mk 5 0; CacheLine.mk 7 3]) = (true, s') /\
    tags s' = [5; 7].
Proof.
  destruct (hit_semantics 7 (CacheSet.mk 2 0 [CacheLine.mk 5 0; CacheLine.mk 7 3]))
    as (i & s' & Hc & _ & _ & _ & _ & _ & Htags & _).
  - apply list_elem_of_In. cbn. right. left. reflexivity.
  - exists s'. split; [exact Hc | exact Htags].
Defined.

(** The invariant of the [find_LRU] loop: the candidate is a line of the
    vector, no line before the iterator is older than it, and every line
    before the candidate is strictly younger. *)
Lemma find_LRU_from_spec (ls : list CacheLine.t) rest pre currentLRU cur :
  ls = pre ++ rest ->
  ls !! currentLRU = Some cur ->
  (forall j l, (j < length pre)%nat -> ls !! j = Some l ->
     CacheLine.get_LRU l <= CacheLine.get_LRU cur) ->
  (forall j l, (j < currentLRU)%nat -> ls !! j = Some l ->
     CacheLine.get_LRU l < CacheLine.get_LRU cur) ->
  exists lv,
    ls !! CacheSet.find_LRU_from currentLRU cur (length pre) rest = Some lv /\
    (forall j l, ls !! j = Some l -> CacheLine.get_LRU l <= CacheLine.get_LRU lv) /\
    (forall j l, (j < CacheSet.find_LRU_from currentLRU cur (length pre) rest)%nat ->
       ls !! j = Some l -> CacheLine.get_LRU l < CacheLine.get_LRU lv).
Proof.
  revert pre currentLRU cur.
  induction rest as [|l rest IH]; intros pre currentLRU cur Hls Hcur Hle Hlt; cbn.
  - exists cur. split_and!; [done| |done].
    intros j l0 Hj. apply (Hle j); [|done].
    apply lookup_lt_Some in Hj. rewrite Hls, app_nil_r in Hj. done.
  - assert (ls !! length pre = Some l) as Hit.
    { rewrite Hls. by apply list_lookup_middle. }
    assert (ls = (pre ++ [l]) ++ rest) as Hls' by (by rewrite <- app_assoc).
    assert (length (pre ++ [l]) = S (length pre)) as Hlen
      by (rewrite length_app; cbn; lia).
    rewrite <- Hlen.
    destruct (Z.ltb_spec (CacheLine.get_LRU cur) (CacheLine.get_LRU l)) as [Hold|Hyoung].
    + apply IH; [done|done|rewrite Hlen|].
      * intros j l0 Hj Hl0. destruct (decide (j = length pre)) as [->|].
        -- rewrite Hit in Hl0. injection Hl0 as <-. lia.
        -- assert (CacheLine.get_LRU l0 <= CacheLine.get_LRU cur)
             by (apply (Hle j); [lia|done]). lia.
      * intros j l0 Hj Hl0.
        assert (CacheLine.get_LRU l0 <= CacheLine.get_LRU cur)
          by (apply (Hle j); [lia|done]). lia.
    + apply IH; [done|done| |done].
      rewrite Hlen. intros j l0 Hj Hl0. destruct (decide (j = length pre)) as [->|].
      * rewrite Hit in Hl0. injection Hl0 as <-. lia.
      * apply (Hle j); [lia|done].
Qed.

(** [find_LRU] on a set with at least one line: the first line of maximal
    recency. *)
Lemma find_LRU_spec s :
  CacheSet.cacheLine_ s <> [] ->
  exists lv,
    CacheSet.cacheLine_ s !! CacheSet.find_LRU s = Some lv /\
    (forall j l, CacheSet.cacheLine_ s !! j = Some l ->
       CacheLine.get_LRU l <= CacheLine.get_LRU lv) /\
    (forall j l, (j < CacheSet.find_LRU s)%nat -> CacheSet.cacheLine_ s !! j = Some l ->
       CacheLine.get_LRU l < CacheLine.get_LRU lv).
Proof.
  intros Hne. unfold CacheSet.find_LRU.
  destruct (CacheSet.cacheLine_ s) as [|l0 ls] eqn:Hls; [done|].
  apply (find_LRU_from_spec (l0 :: ls) (l0 :: ls) [] 0%nat l0); try done.
  - intros j l Hj. cbn in Hj. lia.
  - intros j l Hj. lia.
Qed.

Lemma update_cache_lines_room tag s :
  Z.of_nat (length (CacheSet.cacheLine_ s)) < CacheSet.setSize_ s ->
  CacheSet.update_cache_lines tag s = Some (CacheSet.add_new_cache_line tag s).
Proof.
  intros Hroom. unfold CacheSet.update_cache_lines.
  by replace (_ <? _) with true by (symmetry; apply Z.ltb_lt; lia).
Qed.

Lemma update_cache_lines_full tag s :
  CacheSet.setSize_ s <= Z.of_nat (length (CacheSet.cacheLine_ s)) ->
  CacheSet.cacheLine_ s <> [] ->
  CacheSet.update_cache_lines tag s =
    Some (CacheSet.with_lines
            (alter (fun l => CacheLine.set_LRU (CacheLine.setTag tag l))
                   (CacheSet.find_LRU s)
                   (CacheLine.increment_LRU <$> CacheSet.cacheLine_ s)) s).
Proof.
  intros Hfull Hne. unfold CacheSet.update_cache_lines.
  replace (_ <? _) with false by (symmetry; apply Z.ltb_ge; lia).
  destruct (find_LRU_spec s Hne) as (lv & Hlv & _).
  apply lookup_lt_Some in Hlv. cbn. rewrite length_fmap.
  by rewrite decide_True by done.
Qed.



(** C3.  Full-set replacement: on a set that holds exactly [setSize_] lines
    (at least one), the victim is the line of maximal recency, the first such
    line in vector order; the victim's place then holds the new tag with
    recency 0, every other line keeps its tag and has its recency incremented
    by 1 in the 64-bit unsigned counter (exactly one more unless the counter
    stood at its maximum), and the occupancy stays [setSize_]. *)
Theorem full_set_replacement (tag : Z) (s : CacheSet.t) :
  Z.of_nat (length (CacheSet.cacheLine_ s)) = CacheSet.setSize_ s ->
  0 < CacheSet.setSize_ s ->
  exists (victim : nat) (lv : CacheLine.t) (s' : CacheSet.t),
    CacheSet.update_cache_lines tag s = Some s' /\
    victim = CacheSet.find_LRU s /\
    CacheSet.cacheLine_ s !! victim = Some lv /\
    (forall j l, CacheSet.cacheLine_ s !! j = Some l ->
       CacheLine.LRUFlag_ l <= CacheLine.LRUFlag_ lv) /\
    (forall j l, (j < victim)%nat -> CacheSet.cacheLine_ s !! j = Some l ->
       CacheLine.LRUFlag_ l < CacheLine.LRUFlag_ lv) /\
    CacheSet.cacheLine_ s' !! victim = Some (CacheLine.mk tag 0) /\
    (forall j l, j <> victim -> CacheSet.cacheLine_ s !! j = Some l ->
       exists l', CacheSet.cacheLine_ s' !! j = Some l' /\
         CacheLine.tag_ l' = CacheLine.tag_ l /\
         CacheLine.LRUFlag_ l' = Int.to_ulong (CacheLine.LRUFlag_ l + 1) /\
         (0 <= CacheLine.LRUFlag_ l < 2 ^ 64 - 1 ->
          CacheLine.LRUFlag_ l' = CacheLine.LRUFlag_ l + 1)) /\
    Z.of_nat (length (CacheSet.cacheLine_ s')) = CacheSet.setSize_ s /\
    CacheSet.setSize_ s' = CacheSet.setSize_ s /\
    CacheSet.index_ s' = CacheSet.index_ s.
Proof.
  intros Hfull Hpos.
  assert (CacheSet.cacheLine_ s <> []) as Hne.
  { intros Hnil. rewrite Hnil in Hfull. cbn in Hfull. lia. }
  destruct (find_LRU_spec s Hne) as (lv & Hlv & Hmax & Hfirst).
  rewrite update_cache_lines_full by (done || lia).
  eexists (CacheSet.find_LRU s), lv, _. split; [reflexivity|].
  cbn. split_and!; try done.
  - by rewrite list_lookup_alter_eq, list_lookup_fmap, Hlv.
  - intros j l Hj Hl. exists (CacheLine.increment_LRU l).
    rewrite list_lookup_alter_ne, list_lookup_fmap, Hl by done.
    split_and!; [done..|]. apply increment_exact.
  - by rewrite length_alter, length_fmap.
Qed.

Lemma full_set_replacement_witness :
  exists s',
    CacheSet.update_cache_lines 9
      (CacheSet.mk 3 0 [CacheLine.mk 5 2; CacheLine.mk 6 4; CacheLine.mk 7 4])
      = Some s' /\
    CacheSet.cacheLine_ s' !! 1%nat = Some (CacheLine.mk 9 0).
Proof.
  destruct (full_set_replacement 9
      (CacheSet.mk 3 0 [CacheLine.mk 5 2; CacheLine.mk 6 4; CacheLine.mk 7 4]))
    as (victim & lv & s' & Hu & Hv & _ & _ & _ & Hnew & _).
  - reflexivity.
  - reflexivity.
  - exists s'. split; [exact Hu|]. rewrite Hv in Hnew. exact Hnew.
Defined.

(** ** The vector of sets *)

Lemma set_at_index index sets s :
  set_at index sets = Some s -> CacheSet.getIndex s = index.
Proof.
  induction sets as [|s0 rest IH]; cbn; [done|].
  destruct (Z.eqb_spec index (CacheSet.getIndex s0)); [|done].
  by intros [= <-].
Qed.

Lemma set_at_elem index sets s : set_at index sets = Some s -> s ∈ sets.
Proof.
  induction sets as [|s0 rest IH]; cbn; [done|].
  destruct (index =? CacheSet.getIndex s0).
  - intros [= <-]. apply elem_of_cons. by left.
  - intros Hs. apply elem_of_cons. right. by apply IH.
Qed.

Lemma set_at_put_same index sets s s' :
  set_at index sets = Some s -> CacheSet.getIndex s' = index ->
  set_at index (put_set index s' sets) = Some s'.
Proof.
  intros Hs Hidx. induction sets as [|s0 rest IH]; cbn in *; [done|].
  destruct (Z.eqb_spec index (CacheSet.getIndex s0)) as [Heq|Hne]; cbn.
  - by rewrite Hidx, Z.eqb_refl.
  - destruct (Z.eqb_spec index (CacheSet.getIndex s0)); [done|]. by apply IH.
Qed.

Lemma set_at_put_other index index' sets s' :
  CacheSet.getIndex s' = index -> index' <> index ->
  set_at index' (put_set index s' sets) = set_at index' sets.
Proof.
  intros Hidx Hne. induction sets as [|s0 rest IH]; cbn; [done|].
  destruct (Z.eqb_spec index (CacheSet.getIndex s0)) as [Heq|Hne0]; cbn.
  - rewrite Hidx.
    destruct (Z.eqb_spec index' index); [done|].
    by destruct (Z.eqb_spec index' (CacheSet.getIndex s0)); [lia|].
  - by rewrite IH.
Qed.

Lemma put_set_length index s' sets : length (put_set index s' sets) = length sets.
Proof.
  induction sets as [|s0 rest IH]; cbn; [done|].
  destruct (index =? CacheSet.getIndex s0); cbn; by rewrite ?IH.
Qed.

Lemma put_set_Forall (P : CacheSet.t -> Prop) index s' sets :
  Forall P sets -> P s' -> Forall P (put_set index s' sets).
Proof.
  intros Hall Hs'. induction Hall as [|s0 rest H0 Hrest IH]; cbn; [done|].
  destruct (index =? CacheSet.getIndex s0); by constructor.
Qed.

(** The loop of [determine_hit_or_miss] accesses the set the index names and
    no other. *)
Lemma determine_hit_or_miss_from_eq index tag sets :
  CacheTable.determine_hit_or_miss_from index tag sets =
  match set_at index sets with
  | None => Some (false, sets)
  | Some s => '(hit, s') ← access_set tag s; Some (hit, put_set index s' sets)
  end.
Proof.
  induction sets as [|s0 rest IH]; cbn; [done|].
  destruct (index =? CacheSet.getIndex s0).
  - unfold access_set. destruct (CacheSet.check_cache_lines tag s0) as [[|] s1]; cbn.
    + done.
    + by destruct (CacheSet.update_cache_lines tag s1).
  - rewrite IH. destruct (set_at index rest) as [s|]; cbn; [|done].
    by destruct (access_set tag s) as [[hit s']|].
Qed.

Lemma with_cacheSet_same c : CacheTable.with_cacheSet (CacheTable.cacheSet_ c) c = c.
Proof. by destruct c. Qed.

Lemma determine_hit_or_miss_eq index tag c :
  CacheTable.determine_hit_or_miss index tag c =
  match set_at index (CacheTable.cacheSet_ c) with
  | None => Some (false, count false c)
  | Some s =>
      '(hit, s') ← access_set tag s;
      Some (hit, count hit
                   (CacheTable.with_cacheSet
                      (put_set index s' (CacheTable.cacheSet_ c)) c))
  end.
Proof.
  unfold CacheTable.determine_hit_or_miss.
  rewrite determine_hit_or_miss_from_eq.
  destruct (set_at index (CacheTable.cacheSet_ c)) as [s|]; cbn.
  - destruct (access_set tag s) as [[[|] s']|]; by cbn.
  - by rewrite with_cacheSet_same.
Qed.

(** ** One access to a set *)

Lemma access_set_hit tag s :
  tag ∈ tags s ->
  exists s', access_set tag s = Some (true, s') /\
    CacheSet.check_cache_lines tag s = (true, s').
Proof.
  intros Hin. destruct (check_cache_lines_hit tag s Hin) as (s' & Hc).
  exists s'. unfold access_set. by rewrite Hc.
Qed.

Lemma NoDup_insert_fresh (l : list Z) (i : nat) (x : Z) :
  NoDup l -> x ∉ l -> NoDup (<[i:=x]> l).
Proof.
  intros Hnd. revert i. induction Hnd as [|a l Ha Hnd IH]; intros i Hx.
  { cbn. apply NoDup_nil_2. }
  apply not_elem_of_cons in Hx as [Hxa Hx].
  destruct i as [|i]; cbn.
  - by apply NoDup_cons.
  - apply NoDup_cons. split; [|by apply IH].
    intros Hin. apply list_elem_of_lookup in Hin as [j Hj].
    apply list_lookup_insert_Some in Hj as [(_ & ? & _)|[_ Hj]]; [done|].
    apply Ha. by eapply list_elem_of_lookup_2.
Qed.

Lemma tags_add_new_cache_line tag s :
  tags (CacheSet.add_new_cache_line tag s) = tags s ++ [tag].
Proof. unfold tags. cbn. by rewrite fmap_app. Qed.

Lemma tags_replace tag v (ls : list CacheLine.t) :
  CacheLine.getTag <$>
    alter (fun l => CacheLine.set_LRU (CacheLine.setTag tag l)) v
          (CacheLine.increment_LRU <$> ls)
  = <[v:=tag]> (CacheLine.getTag <$> ls).
Proof.
  rewrite (list_fmap_alter _ _ (fun _ => tag)) by (by apply Forall_true).
  by rewrite <- list_insert_alter, <- list_fmap_compose.
Qed.

Lemma access_set_miss_room tag s :
  tag ∉ tags s ->
  Z.of_nat (length (CacheSet.cacheLine_ s)) < CacheSet.setSize_ s ->
  access_set tag s = Some (false, CacheSet.add_new_cache_line tag s).
Proof.
  intros Hnot Hroom. unfold access_set.
  rewrite check_cache_lines_miss by done.
  by rewrite update_cache_lines_room by done.
Qed.

Lemma access_set_miss_full tag s :
  tag ∉ tags s ->
  CacheSet.setSize_ s <= Z.of_nat (length (CacheSet.cacheLine_ s)) ->
  CacheSet.cacheLine_ s <> [] ->
  access_set tag s =
    Some (false,
          CacheSet.with_lines
            (alter (fun l => CacheLine.set_LRU (CacheLine.setTag tag l))
                   (CacheSet.find_LRU s)
                   (CacheLine.increment_LRU <$> CacheSet.cacheLine_ s)) s).
Proof.
  intros Hnot Hfull Hne. unfold access_set.
  rewrite check_cache_lines_miss by done.
  by rewrite update_cache_lines_full by done.
Qed.

(** An access to a set of positive capacity always completes. *)
Lemma access_set_total tag s :
  0 < CacheSet.setSize_ s -> is_Some (access_set tag s).
Proof.
  intros Hpos. destruct (decide (tag ∈ tags s)) as [Hin|Hnot].
  - destruct (access_set_hit tag s Hin) as (s' & -> & _). done.
  - destruct (Z.lt_ge_cases (Z.of_nat (length (CacheSet.cacheLine_ s)))
                (CacheSet.setSize_ s)) as [Hroom|Hfull].
    + by rewrite access_set_miss_room.
    + rewrite access_set_miss_full; [done..|].
      intros Hnil. rewrite Hnil in Hfull. cbn in Hfull. lia.
Qed.

(** What one access does to a set: the outcome tells whether the tag was
    resident, the tag is resident afterwards, and capacity, index, the bound
    on the occupancy and the absence of duplicate tags are kept. *)
Lemma access_set_spec tag s hit s' :
  access_set tag s = Some (hit, s') ->
  (hit = true <-> tag ∈ tags s) /\
  tag ∈ tags s' /\
  CacheSet.setSize_ s' = CacheSet.setSize_ s /\
  CacheSet.index_ s' = CacheSet.index_ s /\
  (Z.of_nat (length (CacheSet.cacheLine_ s)) <= CacheSet.setSize_ s ->
   Z.of_nat (length (CacheSet.cacheLine_ s')) <= CacheSet.setSize_ s) /\
  (NoDup (tags s) -> NoDup (tags s')).
Proof.
  intros Ha. destruct (decide (tag ∈ tags s)) as [Hin|Hnot].
  - destruct (access_set_hit tag s Hin) as (s1 & Hs1 & Hc).
    rewrite Hs1 in Ha. injection Ha as <- <-.
    destruct (check_cache_lines_true _ _ _ Hc) as (_ & Htags & Hsz & Hidx & Hlen).
    rewrite Htags, Hlen. done.
  - unfold access_set in Ha. rewrite check_cache_lines_miss in Ha by done.
    cbn in Ha.
    destruct (CacheSet.update_cache_lines tag s) as [s1|] eqn:Hu; [|done].
    injection Ha as <- <-.
    assert (true <> false) by done.
    destruct (Z.lt_ge_cases (Z.of_nat (length (CacheSet.cacheLine_ s)))
                (CacheSet.setSize_ s)) as [Hroom|Hfull].
    + rewrite update_cache_lines_room in Hu by done. injection Hu as <-.
      rewrite tags_add_new_cache_line. cbn. split_and!; try done.
      * apply elem_of_app. right. apply list_elem_of_singleton. done.
      * rewrite length_app. cbn. lia.
      * intros Hnd. apply NoDup_app. split_and!; [done| |apply NoDup_singleton].
        intros x Hx ->%list_elem_of_singleton. done.
    + assert (CacheSet.cacheLine_ s <> []) as Hne.
      { intros Hnil. unfold CacheSet.update_cache_lines in Hu.
        replace (_ <? _) with false in Hu by (symmetry; apply Z.ltb_ge; lia).
        unfold CacheSet.find_LRU in Hu. rewrite Hnil in Hu. cbn in Hu.
        rewrite Hnil in Hu. cbn in Hu. rewrite decide_False in Hu by lia. done. }
      rewrite update_cache_lines_full in Hu by done. injection Hu as <-.
      destruct (find_LRU_spec s Hne) as (lv & Hlv & _).
      apply lookup_lt_Some in Hlv.
      unfold tags at 2 4. cbn. rewrite tags_replace.
      split_and!; try done.
      * apply list_elem_of_insert. by rewrite length_fmap.
      * by rewrite length_alter, length_fmap.
      * intros Hnd. by apply NoDup_insert_fresh.
Qed.

(** ** One access to the table *)

(** The two ways an access can end: no set carries the index, or the set the
    index names was accessed. *)
Lemma determine_hit_or_miss_result index tag c hM c' :
  CacheTable.determine_hit_or_miss index tag c = Some (hM, c') ->
  exists sets',
    c' = count hM (CacheTable.with_cacheSet sets' c) /\
    match set_at index (CacheTable.cacheSet_ c) with
    | None => hM = false /\ sets' = CacheTable.cacheSet_ c
    | Some s =>
        exists s', access_set tag s = Some (hM, s') /\
                   sets' = put_set index s' (CacheTable.cacheSet_ c)
    end.
Proof.
  rewrite determine_hit_or_miss_eq.
  destruct (set_at index (CacheTable.cacheSet_ c)) as [s|]; cbn.
  - destruct (access_set tag s) as [[hit s']|]; cbn; [|done].
    intros [= <- <-]. eexists. split; [done|]. by exists s'.
  - intros [= <- <-]. eexists. split; [|done]. by rewrite with_cacheSet_same.
Qed.

Lemma determine_hit_or_miss_total index tag c :
  Forall (fun s => 0 < CacheSet.setSize_ s) (CacheTable.cacheSet_ c) ->
  is_Some (CacheTable.determine_hit_or_miss index tag c).
Proof.
  intros Hcap. rewrite determine_hit_or_miss_eq.
  destruct (set_at index (CacheTable.cacheSet_ c)) as [s|] eqn:Hs; [|done].
  assert (0 < CacheSet.setSize_ s) as Hpos.
  { rewrite Forall_forall in Hcap. apply Hcap. by eapply set_at_elem. }
  destruct (access_set_total tag s Hpos) as [[hit s'] ->]. done.
Qed.

Lemma determine_hit_or_miss_Forall (P : CacheSet.t -> Prop) index tag c hM c' :
  (forall s hit s', P s -> access_set tag s = Some (hit, s') -> P s') ->
  Forall P (CacheTable.cacheSet_ c) ->
  CacheTable.determine_hit_or_miss index tag c = Some (hM, c') ->
  Forall P (CacheTable.cacheSet_ c').
Proof.
  intros HP Hall Hd.
  destruct (determine_hit_or_miss_result _ _ _ _ _ Hd) as (sets' & -> & Hsets).
  assert (CacheTable.cacheSet_ (count hM (CacheTable.with_cacheSet sets' c)) = sets')
    as -> by (by destruct hM).
  destruct (set_at index (CacheTable.cacheSet_ c)) as [s|] eqn:Hs.
  - destruct Hsets as (s' & Ha & ->). apply put_set_Forall; [done|].
    apply (HP s hM s'); [|done].
    rewrite Forall_forall in Hall. apply Hall. by eapply set_at_elem.
  - by destruct Hsets as [_ ->].
Qed.

Lemma read_line_Some refNum ln c c' :
  CacheTable.read_line refNum ln c = Some c' ->
  let m := CacheTable.make_mem_ref refNum ln c in
  exists hM c1,
    CacheTable.determine_hit_or_miss
      (Int.to_ulong (MemRef.getIndex m)) (MemRef.getTag m) c = Some (hM, c1) /\
    c' = CacheTable.with_totalAccess (Int.to_int (CacheTable.totalAccess c1 + 1))
           (CacheTable.with_memRef
              (CacheTable.memRef_ c1 ++ [MemRef.setHM hM m]) c1).
Proof.
  unfold CacheTable.read_line. cbn zeta.
  destruct (CacheTable.determine_hit_or_miss _ _ c) as [[hM c1]|]; cbn; [|done].
  intros [= <-]. by exists hM, c1.
Qed.

(** C9 (amended).  An index that no set carries is not an error: the access
    is classified as a miss, [totalMiss] is incremented, no set is touched,
    and the run goes on with the next line of the trace. *)
Theorem unmatched_index_is_a_miss :
  (forall index tag c,
     set_at index (CacheTable.cacheSet_ c) = None ->
     CacheTable.determine_hit_or_miss index tag c =
       Some (false,
             CacheTable.with_totalMiss (Int.to_int (CacheTable.totalMiss c + 1)) c)) /\
  (forall refNum ln rest c,
     let m := CacheTable.make_mem_ref refNum ln c in
     set_at (Int.to_ulong (MemRef.getIndex m)) (CacheTable.cacheSet_ c) = None ->
     exists c',
       CacheTable.read_line refNum ln c = Some c' /\
       CacheTable.cacheSet_ c' = CacheTable.cacheSet_ c /\
       CacheTable.memRef_ c' = CacheTable.memRef_ c ++ [MemRef.setHM false m] /\
       CacheTable.totalHits c' = CacheTable.totalHits c /\
       CacheTable.totalMiss c' = Int.to_int (CacheTable.totalMiss c + 1) /\
       CacheTable.totalAccess c' = Int.to_int (CacheTable.totalAccess c + 1) /\
       CacheTable.read_mem_trace_from refNum (ln :: rest) c =
         CacheTable.read_mem_trace_from (Int.to_int (refNum + 1)) rest c').
Proof.
  split.
  - intros index tag c Hnone. by rewrite determine_hit_or_miss_eq, Hnone.
  - intros refNum ln rest c m Hnone.
    cbn [CacheTable.read_mem_trace_from]. unfold CacheTable.read_line. cbn zeta.
    fold m. rewrite determine_hit_or_miss_eq, Hnone. cbn.
    eexists. split; [reflexivity|]. done.
Qed.

Lemma unmatched_index_is_a_miss_witness :
  CacheTable.determine_hit_or_miss 5 1
    (empty_cache 2 (CacheTable.read_cache_config 2 16 64 CacheTable.new))
  = Some (false,
          CacheTable.with_totalMiss 1
            (empty_cache 2 (CacheTable.read_cache_config 2 16 64 CacheTable.new))).
Proof.
  apply (proj1 unmatched_index_is_a_miss 5 1
           (empty_cache 2 (CacheTable.read_cache_config 2 16 64 CacheTable.new))).
  reflexivity.
Defined.

(** C9 as stated fails: on a table of two sets whose masks leave two index
    bits, the address 0x30 decomposes to index 3, which no set carries.  The
    run raises nothing: the reference is recorded as a miss, the sets stay
    empty, and the next line (address 0x00, index 0) is processed. *)
Lemma unmatched_index_run_continues :
  let c := CacheTable.mk [CacheSet.mk 1 0 []; CacheSet.mk 1 1 []] []
             64 16 1 2 2 4 0 0 0 15 48 in
  MemRef.getIndex (CacheTable.make_mem_ref 0 (READ, 4, 48) c) = 3 /\
  CacheTable.determine_hit_or_miss 3 0 c =
    Some (false, CacheTable.with_totalMiss 1 c) /\
  CacheTable.read_mem_trace [(READ, 4, 48); (READ, 4, 0)] c =
    Some (CacheTable.mk
            [CacheSet.mk 1 0 [CacheLine.mk 0 0]; CacheSet.mk 1 1 []]
            [MemRef.mk 0 READ 4 48 0 3 0 false; MemRef.mk 1 READ 4 0 0 0 0 false]
            64 16 1 2 2 4 0 2 2 15 48).
Proof. cbn zeta. split_and!; reflexivity. Qed.

(** An access to a named set, as seen from the table: the outcome and the
    new contents of that set. *)
Lemma determine_hit_or_miss_at index tag c s hit s' :
  set_at index (CacheTable.cacheSet_ c) = Some s ->
  access_set tag s = Some (hit, s') ->
  exists c',
    CacheTable.determine_hit_or_miss index tag c = Some (hit, c') /\
    c' = count hit (CacheTable.with_cacheSet
                      (put_set index s' (CacheTable.cacheSet_ c)) c) /\
    set_at index (CacheTable.cacheSet_ c') = Some s'.
Proof.
  intros Hs Ha. rewrite determine_hit_or_miss_eq, Hs, Ha. cbn.
  eexists. split_and!; [done..|].
  assert (CacheSet.getIndex s' = index) as Hidx.
  { destruct (access_set_spec _ _ _ _ Ha) as (_ & _ & _ & Hidx & _).
    unfold CacheSet.getIndex. rewrite Hidx. by apply set_at_index in Hs. }
  destruct hit; cbn; by apply (set_at_put_same _ _ s).
Qed.

(** C5.  LRU eviction scenario: on a set of capacity 2 that holds no line,
    the accesses A, B, A, C with distinct tags at the index of that set give
    Miss, Miss, Hit, Miss, and the set then holds exactly A and C: B, the
    least recently used line when C arrived, was the victim. *)
Theorem lru_eviction_scenario (c : CacheTable.t) (index A B C : Z) (s : CacheSet.t) :
  set_at index (CacheTable.cacheSet_ c) = Some s ->
  CacheSet.setSize_ s = 2 ->
  CacheSet.cacheLine_ s = [] ->
  A <> B -> A <> C -> B <> C ->
  exists c1 c2 c3 c4 s4,
    CacheTable.determine_hit_or_miss index A c = Some (false, c1) /\
    CacheTable.determine_hit_or_miss index B c1 = Some (false, c2) /\
    CacheTable.determine_hit_or_miss index A c2 = Some (true, c3) /\
    CacheTable.determine_hit_or_miss index C c3 = Some (false, c4) /\
    set_at index (CacheTable.cacheSet_ c4) = Some s4 /\
    CacheSet.cacheLine_ s4 = [CacheLine.mk A 1; CacheLine.mk C 0] /\
    tags s4 = [A; C] /\
    B ∉ tags s4.
Proof.
  intros Hs Hsz Hls HAB HAC HBC.
  destruct s as [sz idx ls]. cbn in Hsz, Hls. subst sz ls.
  assert (forall x y : Z, x <> y -> (x =? y) = false) as Hne
    by (intros; by apply Z.eqb_neq).
  destruct (determine_hit_or_miss_at index A c _ false
              (CacheSet.mk 2 idx [CacheLine.mk A 0]) Hs)
    as (c1 & H1 & _ & Hs1); [done|].
  destruct (determine_hit_or_miss_at index B c1 _ false
              (CacheSet.mk 2 idx [CacheLine.mk A 0; CacheLine.mk B 0]) Hs1)
    as (c2 & H2 & _ & Hs2).
  { unfold access_set, CacheSet.check_cache_lines. cbn. by rewrite (Hne B A). }
  destruct (determine_hit_or_miss_at index A c2 _ true
              (CacheSet.mk 2 idx [CacheLine.mk A 0; CacheLine.mk B 1]) Hs2)
    as (c3 & H3 & _ & Hs3).
  { unfold access_set, CacheSet.check_cache_lines. cbn. by rewrite Z.eqb_refl. }
  destruct (determine_hit_or_miss_at index C c3 _ false
              (CacheSet.mk 2 idx [CacheLine.mk A 1; CacheLine.mk C 0]) Hs3)
    as (c4 & H4 & _ & Hs4).
  { unfold access_set, CacheSet.check_cache_lines. cbn.
    by rewrite (Hne C A), (Hne C B). }
  exists c1, c2, c3, c4, (CacheSet.mk 2 idx [CacheLine.mk A 1; CacheLine.mk C 0]).
  split_and!; try done.
  unfold tags. cbn. rewrite !not_elem_of_cons. split_and!; [done..|].
  apply not_elem_of_nil.
Qed.

Lemma lru_eviction_scenario_witness :
  exists c1 c2 c3 c4 s4,
    let c := empty_cache 4 (CacheTable.read_cache_config 2 16 128 CacheTable.new) in
    CacheTable.determine_hit_or_miss 1 10 c = Some (false, c1) /\
    CacheTable.determine_hit_or_miss 1 20 c1 = Some (false, c2) /\
    CacheTable.determine_hit_or_miss 1 10 c2 = Some (true, c3) /\
    CacheTable.determine_hit_or_miss 1 30 c3 = Some (false, c4) /\
    set_at 1 (CacheTable.cacheSet_ c4) = Some s4 /\
    tags s4 = [10; 30].
Proof.
  destruct (lru_eviction_scenario
              (empty_cache 4 (CacheTable.read_cache_config 2 16 128 CacheTable.new))
              1 10 20 30 (CacheSet.mk 2 1 []))
    as (c1 & c2 & c3 & c4 & s4 & H1 & H2 & H3 & H4 & Hs4 & _ & Ht & _).
  - reflexivity.
  - reflexivity.
  - reflexivity.
  - lia.
  - lia.
  - lia.
  - exists c1, c2, c3, c4, s4. cbn zeta. split_and!; assumption.
Defined.

(** ** Reachable tables *)

Lemma access_set_ok setSize tag s hit s' :
  set_ok setSize s -> access_set tag s = Some (hit, s') -> set_ok setSize s'.
Proof.
  intros (Hsz & Hlen & Hnd) Ha.
  destruct (access_set_spec _ _ _ _ Ha) as (_ & _ & Hsz' & _ & Hlen' & Hnd').
  unfold set_ok. rewrite Hsz'. auto.
Qed.

Lemma fresh_sets_ok setSize n :
  Forall (set_ok setSize)
    (imap (fun indexSetter s => CacheSet.setIndex (Z.of_nat indexSetter) s)
          ([] ++ replicate n (CacheSet.new setSize))).
Proof.
  apply Forall_lookup. intros i s. cbn [app].
  rewrite list_lookup_imap. intros Hs.
  destruct (replicate n (CacheSet.new setSize) !! i) as [s0|] eqn:Hs0; [|done].
  apply lookup_replicate in Hs0 as [-> _]. injection Hs as <-.
  unfold set_ok, tags. cbn. split_and!; [done| |apply NoDup_nil_2].
  unfold Int.to_uint. apply Z.mod_pos_bound. lia.
Qed.

Lemma determine_hit_or_miss_setSize index tag c hM c' :
  CacheTable.determine_hit_or_miss index tag c = Some (hM, c') ->
  CacheTable.setSize_ c' = CacheTable.setSize_ c.
Proof.
  intros Hd.
  destruct (determine_hit_or_miss_result _ _ _ _ _ Hd) as (sets' & -> & _).
  by destruct hM.
Qed.

(** Every set of a reachable table has the capacity the table was given,
    holds no more lines than that, and holds no tag twice. *)
Lemma reachable_sets_ok c :
  reachable c -> Forall (set_ok (CacheTable.setSize_ c)) (CacheTable.cacheSet_ c).
Proof.
  induction 1 as [c n Hnil | c0 setSize lineSize totalCacheSize c Hnil Hc
                 | c index tag hM c' Hr IH Hd | c refNum ln c' Hr IH Hl].
  - cbn. rewrite Hnil. apply fresh_sets_ok.
  - rewrite configure_eq in Hc. cbn zeta in Hc.
    destruct (_ && _) in Hc; [|done]. injection Hc as <-.
    cbn. rewrite Hnil. apply fresh_sets_ok.
  - rewrite (determine_hit_or_miss_setSize _ _ _ _ _ Hd).
    eapply determine_hit_or_miss_Forall; [|exact IH|exact Hd].
    intros s hit s'. apply access_set_ok.
  - destruct (read_line_Some _ _ _ _ Hl) as (hM & c1 & Hd & ->). cbn.
    rewrite (determine_hit_or_miss_setSize _ _ _ _ _ Hd).
    eapply determine_hit_or_miss_Forall; [|exact IH|exact Hd].
    intros s hit s'. apply access_set_ok.
Qed.

(** C8.  Set structural invariant: in every table reachable from an empty
    cache by accesses, every set has the table's set size as its capacity,
    holds at most that many lines, and holds no two lines with the same tag. *)
Theorem set_structural_invariant (c : CacheTable.t) (s : CacheSet.t) :
  reachable c ->
  s ∈ CacheTable.cacheSet_ c ->
  CacheSet.setSize_ s = Int.to_uint (CacheTable.setSize_ c) /\
  Z.of_nat (length (CacheSet.cacheLine_ s)) <= CacheSet.setSize_ s /\
  (0 <= CacheTable.setSize_ c < 2 ^ 32 ->
   Z.of_nat (length (CacheSet.cacheLine_ s)) <= CacheTable.setSize_ c) /\
  NoDup (tags s) /\
  (forall i j li lj,
     CacheSet.cacheLine_ s !! i = Some li -> CacheSet.cacheLine_ s !! j = Some lj ->
     CacheLine.tag_ li = CacheLine.tag_ lj -> i = j).
Proof.
  intros Hr Hs. pose proof (reachable_sets_ok c Hr) as Hall.
  rewrite Forall_forall in Hall. destruct (Hall s Hs) as (Hsz & Hlen & Hnd).
  split_and!; [done|done| |done|].
  - intros Hrange. rewrite Hsz, to_uint_small in Hlen; done.
  - intros i j li lj Hi Hj Heq.
    apply (NoDup_lookup (tags s) i j (CacheLine.tag_ li)); [done|..];
      unfold tags; rewrite list_lookup_fmap.
    + by rewrite Hi.
    + rewrite Hj. cbn. unfold CacheLine.getTag. by rewrite Heq.
Qed.

Lemma set_structural_invariant_witness :
  let c := CacheTable.mk
             [CacheSet.mk 2 0 [CacheLine.mk 9 0; CacheLine.mk 7 1]; CacheSet.mk 2 1 []]
             [] 64 16 2 0 0 0 0 3 0 0 0 in
  let s := CacheSet.mk 2 0 [CacheLine.mk 9 0; CacheLine.mk 7 1] in
  reachable c /\ s ∈ CacheTable.cacheSet_ c /\
  Z.of_nat (length (CacheSet.cacheLine_ s)) <= CacheSet.setSize_ s /\
  NoDup (tags s).
Proof.
  cbn zeta.
  assert (reachable
            (CacheTable.mk
               [CacheSet.mk 2 0 [CacheLine.mk 9 0; CacheLine.mk 7 1];
                CacheSet.mk 2 1 []]
               [] 64 16 2 0 0 0 0 3 0 0 0)) as Hr.
  { eapply (reachable_access _ 0 9 false).
    - eapply (reachable_access _ 0 7 false).
      + eapply (reachable_access _ 0 5 false).
        * apply (reachable_empty
                   (CacheTable.read_cache_config 2 16 64 CacheTable.new) 2).
          reflexivity.
        * reflexivity.
      + reflexivity.
    - reflexivity. }
  assert (CacheSet.mk 2 0 [CacheLine.mk 9 0; CacheLine.mk 7 1] ∈
          [CacheSet.mk 2 0 [CacheLine.mk 9 0; CacheLine.mk 7 1]; CacheSet.mk 2 1 []])
    as Hs.
  { apply elem_of_cons. left. reflexivity. }
  split; [exact Hr|]. split; [exact Hs|].
  destruct (set_structural_invariant _ _ Hr Hs) as (_ & Hlen & _ & Hnd & _).
  split; [exact Hlen | exact Hnd].
Defined.

(** ** Residency after an access *)

Lemma reachable_capacity c :
  reachable c -> 0 < CacheTable.setSize_ c <= Int.INT_MAX ->
  Forall (fun s => 0 < CacheSet.setSize_ s) (CacheTable.cacheSet_ c).
Proof.
  intros Hr Hpos. eapply Forall_impl; [by apply reachable_sets_ok|].
  intros s (Hsz & _). cbn beta. rewrite Hsz, to_uint_small; [lia|].
  unfold Int.INT_MAX in Hpos. lia.
Qed.

(** After an access to a set of positive capacity the tag is resident there,
    and the same access again is a hit. *)
Lemma access_then_resident index tag c s :
  set_at index (CacheTable.cacheSet_ c) = Some s ->
  0 < CacheSet.setSize_ s ->
  exists hM c' s',
    CacheTable.determine_hit_or_miss index tag c = Some (hM, c') /\
    (hM = true <-> tag ∈ tags s) /\
    set_at index (CacheTable.cacheSet_ c') = Some s' /\
    tag ∈ tags s' /\
    forall c1, CacheTable.cacheSet_ c1 = CacheTable.cacheSet_ c' ->
      exists c'', CacheTable.determine_hit_or_miss index tag c1 = Some (true, c'').
Proof.
  intros Hs Hpos.
  destruct (access_set_total tag s Hpos) as [[hit s'] Ha].
  destruct (determine_hit_or_miss_at _ _ _ _ _ _ Hs Ha) as (c' & Hd & _ & Hs').
  destruct (access_set_spec _ _ _ _ Ha) as (Hhit & Hres & _).
  exists hit, c', s'. split_and!; [done..|].
  intros c1 Hc1. destruct (access_set_hit tag s' Hres) as (s'' & Ha' & _).
  rewrite <- Hc1 in Hs'.
  destruct (determine_hit_or_miss_at _ _ _ _ _ _ Hs' Ha') as (c'' & Hd' & _).
  by exists c''.
Qed.

Lemma read_line_geometry refNum ln c c' :
  CacheTable.read_line refNum ln c = Some c' ->
  CacheTable.indexSize_ c' = CacheTable.indexSize_ c /\
  CacheTable.offsetSize_ c' = CacheTable.offsetSize_ c /\
  CacheTable.indexMask_ c' = CacheTable.indexMask_ c /\
  CacheTable.offsetMask_ c' = CacheTable.offsetMask_ c.
Proof.
  intros Hl. destruct (read_line_Some _ _ _ _ Hl) as (hM & c1 & Hd & ->).
  destruct (determine_hit_or_miss_result _ _ _ _ _ Hd) as (sets' & -> & _).
  by destruct hM.
Qed.

(** The tag and the index of a reference depend on its address and on the
    geometry only. *)
Lemma make_mem_ref_same_address refNum refNum' rW rW' size size' address c c' :
  CacheTable.indexSize_ c' = CacheTable.indexSize_ c ->
  CacheTable.offsetSize_ c' = CacheTable.offsetSize_ c ->
  CacheTable.indexMask_ c' = CacheTable.indexMask_ c ->
  CacheTable.offsetMask_ c' = CacheTable.offsetMask_ c ->
  MemRef.getTag (CacheTable.make_mem_ref refNum' (rW', size', address) c') =
    MemRef.getTag (CacheTable.make_mem_ref refNum (rW, size, address) c) /\
  MemRef.getIndex (CacheTable.make_mem_ref refNum' (rW', size', address) c') =
    MemRef.getIndex (CacheTable.make_mem_ref refNum (rW, size, address) c).
Proof.
  intros Hi Ho Him Hom. unfold CacheTable.make_mem_ref, MemRef.getTag, MemRef.getIndex.
  cbn -[Int.to_ulong Int.to_int Z.shiftr Z.land]. by rewrite Hi, Ho, Him.
Qed.

(** C10.  Post-access residency: in a reachable table of positive set size,
    an access whose index names a set completes, reports a hit exactly when
    the tag was resident in that set, and leaves the tag resident there;
    the same access repeated at once is a hit.  The same holds for a line of
    the trace: after it is processed its tag is resident in the set its index
    names, and a next line with the same address is recorded as a hit. *)
Theorem post_access_residency :
  (forall c index tag s,
     reachable c -> 0 < CacheTable.setSize_ c <= Int.INT_MAX ->
     set_at index (CacheTable.cacheSet_ c) = Some s ->
     exists hM c' s',
       CacheTable.determine_hit_or_miss index tag c = Some (hM, c') /\
       (hM = true <-> tag ∈ tags s) /\
       set_at index (CacheTable.cacheSet_ c') = Some s' /\
       tag ∈ tags s' /\
       exists c'', CacheTable.determine_hit_or_miss index tag c' = Some (true, c'')) /\
  (forall c refNum rW size address s,
     reachable c -> 0 < CacheTable.setSize_ c <= Int.INT_MAX ->
     let m := CacheTable.make_mem_ref refNum (rW, size, address) c in
     let index := Int.to_ulong (MemRef.getIndex m) in
     set_at index (CacheTable.cacheSet_ c) = Some s ->
     exists c' s',
       CacheTable.read_line refNum (rW, size, address) c = Some c' /\
       MemRef.hM_ <$> last (CacheTable.memRef_ c') =
         Some (bool_decide (MemRef.getTag m ∈ tags s)) /\
       set_at index (CacheTable.cacheSet_ c') = Some s' /\
       MemRef.getTag m ∈ tags s' /\
       forall refNum' rW' size',
         exists c'',
           CacheTable.read_line refNum' (rW', size', address) c' = Some c'' /\
           MemRef.hM_ <$> last (CacheTable.memRef_ c'') = Some true).
Proof.
  split.
  - intros c index tag s Hr Hpos Hs.
    assert (0 < CacheSet.setSize_ s) as Hcap.
    { pose proof (reachable_capacity c Hr Hpos) as Hall.
      rewrite Forall_forall in Hall. apply Hall. by eapply set_at_elem. }
    destruct (access_then_resident index tag c s Hs Hcap)
      as (hM & c' & s' & Hd & Hhit & Hs' & Hres & Hagain).
    exists hM, c', s'. split_and!; [done..|]. by apply Hagain.
  - intros c refNum rW size address s Hr Hpos m index Hs.
    assert (0 < CacheSet.setSize_ s) as Hcap.
    { pose proof (reachable_capacity c Hr Hpos) as Hall.
      rewrite Forall_forall in Hall. apply Hall. by eapply set_at_elem. }
    destruct (access_then_resident index (MemRef.getTag m) c s Hs Hcap)
      as (hM & c1 & s' & Hd & Hhit & Hs' & Hres & Hagain).
    assert (CacheTable.read_line refNum (rW, size, address) c =
            Some (CacheTable.with_totalAccess
                    (Int.to_int (CacheTable.totalAccess c1 + 1))
                    (CacheTable.with_memRef
                       (CacheTable.memRef_ c1 ++ [MemRef.setHM hM m]) c1))) as Hl.
    { unfold CacheTable.read_line. cbn zeta. fold m. fold index. by rewrite Hd. }
    eexists _, s'. split; [exact Hl|]. split_and!; [|done|done|].
    + cbn. rewrite last_snoc. cbn. f_equal. symmetry.
      destruct hM.
      * apply bool_decide_eq_true. by apply Hhit.
      * apply bool_decide_eq_false. intros Hin. by apply Hhit in Hin.
    + intros refNum' rW' size'.
      destruct (read_line_geometry _ _ _ _ Hl) as (Hi & Ho & Him & Hom).
      destruct (make_mem_ref_same_address refNum refNum' rW rW' size size' address
                  _ _ Hi Ho Him Hom) as [Htag Hidx].
      fold m in Htag, Hidx.
      destruct (Hagain (CacheTable.with_totalAccess
                    (Int.to_int (CacheTable.totalAccess c1 + 1))
                    (CacheTable.with_memRef
                       (CacheTable.memRef_ c1 ++ [MemRef.setHM hM m]) c1)))
        as (c2 & Hd2); [done|].
      unfold CacheTable.read_line at 1. cbn zeta.
      rewrite Htag, Hidx. fold index. rewrite Hd2. cbn.
      eexists. split; [reflexivity|]. cbn. by rewrite last_snoc.
Qed.

Lemma post_access_residency_witness :
  exists hM c' s',
    CacheTable.determine_hit_or_miss 1 10
      (empty_cache 4 (CacheTable.read_cache_config 2 16 128 CacheTable.new))
      = Some (hM, c') /\
    set_at 1 (CacheTable.cacheSet_ c') = Some s' /\
    10 ∈ tags s'.
Proof.
  destruct (proj1 post_access_residency
              (empty_cache 4 (CacheTable.read_cache_config 2 16 128 CacheTable.new))
              1 10 (CacheSet.mk 2 1 []))
    as (hM & c' & s' & Hd & _ & Hs' & Hres & _).
  - apply reachable_empty. reflexivity.
  - cbn. unfold Int.INT_MAX. lia.
  - reflexivity.
  - exists hM, c', s'. split; [exact Hd|]. split; [exact Hs' | exact Hres].
Defined.

(** ** Running totals *)

Lemma capacity_kept tag s hit s' :
  0 < CacheSet.setSize_ s -> access_set tag s = Some (hit, s') ->
  0 < CacheSet.setSize_ s'.
Proof.
  intros Hpos Ha. destruct (access_set_spec _ _ _ _ Ha) as (_ & _ & Hsz & _).
  by rewrite Hsz.
Qed.

(** One line of the trace: [totalAccess] goes up by one and so does exactly
    one of [totalHits] and [totalMiss], the one the recorded outcome names. *)
Lemma read_line_counters refNum ln c :
  Forall (fun s => 0 < CacheSet.setSize_ s) (CacheTable.cacheSet_ c) ->
  - 2 ^ 31 <= CacheTable.totalHits c < Int.INT_MAX ->
  - 2 ^ 31 <= CacheTable.totalMiss c < Int.INT_MAX ->
  - 2 ^ 31 <= CacheTable.totalAccess c < Int.INT_MAX ->
  exists hM c',
    CacheTable.read_line refNum ln c = Some c' /\
    Forall (fun s => 0 < CacheSet.setSize_ s) (CacheTable.cacheSet_ c') /\
    CacheTable.memRef_ c' =
      CacheTable.memRef_ c ++ [MemRef.setHM hM (CacheTable.make_mem_ref refNum ln c)] /\
    CacheTable.totalAccess c' = CacheTable.totalAccess c + 1 /\
    (hM = true /\ CacheTable.totalHits c' = CacheTable.totalHits c + 1 /\
       CacheTable.totalMiss c' = CacheTable.totalMiss c
     \/
     hM = false /\ CacheTable.totalHits c' = CacheTable.totalHits c /\
       CacheTable.totalMiss c' = CacheTable.totalMiss c + 1).
Proof.
  intros Hcap Hh Hm Ha. unfold CacheTable.read_line. cbn zeta.
  set (m := CacheTable.make_mem_ref refNum ln c).
  destruct (determine_hit_or_miss_total (Int.to_ulong (MemRef.getIndex m))
              (MemRef.getTag m) c Hcap) as [[hM c1] Hd].
  rewrite Hd. cbn.
  pose proof (determine_hit_or_miss_Forall _ _ _ _ _ _ (capacity_kept _) Hcap Hd)
    as Hcap1.
  destruct (determine_hit_or_miss_result _ _ _ _ _ Hd) as (sets' & Hc1 & _).
  exists hM. eexists. split; [reflexivity|]. cbn.
  split; [done|]. rewrite Hc1.
  destruct hM; cbn; rewrite !to_int_small by (unfold Int.INT_MAX in *; lia).
  - split_and!; [done..|]. left. done.
  - split_and!; [done..|]. right. done.
Qed.

(** A whole trace, from any reference number. *)
Lemma read_mem_trace_from_counters lines refNum c :
  Forall (fun s => 0 < CacheSet.setSize_ s) (CacheTable.cacheSet_ c) ->
  - 2 ^ 31 <= CacheTable.totalHits c ->
  - 2 ^ 31 <= CacheTable.totalMiss c ->
  - 2 ^ 31 <= CacheTable.totalAccess c ->
  CacheTable.totalHits c + Z.of_nat (length lines) <= Int.INT_MAX ->
  CacheTable.totalMiss c + Z.of_nat (length lines) <= Int.INT_MAX ->
  CacheTable.totalAccess c + Z.of_nat (length lines) <= Int.INT_MAX ->
  exists c',
    CacheTable.read_mem_trace_from refNum lines c = Some c' /\
    Forall (fun s => 0 < CacheSet.setSize_ s) (CacheTable.cacheSet_ c') /\
    CacheTable.totalAccess c' = CacheTable.totalAccess c + Z.of_nat (length lines) /\
    CacheTable.totalHits c <= CacheTable.totalHits c' /\
    CacheTable.totalMiss c <= CacheTable.totalMiss c' /\
    CacheTable.totalHits c' + CacheTable.totalMiss c' =
      CacheTable.totalHits c + CacheTable.totalMiss c + Z.of_nat (length lines).
Proof.
  revert refNum c.
  induction lines as [|ln lines IH]; intros refNum c Hcap Hh Hm Ha Hh' Hm' Ha'.
  - exists c. cbn. split_and!; [done|done|lia..].
  - cbn [length] in *. cbn [CacheTable.read_mem_trace_from].
    destruct (read_line_counters refNum ln c Hcap)
      as (hM & c1 & -> & Hcap1 & _ & Hacc & Hcnt); [lia..|].
    cbn.
    destruct (IH (Int.to_int (refNum + 1)) c1 Hcap1)
      as (c' & -> & Hcap' & Hacc' & Hhits & Hmiss & Hsum); [lia..|].
    exists c'. split_and!; [done|done|lia..].
Qed.

Lemma read_mem_trace_from_app lines1 lines2 refNum c :
  CacheTable.read_mem_trace_from refNum (lines1 ++ lines2) c =
  c1 ← CacheTable.read_mem_trace_from refNum lines1 c;
  CacheTable.read_mem_trace_from (advance (length lines1) refNum) lines2 c1.
Proof.
  revert refNum c. induction lines1 as [|ln lines1 IH]; intros refNum c; [done|].
  cbn [app length CacheTable.read_mem_trace_from].
  destruct (CacheTable.read_line refNum ln c) as [c1|]; cbn; [|done].
  rewrite IH. unfold advance. by rewrite Nat.iter_succ_r.
Qed.

(** The run over a prefix of the trace, with the counters it leaves. *)
Lemma read_mem_trace_prefix lines k c :
  Forall (fun s => 0 < CacheSet.setSize_ s) (CacheTable.cacheSet_ c) ->
  - 2 ^ 31 <= CacheTable.totalHits c ->
  - 2 ^ 31 <= CacheTable.totalMiss c ->
  - 2 ^ 31 <= CacheTable.totalAccess c ->
  CacheTable.totalHits c + Z.of_nat (length lines) <= Int.INT_MAX ->
  CacheTable.totalMiss c + Z.of_nat (length lines) <= Int.INT_MAX ->
  CacheTable.totalAccess c + Z.of_nat (length lines) <= Int.INT_MAX ->
  exists ck,
    CacheTable.read_mem_trace (take k lines) c = Some ck /\
    Forall (fun s => 0 < CacheSet.setSize_ s) (CacheTable.cacheSet_ ck) /\
    CacheTable.totalAccess ck =
      CacheTable.totalAccess c + Z.of_nat (length (take k lines)) /\
    CacheTable.totalHits c <= CacheTable.totalHits ck /\
    CacheTable.totalMiss c <= CacheTable.totalMiss ck /\
    CacheTable.totalHits ck + CacheTable.totalMiss ck =
      CacheTable.totalHits c + CacheTable.totalMiss c +
      Z.of_nat (length (take k lines)).
Proof.
  intros Hcap Hh Hm Ha Hh' Hm' Ha'.
  assert (length (take k lines) <= length lines)%nat
    by (rewrite length_take; lia).
  apply read_mem_trace_from_counters; try done; lia.
Qed.

(** X18.  Relative totals accounting: a trace run on a table whose sets have
    positive capacity, short enough for the [int] counters, completes with
    [totalAccess] increased by the number of references and
    [totalHits + totalMiss] increased by the same number, so that
    [totalHits + totalMiss = totalAccess] holds after the run when it held
    before (in particular from zeroed counters).  The reference at position
    [k] increments [totalAccess] by exactly one and exactly one of [totalHits]
    and [totalMiss], the one its recorded outcome names; and from any prefix
    of the trace to any longer one no counter decreases. *)
Theorem totals_accounting (lines : list CacheTable.line) (c : CacheTable.t) :
  Forall (fun s => 0 < CacheSet.setSize_ s) (CacheTable.cacheSet_ c) ->
  - 2 ^ 31 <= CacheTable.totalHits c ->
  - 2 ^ 31 <= CacheTable.totalMiss c ->
  - 2 ^ 31 <= CacheTable.totalAccess c ->
  CacheTable.totalHits c + Z.of_nat (length lines) <= Int.INT_MAX ->
  CacheTable.totalMiss c + Z.of_nat (length lines) <= Int.INT_MAX ->
  CacheTable.totalAccess c + Z.of_nat (length lines) <= Int.INT_MAX ->
  exists c',
    CacheTable.read_mem_trace lines c = Some c' /\
    CacheTable.totalAccess c' = CacheTable.totalAccess c + Z.of_nat (length lines) /\
    CacheTable.totalHits c' + CacheTable.totalMiss c' =
      CacheTable.totalHits c + CacheTable.totalMiss c + Z.of_nat (length lines) /\
    (CacheTable.totalHits c + CacheTable.totalMiss c = CacheTable.totalAccess c ->
     CacheTable.totalHits c' + CacheTable.totalMiss c' = CacheTable.totalAccess c') /\
    (forall k ln, lines !! k = Some ln ->
       exists ck ck' hM,
         CacheTable.read_mem_trace (take k lines) c = Some ck /\
         CacheTable.read_mem_trace (take (S k) lines) c = Some ck' /\
         CacheTable.read_line (advance k 0) ln ck = Some ck' /\
         CacheTable.memRef_ ck' =
           CacheTable.memRef_ ck ++
           [MemRef.setHM hM (CacheTable.make_mem_ref (advance k 0) ln ck)] /\
         CacheTable.totalAccess ck' = CacheTable.totalAccess ck + 1 /\
         (hM = true /\ CacheTable.totalHits ck' = CacheTable.totalHits ck + 1 /\
            CacheTable.totalMiss ck' = CacheTable.totalMiss ck
          \/
          hM = false /\ CacheTable.totalHits ck' = CacheTable.totalHits ck /\
            CacheTable.totalMiss ck' = CacheTable.totalMiss ck + 1)) /\
    (forall j k, (j <= k)%nat ->
       exists cj ck,
         CacheTable.read_mem_trace (take j lines) c = Some cj /\
         CacheTable.read_mem_trace (take k lines) c = Some ck /\
         CacheTable.totalAccess cj <= CacheTable.totalAccess ck /\
         CacheTable.totalHits cj <= CacheTable.totalHits ck /\
         CacheTable.totalMiss cj <= CacheTable.totalMiss ck).
Proof.
  intros Hcap Hh Hm Ha Hh' Hm' Ha'.
  destruct (read_mem_trace_from_counters lines 0 c)
    as (c' & Hrun & _ & Hacc & _ & _ & Hsum); try done.
  exists c'. split_and!; [done|done|done|lia| |].
  - intros k ln Hk.
    pose proof (lookup_lt_Some _ _ _ Hk) as Hlt.
    destruct (read_mem_trace_prefix lines k c)
      as (ck & Hck & Hcapk & Hacck & Hhk & Hmk & Hsumk); try done.
    rewrite length_take_le in Hacck, Hsumk by lia.
    destruct (read_line_counters (advance k 0) ln ck Hcapk)
      as (hM & ck' & Hl & _ & Hrefs & Hstep & Hcnt);
      [unfold Int.INT_MAX in *; lia..|].
    exists ck, ck', hM. split_and!; try done.
    rewrite (take_S_r _ _ _ Hk). unfold CacheTable.read_mem_trace in *.
    rewrite read_mem_trace_from_app, Hck. cbn.
    rewrite length_take_le by lia. by rewrite Hl.
  - intros j k Hjk.
    destruct (read_mem_trace_prefix lines j c)
      as (cj & Hcj & Hcapj & Haccj & Hhj & Hmj & Hsumj); try done.
    assert (take k lines = take j lines ++ drop j (take k lines)) as Hsplit.
    { rewrite <- (take_drop j (take k lines)) at 1.
      by rewrite take_take, Nat.min_l by lia. }
    assert (length (take j lines) + length (drop j (take k lines)) <= length lines)%nat
      as Hlen.
    { rewrite <- length_app, <- Hsplit, length_take. lia. }
    destruct (read_mem_trace_from_counters (drop j (take k lines))
                (advance (length (take j lines)) 0) cj)
      as (ck & Hck & _ & Hacck & Hhk & Hmk & _); try done; try lia.
    exists cj, ck. split_and!; [done| |lia|done|done].
    rewrite Hsplit. unfold CacheTable.read_mem_trace in *.
    rewrite read_mem_trace_from_app, Hcj. cbn. done.
Qed.

Lemma totals_accounting_witness :
  exists c',
    CacheTable.read_mem_trace [(READ, 4, 0); (READ, 4, 16); (WRITE, 4, 0)]
      (CacheTable.mk [CacheSet.mk 1 0 []; CacheSet.mk 1 1 []; CacheSet.mk 1 2 [];
                      CacheSet.mk 1 3 []]
                     [] 64 16 1 4 2 4 0 0 0 15 48) = Some c' /\
    CacheTable.totalHits c' + CacheTable.totalMiss c' = CacheTable.totalAccess c'.
Proof.
  destruct (totals_accounting [(READ, 4, 0); (READ, 4, 16); (WRITE, 4, 0)]
      (CacheTable.mk [CacheSet.mk 1 0 []; CacheSet.mk 1 1 []; CacheSet.mk 1 2 [];
                      CacheSet.mk 1 3 []]
                     [] 64 16 1 4 2 4 0 0 0 15 48))
    as (c' & Hrun & _ & _ & Heq & _).
  - repeat constructor.
  - cbn. lia.
  - cbn. lia.
  - cbn. lia.
  - cbn. unfold Int.INT_MAX. lia.
  - cbn. unfold Int.INT_MAX. lia.
  - cbn. unfold Int.INT_MAX. lia.
  - exists c'. split; [exact Hrun|]. apply Heq. reflexivity.
Defined.

(** C6.  The counters start unset: [CacheTable(){}] gives [totalHits],
    [totalMiss] and [totalAccess] no value and the run only increments them,
    so the totals after a run are the counts of the run added to whatever the
    members held.  In a table whose [totalHits] holds 7 and whose two other
    counters hold 0 when it is created, the configuration 1/16/64 and the
    trace of three references to the addresses 0, 16 and 0 (miss, miss, hit)
    end with [totalHits = 8], [totalMiss = 2] and [totalAccess = 3]: hits
    plus misses is not the number of accesses. *)
Theorem totals_from_unset_counters :
  exists c c',
    CacheTable.configure 1 16 64 (CacheTable.mk [] [] 0 0 0 0 0 0 7 0 0 0 0) = Some c /\
    CacheTable.read_mem_trace [(READ, 4, 0); (READ, 4, 16); (WRITE, 4, 0)] c = Some c' /\
    MemRef.hM_ <$> CacheTable.memRef_ c' = [false; false; true] /\
    CacheTable.totalHits c' = 8 /\
    CacheTable.totalMiss c' = 2 /\
    CacheTable.totalAccess c' = 3 /\
    CacheTable.totalHits c' + CacheTable.totalMiss c' <> CacheTable.totalAccess c'.
Proof.
  exists (CacheTable.mk [CacheSet.mk 1 0 []; CacheSet.mk 1 1 []; CacheSet.mk 1 2 [];
                         CacheSet.mk 1 3 []]
                        [] 64 16 1 4 2 4 7 0 0 15 48).
  remember (CacheTable.read_mem_trace _ _) as r eqn:Hr. vm_compute in Hr. subst r.
  eexists. split; [vm_compute; reflexivity|]. split; [reflexivity|].
  cbn. split_and!; [reflexivity..|lia].
Qed.

(** * Further properties *)

(** ** Lookup and direct-mapped sets *)

(** X1.  The outcome of a lookup: [check_cache_lines] reports a miss exactly
    when no line carries the tag, and then leaves the set as it was, recency
    values included; it reports a hit exactly when a line carries the tag. *)
Theorem lookup_outcome (tag : Z) (s : CacheSet.t) :
  (tag ∉ tags s <-> CacheSet.check_cache_lines tag s = (false, s)) /\
  (tag ∈ tags s <-> (CacheSet.check_cache_lines tag s).1 = true).
Proof.
  split; split.
  - apply check_cache_lines_miss.
  - intros Hc. by apply check_cache_lines_false in Hc as [_ Hnot].
  - intros Hin. destruct (check_cache_lines_hit tag s Hin) as (s' & ->). done.
  - intros Hc. destruct (decide (tag ∈ tags s)) as [|Hnot]; [done|].
    by rewrite check_cache_lines_miss in Hc.
Qed.

(** X2.  Direct-mapped sets: a set of capacity 1 holds, after any access,
    exactly the accessed tag with recency 0, whatever it held before; the
    access is a hit only when the set held that very tag. *)
Theorem direct_mapped_access (index tag : Z) (c : CacheTable.t) (s : CacheSet.t) :
  set_at index (CacheTable.cacheSet_ c) = Some s ->
  CacheSet.setSize_ s = 1 ->
  (length (CacheSet.cacheLine_ s) <= 1)%nat ->
  exists hM c' s',
    CacheTable.determine_hit_or_miss index tag c = Some (hM, c') /\
    set_at index (CacheTable.cacheSet_ c') = Some s' /\
    CacheSet.cacheLine_ s' = [CacheLine.mk tag 0] /\
    (hM = true <-> tags s = [tag]).
Proof.
  intros Hs Hsz Hlen. destruct s as [sz idx ls]. cbn in Hsz, Hlen. subst sz.
  destruct ls as [|[t r] [|l2 ls]]; [| |cbn in Hlen; lia].
  - destruct (determine_hit_or_miss_at index tag c _ false
                (CacheSet.mk 1 idx [CacheLine.mk tag 0]) Hs) as (c' & Hd & _ & Hs');
      [done|].
    exists false, c', (CacheSet.mk 1 idx [CacheLine.mk tag 0]).
    split_and!; [done..|]. by split.
  - destruct (Z.eqb_spec tag t) as [->|Hne].
    + destruct (determine_hit_or_miss_at index t c _ true
                  (CacheSet.mk 1 idx [CacheLine.mk t 0]) Hs) as (c' & Hd & _ & Hs').
      { unfold access_set, CacheSet.check_cache_lines. cbn. by rewrite Z.eqb_refl. }
      exists true, c', (CacheSet.mk 1 idx [CacheLine.mk t 0]).
      split_and!; [done..|]. by split.
    + destruct (determine_hit_or_miss_at index tag c _ false
                  (CacheSet.mk 1 idx [CacheLine.mk tag 0]) Hs) as (c' & Hd & _ & Hs').
      { unfold access_set, CacheSet.check_cache_lines. cbn.
        replace (tag =? t) with false by (symmetry; by apply Z.eqb_neq).
        unfold CacheSet.update_cache_lines, CacheSet.find_LRU. cbn.
        destruct (r <? r); reflexivity. }
      exists false, c', (CacheSet.mk 1 idx [CacheLine.mk tag 0]).
      split_and!; [done..|]. split; [done|].
      unfold tags. cbn. intros [= ->]. done.
Qed.

Lemma direct_mapped_access_witness :
  exists hM c' s',
    CacheTable.determine_hit_or_miss 1 9
      (CacheTable.mk [CacheSet.mk 1 0 []; CacheSet.mk 1 1 [CacheLine.mk 5 3]] []
                     32 16 1 2 1 4 0 0 0 15 16) = Some (hM, c') /\
    set_at 1 (CacheTable.cacheSet_ c') = Some s' /\
    CacheSet.cacheLine_ s' = [CacheLine.mk 9 0].
Proof.
  destruct (direct_mapped_access 1 9
      (CacheTable.mk [CacheSet.mk 1 0 []; CacheSet.mk 1 1 [CacheLine.mk 5 3]] []
                     32 16 1 2 1 4 0 0 0 15 16)
      (CacheSet.mk 1 1 [CacheLine.mk 5 3]))
    as (hM & c' & s' & Hd & Hs' & Hl & _).
  - reflexivity.
  - reflexivity.
  - cbn. lia.
  - exists hM, c', s'. split; [exact Hd|]. split; [exact Hs' | exact Hl].
Defined.

(** ** What an access leaves alone *)

Lemma put_set_lookup_other index s' sets i s :
  sets !! i = Some s -> CacheSet.getIndex s <> index ->
  put_set index s' sets !! i = Some s.
Proof.
  revert i. induction sets as [|s0 rest IH]; intros i Hi Hne; [done|]. cbn.
  destruct (Z.eqb_spec index (CacheSet.getIndex s0)) as [Heq|Hne0].
  - destruct i as [|i]; cbn in *; [|done]. injection Hi as ->. done.
  - destruct i as [|i]; cbn in *; [done|]. by apply IH.
Qed.

Lemma put_set_fmap {A} (f : CacheSet.t -> A) index s s' sets :
  set_at index sets = Some s -> f s' = f s ->
  f <$> put_set index s' sets = f <$> sets.
Proof.
  intros Hs Hf. induction sets as [|s0 rest IH]; cbn in *; [done|].
  destruct (index =? CacheSet.getIndex s0); cbn.
  - injection Hs as ->. by rewrite Hf.
  - by rewrite IH.
Qed.

Lemma same_geometry_refl c : same_geometry c c.
Proof. by unfold same_geometry. Qed.

Lemma same_geometry_trans c1 c2 c3 :
  same_geometry c1 c2 -> same_geometry c2 c3 -> same_geometry c1 c3.
Proof. unfold same_geometry. intros H1 H2. split_and!; by etrans; [apply H2|apply H1]. Qed.

(** The frame of one access, for use below. *)
Lemma determine_hit_or_miss_frame index tag c hM c' :
  CacheTable.determine_hit_or_miss index tag c = Some (hM, c') ->
  same_geometry c c' /\
  CacheTable.memRef_ c' = CacheTable.memRef_ c /\
  CacheTable.totalAccess c' = CacheTable.totalAccess c /\
  CacheSet.getIndex <$> CacheTable.cacheSet_ c' =
    CacheSet.getIndex <$> CacheTable.cacheSet_ c /\
  CacheSet.setSize_ <$> CacheTable.cacheSet_ c' =
    CacheSet.setSize_ <$> CacheTable.cacheSet_ c /\
  (forall i s, CacheTable.cacheSet_ c !! i = Some s -> CacheSet.getIndex s <> index ->
     CacheTable.cacheSet_ c' !! i = Some s) /\
  (forall index', index' <> index ->
     set_at index' (CacheTable.cacheSet_ c') = set_at index' (CacheTable.cacheSet_ c)).
Proof.
  intros Hd.
  destruct (determine_hit_or_miss_result _ _ _ _ _ Hd) as (sets' & -> & Hsets).
  assert (CacheTable.cacheSet_ (count hM (CacheTable.with_cacheSet sets' c)) = sets')
    as -> by (by destruct hM).
  split; [by destruct hM|]. split; [by destruct hM|]. split; [by destruct hM|].
  destruct (set_at index (CacheTable.cacheSet_ c)) as [s|] eqn:Hs.
  - destruct Hsets as (s' & Ha & ->).
    destruct (access_set_spec _ _ _ _ Ha) as (_ & _ & Hsz & Hidx & _).
    split_and!.
    + by apply (put_set_fmap _ _ s).
    + by apply (put_set_fmap _ _ s).
    + intros i s0 Hi Hne. by apply put_set_lookup_other.
    + intros index' Hne. apply set_at_put_other; [|done].
      unfold CacheSet.getIndex. rewrite Hidx. by apply set_at_index in Hs.
  - destruct Hsets as [_ ->]. done.
Qed.

(** A set behind the first one that carries the index is not the one
    [put_set] replaces. *)
Lemma put_set_lookup_later index s' sets i j s0 :
  (j < i)%nat -> sets !! j = Some s0 -> CacheSet.getIndex s0 = index ->
  put_set index s' sets !! i = sets !! i.
Proof.
  revert i j. induction sets as [|s rest IH]; intros i j Hji Hj Hidx; [done|].
  cbn. destruct (Z.eqb_spec index (CacheSet.getIndex s)) as [Heq|Hne].
  - destruct i as [|i]; [lia|done].
  - destruct j as [|j]; cbn in Hj.
    + injection Hj as ->. congruence.
    + destruct i as [|i]; [lia|]. cbn. apply (IH i j); [lia|done..].
Qed.

(** X3.  The frame of an access: [determine_hit_or_miss] changes nothing but
    the first set that carries its index and one of the two counters.  On a
    hit [totalHits] is incremented and [totalMiss] keeps its value, on a miss
    [totalMiss] is incremented and [totalHits] keeps its value.  The
    geometry, the recorded references and [totalAccess] are unchanged, the
    sets keep their number, indexes and capacities, every set carrying
    another index and every set behind the first one that carries the index
    is identical afterwards, and every other index names the same set as
    before. *)
Theorem access_frame (index tag : Z) (c c' : CacheTable.t) (hM : bool) :
  CacheTable.determine_hit_or_miss index tag c = Some (hM, c') ->
  same_geometry c c' /\
  CacheTable.memRef_ c' = CacheTable.memRef_ c /\
  CacheTable.totalAccess c' = CacheTable.totalAccess c /\
  length (CacheTable.cacheSet_ c') = length (CacheTable.cacheSet_ c) /\
  CacheSet.getIndex <$> CacheTable.cacheSet_ c' =
    CacheSet.getIndex <$> CacheTable.cacheSet_ c /\
  CacheSet.setSize_ <$> CacheTable.cacheSet_ c' =
    CacheSet.setSize_ <$> CacheTable.cacheSet_ c /\
  (forall i s, CacheTable.cacheSet_ c !! i = Some s -> CacheSet.getIndex s <> index ->
     CacheTable.cacheSet_ c' !! i = Some s) /\
  (forall index', index' <> index ->
     set_at index' (CacheTable.cacheSet_ c') = set_at index' (CacheTable.cacheSet_ c)) /\
  (forall i j s0, (j < i)%nat ->
     CacheTable.cacheSet_ c !! j = Some s0 -> CacheSet.getIndex s0 = index ->
     CacheTable.cacheSet_ c' !! i = CacheTable.cacheSet_ c !! i) /\
  (hM = true ->
     CacheTable.totalHits c' = Int.to_int (CacheTable.totalHits c + 1) /\
     CacheTable.totalMiss c' = CacheTable.totalMiss c) /\
  (hM = false ->
     CacheTable.totalMiss c' = Int.to_int (CacheTable.totalMiss c + 1) /\
     CacheTable.totalHits c' = CacheTable.totalHits c).
Proof.
  intros Hd.
  destruct (determine_hit_or_miss_frame _ _ _ _ _ Hd)
    as (Hg & Hm & Ha & Hidx & Hsz & Hpos & Hat).
  destruct (determine_hit_or_miss_result _ _ _ _ _ Hd) as (sets' & Hc' & Hsets).
  assert (CacheTable.cacheSet_ c' = sets') as Hcs by (subst c'; by destruct hM).
  split_and!; try done.
  - by rewrite <- (length_fmap CacheSet.getIndex), Hidx, length_fmap.
  - intros i j s0 Hji Hj Hs0. rewrite Hcs.
    destruct (set_at index (CacheTable.cacheSet_ c)) as [s|].
    + destruct Hsets as (s' & _ & ->). by apply (put_set_lookup_later _ _ _ i j s0).
    + by destruct Hsets as [_ ->].
  - intros ->. by subst c'.
  - intros ->. by subst c'.
Qed.

Lemma access_frame_witness :
  CacheTable.determine_hit_or_miss 0 9
    (CacheTable.mk [CacheSet.mk 1 0 []; CacheSet.mk 1 1 [CacheLine.mk 5 3]] []
                   32 16 1 2 1 4 0 0 0 15 16)
  = Some (false,
          CacheTable.mk
            [CacheSet.mk 1 0 [CacheLine.mk 9 0]; CacheSet.mk 1 1 [CacheLine.mk 5 3]]
            [] 32 16 1 2 1 4 0 1 0 15 16) /\
  CacheTable.cacheSet_
    (CacheTable.mk
       [CacheSet.mk 1 0 [CacheLine.mk 9 0]; CacheSet.mk 1 1 [CacheLine.mk 5 3]]
       [] 32 16 1 2 1 4 0 1 0 15 16) !! 1%nat
  = Some (CacheSet.mk 1 1 [CacheLine.mk 5 3]).
Proof.
  split; [reflexivity|].
  refine (proj1 (proj2 (proj2 (proj2 (proj2 (proj2 (proj2
    (access_frame 0 9
       (CacheTable.mk [CacheSet.mk 1 0 []; CacheSet.mk 1 1 [CacheLine.mk 5 3]] []
                      32 16 1 2 1 4 0 0 0 15 16)
       _ false eq_refl))))))) 1%nat _ eq_refl _).
  cbn. lia.
Defined.

(** ** The numbering of the sets *)

Lemma set_at_is_Some index sets :
  is_Some (set_at index sets) <-> index ∈ CacheSet.getIndex <$> sets.
Proof.
  induction sets as [|s rest IH]; cbn.
  - split; [by intros [? ?]|by intros ?%elem_of_nil].
  - rewrite elem_of_cons. destruct (Z.eqb_spec index (CacheSet.getIndex s)).
    + split; [by left|done].
    + rewrite IH. split; [by right|by intros [?|?]].
Qed.

Lemma fresh_sets_lookup setSize n i :
  imap (fun indexSetter s => CacheSet.setIndex (Z.of_nat indexSetter) s)
       (replicate n (CacheSet.new setSize)) !! i =
  if decide (i < n)%nat
  then Some (CacheSet.mk (Int.to_uint setSize) (Int.to_uint (Z.of_nat i)) [])
  else None.
Proof.
  rewrite list_lookup_imap. case_decide as Hi.
  - by rewrite lookup_replicate_2.
  - rewrite (proj1 (lookup_replicate_None _ _ _)); [done|lia].
Qed.

Lemma fresh_sets_indices setSize n :
  (Z.of_nat n <= 2 ^ 32) ->
  CacheSet.getIndex <$>
    imap (fun indexSetter s => CacheSet.setIndex (Z.of_nat indexSetter) s)
         (replicate n (CacheSet.new setSize)) =
  Z.of_nat <$> seq 0 n.
Proof.
  intros Hn. apply list_eq. intros i.
  rewrite !list_lookup_fmap, fresh_sets_lookup. case_decide as Hi.
  - rewrite lookup_seq_lt by done. cbn. rewrite to_uint_small; [done|lia].
  - by rewrite lookup_seq_ge by lia.
Qed.

Lemma fresh_sets_capacities setSize n :
  CacheSet.setSize_ <$>
    imap (fun indexSetter s => CacheSet.setIndex (Z.of_nat indexSetter) s)
         (replicate n (CacheSet.new setSize)) =
  replicate n (Int.to_uint setSize).
Proof.
  apply list_eq. intros i.
  rewrite list_lookup_fmap, fresh_sets_lookup. case_decide as Hi.
  - by rewrite lookup_replicate_2.
  - symmetry. apply lookup_replicate_None. lia.
Qed.

Lemma elem_of_numbering (n : nat) (index : Z) :
  index ∈ Z.of_nat <$> seq 0 n <-> 0 <= index < Z.of_nat n.
Proof.
  rewrite list_elem_of_fmap. split.
  - intros (i & -> & Hi%elem_of_seq). lia.
  - intros Hi. exists (Z.to_nat index). rewrite elem_of_seq. lia.
Qed.

(** X4.  The numbering of the sets: after [create_cache_sets] and
    [set_index_for_cache_sets] on a table without sets, for a number of sets
    up to 2^32, every index from 0 below that number names a set, which is
    empty, has the table's set size as capacity and that index; no other
    index names a set. *)
Theorem empty_cache_numbering (c : CacheTable.t) (numberOfSets index : Z) :
  CacheTable.cacheSet_ c = [] ->
  numberOfSets <= 2 ^ 32 ->
  length (CacheTable.cacheSet_ (empty_cache numberOfSets c)) = Z.to_nat numberOfSets /\
  set_at index (CacheTable.cacheSet_ (empty_cache numberOfSets c)) =
    if (0 <=? index) && (index <? numberOfSets)
    then Some (CacheSet.mk (Int.to_uint (CacheTable.setSize_ c)) index [])
    else None.
Proof.
  intros Hnil Hn. cbn. rewrite Hnil. cbn [app].
  split; [by rewrite length_imap, length_replicate|].
  set (sets := imap _ _).
  assert (Z.of_nat (Z.to_nat numberOfSets) <= 2 ^ 32) as Hn' by lia.
  pose proof (fresh_sets_indices (CacheTable.setSize_ c) _ Hn') as Hidx.
  fold sets in Hidx.
  pose proof (set_at_is_Some index sets) as Hsome.
  rewrite Hidx, elem_of_numbering in Hsome.
  destruct (set_at index sets) as [s|] eqn:Hs.
  - assert (0 <= index < Z.of_nat (Z.to_nat numberOfSets)) as Hrange
      by (by apply Hsome).
    replace (0 <=? index) with true by (symmetry; apply Z.leb_le; lia).
    replace (index <? numberOfSets) with true by (symmetry; apply Z.ltb_lt; lia).
    cbn. f_equal.
    pose proof (set_at_index _ _ _ Hs) as Hi.
    apply set_at_elem, list_elem_of_lookup in Hs as [j Hj].
    unfold sets in Hj. rewrite fresh_sets_lookup in Hj.
    case_decide; [|done]. injection Hj as <-. cbn in Hi. by rewrite Hi.
  - destruct (Z.leb_spec 0 index), (Z.ltb_spec index numberOfSets); cbn; try done.
    destruct Hsome as [_ Hsome]. destruct Hsome as [? ?]; [lia|done].
Qed.

Lemma empty_cache_numbering_witness :
  set_at 2 (CacheTable.cacheSet_
              (empty_cache 4 (CacheTable.read_cache_config 2 16 128 CacheTable.new)))
  = Some (CacheSet.mk 2 2 []).
Proof.
  refine (proj2 (empty_cache_numbering
                   (CacheTable.read_cache_config 2 16 128 CacheTable.new) 4 2 _ _)).
  - reflexivity.
  - lia.
Defined.

(** ** Runs that [main] has configured *)

Lemma valid_sizes setSize lineSize totalCacheSize :
  0 < setSize -> 0 < lineSize -> totalCacheSize <= Int.INT_MAX ->
  0 < (totalCacheSize ÷ lineSize) ÷ setSize ->
  let n := (totalCacheSize ÷ lineSize) ÷ setSize in
  setSize <= Int.INT_MAX /\ n <= Int.INT_MAX /\
  n * setSize * lineSize <= totalCacheSize /\
  2 ^ Z.log2 n <= n /\ 2 ^ Z.log2 lineSize <= lineSize /\
  0 <= Z.log2 lineSize /\ 0 <= Z.log2 n /\ Z.log2 n + Z.log2 lineSize <= 30.
Proof.
  intros HS HL HT Hn. cbn zeta.
  destruct (derived_sizes_small _ _ _ HL HS HT Hn) as (Ho & Hi & Hio).
  destruct (number_of_sets_le _ _ _ HL HS Hn) as [HT0 _].
  destruct (Z.log2_spec _ Hn) as [Hn2 _].
  destruct (Z.log2_spec _ HL) as [HL2 _].
  revert Hn Hi Hio Hn2.
  rewrite (Z.quot_div_nonneg totalCacheSize) by lia.
  assert (0 <= totalCacheSize / lineSize) by (apply Z.div_pos; lia).
  rewrite Z.quot_div_nonneg by lia.
  set (q := totalCacheSize / lineSize) in *. set (n := q / setSize).
  intros Hn Hi Hio Hn2.
  assert (setSize * n <= q) by (apply Z.mul_div_le; lia).
  assert (lineSize * q <= totalCacheSize) by (apply Z.mul_div_le; lia).
  split_and!; try done; nia.
Qed.

(** Sizes that leave room for one set are the ones [configure] completes
    on: the set size times the line size is at most the total size. *)
Lemma configure_room c0 setSize lineSize totalCacheSize :
  0 < setSize -> 0 < lineSize -> setSize * lineSize <= totalCacheSize ->
  0 < (totalCacheSize ÷ lineSize) ÷ setSize /\
  CacheTable.configure setSize lineSize totalCacheSize c0 =
    Some (configured setSize lineSize totalCacheSize
            ((totalCacheSize ÷ lineSize) ÷ setSize) c0).
Proof.
  intros HS HL Hroom.
  assert (0 < totalCacheSize ÷ lineSize ÷ setSize) as Hn.
  { rewrite (Z.quot_div_nonneg totalCacheSize) by nia.
    assert (setSize <= totalCacheSize / lineSize)
      by (apply Z.div_le_lower_bound; nia).
    rewrite Z.quot_div_nonneg by lia.
    apply Z.div_str_pos; lia. }
  split; [done|].
  rewrite configure_eq. cbn zeta. unfold derived_number_of_sets.
  replace (lineSize =? 0) with false by (symmetry; apply Z.eqb_neq; lia).
  replace (setSize =? 0) with false by (symmetry; apply Z.eqb_neq; lia).
  cbn [negb andb].
  replace (0 <? totalCacheSize ÷ lineSize ÷ setSize) with true
    by (symmetry; by apply Z.ltb_lt).
  replace (0 <? lineSize) with true by (symmetry; by apply Z.ltb_lt).
  done.
Qed.

Lemma configure_derived_state c0 c setSize lineSize totalCacheSize :
  CacheTable.cacheSet_ c0 = [] ->
  0 < setSize -> 0 < lineSize -> totalCacheSize <= Int.INT_MAX ->
  CacheTable.configure setSize lineSize totalCacheSize c0 = Some c ->
  0 < (totalCacheSize ÷ lineSize) ÷ setSize /\
  derived_state setSize lineSize totalCacheSize c /\
  Forall (fun s => CacheSet.cacheLine_ s = []) (CacheTable.cacheSet_ c).
Proof.
  intros Hnil HS HL HT Hc.
  destruct (configure_valid _ _ _ _ _ HS HL Hc) as [Hn ->].
  destruct (valid_sizes _ _ _ HS HL HT Hn) as (HSmax & Hnmax & _).
  unfold Int.INT_MAX in *.
  split; [done|]. split.
  - unfold derived_state. cbn. rewrite Hnil. cbn [app].
    split_and!; try done.
    + apply fresh_sets_indices. lia.
    + rewrite fresh_sets_capacities, to_uint_small; [done|lia].
  - cbn. rewrite Hnil. cbn [app]. apply Forall_lookup. intros i s.
    rewrite fresh_sets_lookup. case_decide; [|done]. by intros [= <-].
Qed.

Lemma read_line_frame refNum ln c c' :
  CacheTable.read_line refNum ln c = Some c' ->
  let m := CacheTable.make_mem_ref refNum ln c in
  same_geometry c c' /\
  CacheSet.getIndex <$> CacheTable.cacheSet_ c' =
    CacheSet.getIndex <$> CacheTable.cacheSet_ c /\
  CacheSet.setSize_ <$> CacheTable.cacheSet_ c' =
    CacheSet.setSize_ <$> CacheTable.cacheSet_ c /\
  (forall i s, CacheTable.cacheSet_ c !! i = Some s ->
     CacheSet.getIndex s <> Int.to_ulong (MemRef.getIndex m) ->
     CacheTable.cacheSet_ c' !! i = Some s).
Proof.
  intros Hl m. destruct (read_line_Some _ _ _ _ Hl) as (hM & c1 & Hd & ->).
  destruct (determine_hit_or_miss_frame _ _ _ _ _ Hd)
    as (Hg & _ & _ & Hidx & Hsz & Hpos & _).
  done.
Qed.

Lemma derived_state_same_geometry setSize lineSize totalCacheSize c c' :
  derived_state setSize lineSize totalCacheSize c ->
  same_geometry c c' ->
  CacheSet.getIndex <$> CacheTable.cacheSet_ c' =
    CacheSet.getIndex <$> CacheTable.cacheSet_ c ->
  CacheSet.setSize_ <$> CacheTable.cacheSet_ c' =
    CacheSet.setSize_ <$> CacheTable.cacheSet_ c ->
  derived_state setSize lineSize totalCacheSize c'.
Proof.
  unfold derived_state, same_geometry. cbn zeta.
  intros (H1 & H2 & H3 & H4 & H5 & H6 & H7 & H8 & H9 & H10)
         (G1 & G2 & G3 & G4 & G5 & G6 & G7 & G8) Hidx Hsz.
  split_and!; congruence.
Qed.

Lemma read_line_derived_state setSize lineSize totalCacheSize refNum ln c c' :
  derived_state setSize lineSize totalCacheSize c ->
  CacheTable.read_line refNum ln c = Some c' ->
  derived_state setSize lineSize totalCacheSize c'.
Proof.
  intros Hst Hl. destruct (read_line_frame _ _ _ _ Hl) as (Hg & Hidx & Hsz & _).
  by eapply derived_state_same_geometry.
Qed.

Lemma read_mem_trace_from_derived_state setSize lineSize totalCacheSize lines :
  forall refNum c c',
  derived_state setSize lineSize totalCacheSize c ->
  CacheTable.read_mem_trace_from refNum lines c = Some c' ->
  derived_state setSize lineSize totalCacheSize c'.
Proof.
  induction lines as [|ln lines IH]; intros refNum c c' Hst Hrun; cbn in Hrun.
  - by injection Hrun as <-.
  - destruct (CacheTable.read_line refNum ln c) as [c1|] eqn:Hl; [|done].
    cbn in Hrun. eapply IH; [|exact Hrun]. by eapply read_line_derived_state.
Qed.

Lemma read_mem_trace_from_reachable lines :
  forall refNum c c',
  reachable c -> CacheTable.read_mem_trace_from refNum lines c = Some c' ->
  reachable c'.
Proof.
  induction lines as [|ln lines IH]; intros refNum c c' Hr Hrun; cbn in Hrun.
  - by injection Hrun as <-.
  - destruct (CacheTable.read_line refNum ln c) as [c1|] eqn:Hl; [|done].
    cbn in Hrun. eapply IH; [|exact Hrun]. by eapply reachable_line.
Qed.

(** The three fields of a reference in the derived geometry. *)
Lemma derived_decomposition setSize lineSize totalCacheSize c refNum rW size address :
  0 < setSize -> 0 < lineSize -> totalCacheSize <= Int.INT_MAX ->
  0 < (totalCacheSize ÷ lineSize) ÷ setSize ->
  derived_state setSize lineSize totalCacheSize c ->
  let n := (totalCacheSize ÷ lineSize) ÷ setSize in
  let m := CacheTable.make_mem_ref refNum (rW, size, address) c in
  MemRef.tag_ m = Z.shiftr address (Z.log2 n + Z.log2 lineSize) /\
  MemRef.index_ m = Z.shiftr address (Z.log2 lineSize) mod 2 ^ Z.log2 n /\
  MemRef.offset_ m = address mod 2 ^ Z.log2 lineSize.
Proof.
  intros HS HL HT Hn (_ & _ & _ & _ & Hi & Ho & Hom & Him & _) n m.
  destruct (valid_sizes _ _ _ HS HL HT Hn) as (_ & _ & _ & _ & _ & Ho0 & Hi0 & Hio).
  fold n in Hi, Him, Hi0, Hio.
  unfold m, CacheTable.make_mem_ref.
  cbn -[Z.pow Z.shiftr Z.land Z.log2 Int.to_ulong].
  rewrite Hi, Ho, Hom, Him.
  rewrite (to_ulong_small (Z.log2 n)), (to_ulong_small (Z.log2 lineSize)),
    to_ulong_small by lia.
  split_and!; [done| |].
  - apply (index_field _ _ Ho0 Hi0).
  - apply (offset_field _ Ho0).
Qed.

(** In the derived geometry the index of a reference names a set. *)
Lemma derived_routing setSize lineSize totalCacheSize c refNum rW size address :
  0 < setSize -> 0 < lineSize -> totalCacheSize <= Int.INT_MAX ->
  0 < (totalCacheSize ÷ lineSize) ÷ setSize ->
  derived_state setSize lineSize totalCacheSize c ->
  let n := (totalCacheSize ÷ lineSize) ÷ setSize in
  let m := CacheTable.make_mem_ref refNum (rW, size, address) c in
  0 <= MemRef.index_ m < 2 ^ Z.log2 n /\
  Int.to_ulong (MemRef.getIndex m) = MemRef.index_ m /\
  exists s,
    set_at (MemRef.index_ m) (CacheTable.cacheSet_ c) = Some s /\
    CacheSet.index_ s = MemRef.index_ m /\
    CacheSet.setSize_ s = setSize.
Proof.
  intros HS HL HT Hn Hst n m.
  destruct (derived_decomposition _ _ _ c refNum rW size address HS HL HT Hn Hst)
    as (_ & Hidx & _).
  fold n m in Hidx.
  destruct (valid_sizes _ _ _ HS HL HT Hn)
    as (_ & Hnmax & _ & Hpow & _ & _ & Hi0 & _).
  fold n in Hnmax, Hpow, Hi0.
  assert (0 <= MemRef.index_ m < 2 ^ Z.log2 n) as Hrange.
  { rewrite Hidx. apply Z.mod_pos_bound. apply Z.pow_pos_nonneg; lia. }
  unfold Int.INT_MAX in *.
  split; [done|]. split.
  { unfold MemRef.getIndex. rewrite to_int_small, to_ulong_small;
      unfold Int.INT_MAX; lia. }
  destruct Hst as (_ & _ & _ & _ & _ & _ & _ & _ & Hnum & Hcap). fold n in Hnum, Hcap.
  assert (is_Some (set_at (MemRef.index_ m) (CacheTable.cacheSet_ c))) as [s Hs].
  { apply set_at_is_Some. rewrite Hnum. apply elem_of_numbering. lia. }
  exists s. split; [done|]. split; [by apply set_at_index in Hs|].
  apply set_at_elem, list_elem_of_lookup in Hs as [j Hj].
  assert ((CacheSet.setSize_ <$> CacheTable.cacheSet_ c) !! j =
          Some (CacheSet.setSize_ s)) as Hsz by (by rewrite list_lookup_fmap, Hj).
  rewrite Hcap in Hsz. by apply lookup_replicate in Hsz as [-> _].
Qed.

Lemma capacities_positive setSize lineSize totalCacheSize c :
  0 < setSize -> derived_state setSize lineSize totalCacheSize c ->
  Forall (fun s => 0 < CacheSet.setSize_ s) (CacheTable.cacheSet_ c).
Proof.
  intros HS (_ & _ & _ & _ & _ & _ & _ & _ & _ & Hcap).
  apply Forall_lookup. intros j s Hj.
  assert ((CacheSet.setSize_ <$> CacheTable.cacheSet_ c) !! j =
          Some (CacheSet.setSize_ s)) as Hsz by (by rewrite list_lookup_fmap, Hj).
  rewrite Hcap in Hsz. by apply lookup_replicate in Hsz as [-> _].
Qed.

Lemma read_line_total refNum ln c :
  Forall (fun s => 0 < CacheSet.setSize_ s) (CacheTable.cacheSet_ c) ->
  exists c', CacheTable.read_line refNum ln c = Some c' /\
    Forall (fun s => 0 < CacheSet.setSize_ s) (CacheTable.cacheSet_ c').
Proof.
  intros Hcap. unfold CacheTable.read_line. cbn zeta.
  set (m := CacheTable.make_mem_ref refNum ln c).
  destruct (determine_hit_or_miss_total (Int.to_ulong (MemRef.getIndex m))
              (MemRef.getTag m) c Hcap) as [[hM c1] Hd].
  rewrite Hd. cbn. eexists. split; [reflexivity|]. cbn.
  exact (determine_hit_or_miss_Forall _ _ _ _ _ _ (capacity_kept _) Hcap Hd).
Qed.

Lemma read_mem_trace_from_total lines :
  forall refNum c,
  Forall (fun s => 0 < CacheSet.setSize_ s) (CacheTable.cacheSet_ c) ->
  is_Some (CacheTable.read_mem_trace_from refNum lines c).
Proof.
  induction lines as [|ln lines IH]; intros refNum c Hcap; cbn; [done|].
  destruct (read_line_total refNum ln c Hcap) as (c' & -> & Hcap'). cbn.
  by apply IH.
Qed.

(** X5.  Every reference finds its set: for positive sizes that leave room
    for at least one set (set size times line size at most the total size),
    [main] completes the configuration, every trace then runs to its end,
    and in every table the run goes through the index of any address is
    below the number of sets and names a set, which carries that index and
    has the configured capacity.  The fall-through of
    [determine_hit_or_miss] for an index that no set carries is never taken
    in such a run.  (Sizes without room for a set derive zero sets and are
    outside this statement.) *)
Theorem references_find_their_set
    (c0 : CacheTable.t) (setSize lineSize totalCacheSize : Z) :
  CacheTable.cacheSet_ c0 = [] ->
  0 < setSize -> 0 < lineSize -> totalCacheSize <= Int.INT_MAX ->
  setSize * lineSize <= totalCacheSize ->
  exists c,
    CacheTable.configure setSize lineSize totalCacheSize c0 = Some c /\
    0 < CacheTable.numberOfSets_ c /\
    (forall lines, is_Some (CacheTable.read_mem_trace lines c)) /\
    (forall lines c1 refNum rW size address,
       CacheTable.read_mem_trace lines c = Some c1 ->
       let m := CacheTable.make_mem_ref refNum (rW, size, address) c1 in
       0 <= MemRef.index_ m < CacheTable.numberOfSets_ c1 /\
       exists s,
         set_at (Int.to_ulong (MemRef.getIndex m)) (CacheTable.cacheSet_ c1) = Some s /\
         CacheSet.index_ s = MemRef.index_ m /\
         CacheSet.setSize_ s = setSize).
Proof.
  intros Hnil HS HL HT Hroom.
  destruct (configure_room c0 _ _ _ HS HL Hroom) as [_ Hc].
  eexists. split; [exact Hc|].
  destruct (configure_derived_state _ _ _ _ _ Hnil HS HL HT Hc) as (Hn & Hst & _).
  split; [done|]. split.
  - intros lines. apply read_mem_trace_from_total.
    exact (capacities_positive _ _ _ _ HS Hst).
  - intros lines c1 refNum rW size address Hrun m.
    pose proof (read_mem_trace_from_derived_state _ _ _ _ _ _ _ Hst Hrun) as Hst1.
    destruct (derived_routing _ _ _ c1 refNum rW size address HS HL HT Hn Hst1)
      as (Hrange & Hidx & s & Hs & Hsi & Hsz).
    fold m in Hrange, Hidx, Hs, Hsi.
    destruct (valid_sizes _ _ _ HS HL HT Hn) as (_ & _ & _ & Hpow & _).
    destruct Hst1 as (_ & _ & _ & Hnum & _).
    split; [rewrite Hnum; lia|].
    exists s. by rewrite Hidx.
Qed.

Lemma references_find_their_set_witness :
  exists c,
    CacheTable.configure 4 8 96 CacheTable.new = Some c /\
    is_Some (CacheTable.read_mem_trace [(READ, 4, 8); (WRITE, 4, 24)] c).
Proof.
  destruct (references_find_their_set CacheTable.new 4 8 96)
    as (c & Hc & _ & Htotal & _).
  - reflexivity.
  - lia.
  - lia.
  - unfold Int.INT_MAX. lia.
  - lia.
  - exists c. split; [exact Hc | apply Htotal].
Defined.

(** ** Cache lines of memory *)

Lemma quotient_and_remainder_agree x y k :
  0 <= k ->
  (Z.shiftr x k = Z.shiftr y k /\ x mod 2 ^ k = y mod 2 ^ k) <-> x = y.
Proof.
  intros Hk. split; [|by intros ->].
  rewrite !Z.shiftr_div_pow2 by done. intros [Hq Hr].
  assert (0 < 2 ^ k) by (apply Z.pow_pos_nonneg; lia).
  rewrite (Z.div_mod x (2 ^ k)), (Z.div_mod y (2 ^ k)) by lia. congruence.
Qed.

Lemma same_line_fields setSize lineSize totalCacheSize c
    refNum refNum' rW rW' size size' address address' :
  0 < setSize -> 0 < lineSize -> totalCacheSize <= Int.INT_MAX ->
  0 < (totalCacheSize ÷ lineSize) ÷ setSize ->
  derived_state setSize lineSize totalCacheSize c ->
  let m := CacheTable.make_mem_ref refNum (rW, size, address) c in
  let m' := CacheTable.make_mem_ref refNum' (rW', size', address') c in
  (MemRef.tag_ m = MemRef.tag_ m' /\ MemRef.index_ m = MemRef.index_ m') <->
  address / 2 ^ Z.log2 lineSize = address' / 2 ^ Z.log2 lineSize.
Proof.
  intros HS HL HT Hn Hst m m'.
  destruct (derived_decomposition _ _ _ c refNum rW size address HS HL HT Hn Hst)
    as (Ht & Hi & _).
  destruct (derived_decomposition _ _ _ c refNum' rW' size' address' HS HL HT Hn Hst)
    as (Ht' & Hi' & _).
  fold m in Ht, Hi. fold m' in Ht', Hi'.
  destruct (valid_sizes _ _ _ HS HL HT Hn) as (_ & _ & _ & _ & _ & Ho0 & Hi0 & _).
  rewrite Ht, Hi, Ht', Hi'.
  rewrite (Z.add_comm (Z.log2 _) (Z.log2 lineSize)), <- !Z.shiftr_shiftr by done.
  rewrite quotient_and_remainder_agree by done.
  by rewrite !Z.shiftr_div_pow2.
Qed.

(** X6.  Cache lines of memory: in the geometry [main] derives, two addresses
    get the same tag and the same index exactly when they lie in the same
    block of [2^offsetBits] bytes, that is when their quotients by
    [2^offsetBits] agree; that block size is the line size when the line size
    is a power of two. *)
Theorem same_line_same_tag_and_index
    (c0 c : CacheTable.t) (setSize lineSize totalCacheSize : Z)
    (refNum refNum' size size' address address' : Z) (rW rW' : ReadOrWrite) :
  CacheTable.cacheSet_ c0 = [] ->
  0 < setSize -> 0 < lineSize -> totalCacheSize <= Int.INT_MAX ->
  CacheTable.configure setSize lineSize totalCacheSize c0 = Some c ->
  let m := CacheTable.make_mem_ref refNum (rW, size, address) c in
  let m' := CacheTable.make_mem_ref refNum' (rW', size', address') c in
  ((MemRef.tag_ m = MemRef.tag_ m' /\ MemRef.index_ m = MemRef.index_ m') <->
   address / 2 ^ CacheTable.offsetSize_ c = address' / 2 ^ CacheTable.offsetSize_ c) /\
  (forall k, 0 <= k -> lineSize = 2 ^ k -> 2 ^ CacheTable.offsetSize_ c = lineSize).
Proof.
  intros Hnil HS HL HT Hc m m'.
  destruct (configure_derived_state _ _ _ _ _ Hnil HS HL HT Hc) as (Hn & Hst & _).
  pose proof Hst as (_ & _ & _ & _ & _ & Ho & _). rewrite Ho. split.
  - by apply (same_line_fields setSize lineSize totalCacheSize).
  - intros k Hk ->. by rewrite Z.log2_pow2.
Qed.

Lemma same_line_same_tag_and_index_witness :
  MemRef.tag_ (CacheTable.make_mem_ref 0 (READ, 4, 1000)
                 (configured 4 32 1024 8 CacheTable.new)) =
  MemRef.tag_ (CacheTable.make_mem_ref 1 (WRITE, 2, 1023)
                 (configured 4 32 1024 8 CacheTable.new)) /\
  MemRef.index_ (CacheTable.make_mem_ref 0 (READ, 4, 1000)
                   (configured 4 32 1024 8 CacheTable.new)) =
  MemRef.index_ (CacheTable.make_mem_ref 1 (WRITE, 2, 1023)
                   (configured 4 32 1024 8 CacheTable.new)).
Proof.
  refine (proj2 (proj1 (same_line_same_tag_and_index CacheTable.new
                   (configured 4 32 1024 8 CacheTable.new) 4 32 1024
                   0 1 4 2 1000 1023 READ WRITE eq_refl _ _ _ eq_refl)) eq_refl).
  - lia.
  - lia.
  - unfold Int.INT_MAX. lia.
Defined.

(** X7.  Spatial locality: for positive sizes that leave room for at least
    one set (set size times line size at most the total size), [main]
    completes the configuration, and at any point of a run, once a reference
    to an address is processed, a next reference to any address of the same
    block of [2^offsetBits] bytes is recorded as a hit.  (Sizes without room
    for a set derive zero sets and are outside this statement.) *)
Theorem same_line_hits (c0 : CacheTable.t) (setSize lineSize totalCacheSize : Z) :
  CacheTable.cacheSet_ c0 = [] ->
  0 < setSize -> 0 < lineSize -> totalCacheSize <= Int.INT_MAX ->
  setSize * lineSize <= totalCacheSize ->
  exists c,
    CacheTable.configure setSize lineSize totalCacheSize c0 = Some c /\
    forall (lines : list CacheTable.line) (c1 : CacheTable.t)
           (refNum refNum' size size' address address' : Z) (rW rW' : ReadOrWrite),
      CacheTable.read_mem_trace lines c = Some c1 ->
      address / 2 ^ CacheTable.offsetSize_ c = address' / 2 ^ CacheTable.offsetSize_ c ->
      exists c2 c3,
        CacheTable.read_line refNum (rW, size, address) c1 = Some c2 /\
        CacheTable.read_line refNum' (rW', size', address') c2 = Some c3 /\
        MemRef.hM_ <$> last (CacheTable.memRef_ c3) = Some true.
Proof.
  intros Hnil HS HL HT Hroom.
  destruct (configure_room c0 _ _ _ HS HL Hroom) as [_ Hc].
  eexists. split; [exact Hc|].
  set (c := configured _ _ _ _ _) in *.
  intros lines c1 refNum refNum' size size' address address' rW rW' Hrun Hline.
  destruct (configure_derived_state _ _ _ _ _ Hnil HS HL HT Hc) as (Hn & Hst & _).
  pose proof Hst as (_ & _ & _ & _ & _ & Ho & _). rewrite Ho in Hline.
  pose proof (read_mem_trace_from_derived_state _ _ _ _ _ _ _ Hst Hrun) as Hst1.
  set (m := CacheTable.make_mem_ref refNum (rW, size, address) c1).
  destruct (derived_routing _ _ _ c1 refNum rW size address HS HL HT Hn Hst1)
    as (_ & Hidx & s & Hs & _ & Hsz).
  fold m in Hidx, Hs.
  assert (0 < CacheSet.setSize_ s) as Hcap by lia.
  rewrite <- Hidx in Hs.
  destruct (access_then_resident _ (MemRef.getTag m) c1 s Hs Hcap)
    as (hM & c1' & s' & Hd & _ & _ & _ & Hagain).
  assert (CacheTable.read_line refNum (rW, size, address) c1 =
          Some (CacheTable.with_totalAccess
                  (Int.to_int (CacheTable.totalAccess c1' + 1))
                  (CacheTable.with_memRef
                     (CacheTable.memRef_ c1' ++ [MemRef.setHM hM m]) c1'))) as Hl.
  { unfold CacheTable.read_line. cbn zeta. fold m. by rewrite Hd. }
  set (c2 := CacheTable.with_totalAccess _ _) in Hl.
  pose proof (read_line_derived_state _ _ _ _ _ _ _ Hst1 Hl) as Hst2.
  set (m' := CacheTable.make_mem_ref refNum' (rW', size', address') c2).
  assert (MemRef.tag_ m' = MemRef.tag_ m /\ MemRef.index_ m' = MemRef.index_ m)
    as [Htag Hindex].
  { destruct (derived_decomposition _ _ _ c1 refNum rW size address
                HS HL HT Hn Hst1) as (Ht1 & Hi1 & _).
    destruct (derived_decomposition _ _ _ c2 refNum rW size address
                HS HL HT Hn Hst2) as (Ht2 & Hi2 & _).
    fold m in Ht1, Hi1. rewrite <- Ht2 in Ht1. rewrite <- Hi2 in Hi1.
    rewrite Ht1, Hi1.
    apply (same_line_fields setSize lineSize totalCacheSize c2); try done. }
  destruct (Hagain c2) as (c'' & Hd2); [done|].
  exists c2. eexists. split; [exact Hl|].
  unfold CacheTable.read_line at 1. cbn zeta. fold m'.
  unfold MemRef.getIndex, MemRef.getTag in *. rewrite Htag, Hindex, Hd2. cbn.
  split; [reflexivity|]. cbn. by rewrite last_snoc.
Qed.

Lemma same_line_hits_witness :
  exists c c2 c3,
    CacheTable.configure 4 32 1024 CacheTable.new = Some c /\
    CacheTable.read_line 0 (READ, 4, 1000) c = Some c2 /\
    CacheTable.read_line 1 (WRITE, 2, 1023) c2 = Some c3 /\
    MemRef.hM_ <$> last (CacheTable.memRef_ c3) = Some true.
Proof.
  destruct (same_line_hits CacheTable.new 4 32 1024) as (c & Hc & Hhit).
  - reflexivity.
  - lia.
  - lia.
  - unfold Int.INT_MAX. lia.
  - lia.
  - assert (CacheTable.offsetSize_ c = 5) as Ho
      by (vm_compute in Hc; injection Hc as <-; reflexivity).
    destruct (Hhit [] c 0 1 4 2 1000 1023 READ WRITE eq_refl) as (c2 & c3 & H).
    + rewrite Ho. reflexivity.
    + exists c, c2, c3. split; [exact Hc | exact H].
Defined.

(** ** How much the cache holds *)

Lemma sum_list_bounded (l : list nat) (k : nat) :
  Forall (fun x => x <= k)%nat l -> (sum_list l <= length l * k)%nat.
Proof. induction 1 as [|x l Hx Hl IH]; cbn; lia. Qed.

(** X8.  The modelled cache never holds more than it was configured for: in
    a run that [main] has configured, the number of resident lines is at
    most the number of sets times the set size, and the resident lines times
    the line size never exceed the total cache size. *)
Theorem resident_lines_bounded
    (c0 c c1 : CacheTable.t) (setSize lineSize totalCacheSize : Z)
    (lines : list CacheTable.line) :
  CacheTable.cacheSet_ c0 = [] ->
  0 < setSize -> 0 < lineSize -> totalCacheSize <= Int.INT_MAX ->
  CacheTable.configure setSize lineSize totalCacheSize c0 = Some c ->
  CacheTable.read_mem_trace lines c = Some c1 ->
  Z.of_nat (resident_lines c1) <= CacheTable.numberOfSets_ c1 * setSize /\
  Z.of_nat (resident_lines c1) * lineSize <= totalCacheSize.
Proof.
  intros Hnil HS HL HT Hc Hrun.
  destruct (configure_derived_state _ _ _ _ _ Hnil HS HL HT Hc) as (Hn & Hst & _).
  pose proof (read_mem_trace_from_derived_state _ _ _ _ _ _ _ Hst Hrun) as Hst1.
  destruct (valid_sizes _ _ _ HS HL HT Hn) as (HSmax & _ & Hcap & _).
  assert (reachable c1) as Hr.
  { eapply read_mem_trace_from_reachable; [|exact Hrun].
    by eapply reachable_configured. }
  pose proof (reachable_sets_ok c1 Hr) as Hok.
  destruct Hst1 as (_ & _ & HS1 & Hnum & _ & _ & _ & _ & Hidx & _).
  rewrite HS1 in Hok.
  assert (length (CacheTable.cacheSet_ c1) =
          Z.to_nat (totalCacheSize ÷ lineSize ÷ setSize)) as Hlen.
  { by rewrite <- (length_fmap CacheSet.getIndex), Hidx, length_fmap, length_seq. }
  assert (resident_lines c1 <= length (CacheTable.cacheSet_ c1) * Z.to_nat setSize)%nat
    as Hsum.
  { unfold resident_lines.
    rewrite <- (length_fmap (fun s => length (CacheSet.cacheLine_ s))).
    apply sum_list_bounded, Forall_fmap. eapply Forall_impl; [exact Hok|].
    intros s (Hsz & Hle & _). cbn.
    rewrite Hsz, to_uint_small in Hle; unfold Int.INT_MAX in *; lia. }
  rewrite Hnum. split; nia.
Qed.

Lemma resident_lines_bounded_witness :
  CacheTable.read_mem_trace [(READ, 4, 0); (READ, 4, 64); (READ, 4, 16)]
    (configured 1 16 64 4 CacheTable.new)
  = Some (CacheTable.mk
            [CacheSet.mk 1 0 [CacheLine.mk 1 0]; CacheSet.mk 1 1 [CacheLine.mk 0 0];
             CacheSet.mk 1 2 []; CacheSet.mk 1 3 []]
            [MemRef.mk 0 READ 4 0 0 0 0 false; MemRef.mk 1 READ 4 64 1 0 0 false;
             MemRef.mk 2 READ 4 16 0 1 0 false]
            64 16 1 4 2 4 0 3 3 15 48) /\
  Z.of_nat (resident_lines
              (CacheTable.mk
                 [CacheSet.mk 1 0 [CacheLine.mk 1 0]; CacheSet.mk 1 1 [CacheLine.mk 0 0];
                  CacheSet.mk 1 2 []; CacheSet.mk 1 3 []]
                 [MemRef.mk 0 READ 4 0 0 0 0 false; MemRef.mk 1 READ 4 64 1 0 0 false;
                  MemRef.mk 2 READ 4 16 0 1 0 false]
                 64 16 1 4 2 4 0 3 3 15 48)) * 16 <= 64.
Proof.
  assert (CacheTable.read_mem_trace [(READ, 4, 0); (READ, 4, 64); (READ, 4, 16)]
            (configured 1 16 64 4 CacheTable.new)
          = Some (CacheTable.mk
            [CacheSet.mk 1 0 [CacheLine.mk 1 0]; CacheSet.mk 1 1 [CacheLine.mk 0 0];
             CacheSet.mk 1 2 []; CacheSet.mk 1 3 []]
            [MemRef.mk 0 READ 4 0 0 0 0 false; MemRef.mk 1 READ 4 64 1 0 0 false;
             MemRef.mk 2 READ 4 16 0 1 0 false]
            64 16 1 4 2 4 0 3 3 15 48)) as Hrun by (vm_compute; reflexivity).
  split; [exact Hrun|].
  refine (proj2 (resident_lines_bounded CacheTable.new
                   (configured 1 16 64 4 CacheTable.new) _ 1 16 64 _
                   eq_refl _ _ _ eq_refl Hrun)).
  - lia.
  - lia.
  - unfold Int.INT_MAX. lia.
Defined.

(** ** Sets that are never used *)

Lemma read_mem_trace_from_untouched setSize lineSize totalCacheSize lines :
  0 < setSize -> 0 < lineSize -> totalCacheSize <= Int.INT_MAX ->
  0 < (totalCacheSize ÷ lineSize) ÷ setSize ->
  forall refNum c c1 j s,
  derived_state setSize lineSize totalCacheSize c ->
  CacheTable.read_mem_trace_from refNum lines c = Some c1 ->
  CacheTable.cacheSet_ c !! j = Some s ->
  2 ^ Z.log2 ((totalCacheSize ÷ lineSize) ÷ setSize) <= CacheSet.getIndex s ->
  CacheTable.cacheSet_ c1 !! j = Some s.
Proof.
  intros HS HL HT Hn.
  induction lines as [|[[rW size] address] lines IH];
    intros refNum c c1 j s Hst Hrun Hj Hhigh; cbn in Hrun.
  - by injection Hrun as <-.
  - destruct (CacheTable.read_line refNum (rW, size, address) c) as [c'|] eqn:Hl;
      [|done].
    cbn in Hrun.
    destruct (read_line_frame _ _ _ _ Hl) as (_ & _ & _ & Hpos).
    destruct (derived_routing _ _ _ c refNum rW size address HS HL HT Hn Hst)
      as (Hrange & Hidx & _).
    eapply IH; [|exact Hrun| |done].
    + by eapply read_line_derived_state.
    + apply Hpos; [done|]. rewrite Hidx. lia.
Qed.

(** X9.  Sets beyond the index bits are never used: the index has
    [floor(log2 numberOfSets)] bits, so when the number of sets is not a
    power of two, the sets at positions from [2^indexBits] up to the number
    of sets stay empty through every run. *)
Theorem sets_beyond_index_bits_stay_empty
    (c0 c c1 : CacheTable.t) (setSize lineSize totalCacheSize : Z)
    (lines : list CacheTable.line) (j : nat) :
  CacheTable.cacheSet_ c0 = [] ->
  0 < setSize -> 0 < lineSize -> totalCacheSize <= Int.INT_MAX ->
  CacheTable.configure setSize lineSize totalCacheSize c0 = Some c ->
  CacheTable.read_mem_trace lines c = Some c1 ->
  2 ^ CacheTable.indexSize_ c <= Z.of_nat j < CacheTable.numberOfSets_ c ->
  CacheTable.cacheSet_ c1 !! j = Some (CacheSet.mk setSize (Z.of_nat j) []).
Proof.
  intros Hnil HS HL HT Hc Hrun Hj.
  destruct (configure_derived_state _ _ _ _ _ Hnil HS HL HT Hc) as (Hn & Hst & Hempty).
  pose proof Hst as (_ & _ & _ & Hnum & Hi & _ & _ & _ & Hidx & Hcap).
  rewrite Hnum, Hi in Hj.
  assert (exists s, CacheTable.cacheSet_ c !! j = Some s) as [s Hs].
  { apply lookup_lt_is_Some.
    rewrite <- (length_fmap CacheSet.getIndex), Hidx, length_fmap, length_seq. lia. }
  assert (s = CacheSet.mk setSize (Z.of_nat j) []) as ->.
  { assert ((CacheSet.getIndex <$> CacheTable.cacheSet_ c) !! j =
            Some (CacheSet.getIndex s)) as Hsi by (by rewrite list_lookup_fmap, Hs).
    rewrite Hidx, list_lookup_fmap, lookup_seq_lt in Hsi by lia.
    assert ((CacheSet.setSize_ <$> CacheTable.cacheSet_ c) !! j =
            Some (CacheSet.setSize_ s)) as Hsz by (by rewrite list_lookup_fmap, Hs).
    rewrite Hcap in Hsz. apply lookup_replicate in Hsz as [Hsz _].
    rewrite Forall_lookup in Hempty. specialize (Hempty j s Hs).
    destruct s as [sz idx ls]. cbn in *. congruence. }
  eapply (read_mem_trace_from_untouched setSize lineSize totalCacheSize);
    [done..|exact Hst|exact Hrun|exact Hs|].
  cbn. lia.
Qed.

Lemma sets_beyond_index_bits_stay_empty_witness :
  CacheTable.read_mem_trace
    [(READ, 4, 0); (READ, 4, 8); (READ, 4, 16); (READ, 4, 24)]
    (configured 4 8 96 3 CacheTable.new)
  = Some (CacheTable.mk
            [CacheSet.mk 4 0 [CacheLine.mk 0 0; CacheLine.mk 1 0];
             CacheSet.mk 4 1 [CacheLine.mk 0 0; CacheLine.mk 1 0];
             CacheSet.mk 4 2 []]
            [MemRef.mk 0 READ 4 0 0 0 0 false; MemRef.mk 1 READ 4 8 0 1 0 false;
             MemRef.mk 2 READ 4 16 1 0 0 false; MemRef.mk 3 READ 4 24 1 1 0 false]
            96 8 4 3 1 3 0 4 4 7 8) /\
  CacheTable.cacheSet_
    (CacheTable.mk
       [CacheSet.mk 4 0 [CacheLine.mk 0 0; CacheLine.mk 1 0];
        CacheSet.mk 4 1 [CacheLine.mk 0 0; CacheLine.mk 1 0];
        CacheSet.mk 4 2 []]
       [MemRef.mk 0 READ 4 0 0 0 0 false; MemRef.mk 1 READ 4 8 0 1 0 false;
        MemRef.mk 2 READ 4 16 1 0 0 false; MemRef.mk 3 READ 4 24 1 1 0 false]
       96 8 4 3 1 3 0 4 4 7 8) !! 2%nat
  = Some (CacheSet.mk 4 2 []).
Proof.
  assert (CacheTable.read_mem_trace
            [(READ, 4, 0); (READ, 4, 8); (READ, 4, 16); (READ, 4, 24)]
            (configured 4 8 96 3 CacheTable.new)
          = Some (CacheTable.mk
            [CacheSet.mk 4 0 [CacheLine.mk 0 0; CacheLine.mk 1 0];
             CacheSet.mk 4 1 [CacheLine.mk 0 0; CacheLine.mk 1 0];
             CacheSet.mk 4 2 []]
            [MemRef.mk 0 READ 4 0 0 0 0 false; MemRef.mk 1 READ 4 8 0 1 0 false;
             MemRef.mk 2 READ 4 16 1 0 0 false; MemRef.mk 3 READ 4 24 1 1 0 false]
            96 8 4 3 1 3 0 4 4 7 8)) as Hrun by (vm_compute; reflexivity).
  split; [exact Hrun|].
  refine (sets_beyond_index_bits_stay_empty CacheTable.new
            (configured 4 8 96 3 CacheTable.new) _ 4 8 96 _ 2
            eq_refl _ _ _ eq_refl Hrun _).
  - lia.
  - lia.
  - unfold Int.INT_MAX. lia.
  - vm_compute. split; [discriminate | reflexivity].
Defined.

(** ** The recorded references *)

Lemma read_mem_trace_from_records lines :
  forall refNum c,
  Forall (fun s => 0 < CacheSet.setSize_ s) (CacheTable.cacheSet_ c) ->
  - 2 ^ 31 <= CacheTable.totalHits c ->
  - 2 ^ 31 <= CacheTable.totalMiss c ->
  - 2 ^ 31 <= CacheTable.totalAccess c ->
  - 2 ^ 31 <= refNum ->
  CacheTable.totalHits c + Z.of_nat (length lines) <= Int.INT_MAX ->
  CacheTable.totalMiss c + Z.of_nat (length lines) <= Int.INT_MAX ->
  CacheTable.totalAccess c + Z.of_nat (length lines) <= Int.INT_MAX ->
  refNum + Z.of_nat (length lines) <= Int.INT_MAX ->
  exists c' recs,
    CacheTable.read_mem_trace_from refNum lines c = Some c' /\
    CacheTable.memRef_ c' = CacheTable.memRef_ c ++ recs /\
    length recs = length lines /\
    (forall k ln, lines !! k = Some ln ->
       exists m, recs !! k = Some m /\
         MemRef.refNum_ m = refNum + Z.of_nat k /\
         (MemRef.rW_ m, MemRef.size_ m, MemRef.address_ m) = ln) /\
    CacheTable.totalHits c' =
      CacheTable.totalHits c +
      Z.of_nat (length (filter (fun m => MemRef.hM_ m = true) recs)) /\
    CacheTable.totalMiss c' =
      CacheTable.totalMiss c +
      Z.of_nat (length (filter (fun m => MemRef.hM_ m = false) recs)).
Proof.
  induction lines as [|ln lines IH];
    intros refNum c Hcap Hh Hm Ha Hr Hh' Hm' Ha' Hr'.
  - exists c, []. cbn. rewrite app_nil_r. split_and!; try done; lia.
  - cbn [length] in *. cbn [CacheTable.read_mem_trace_from].
    destruct (read_line_counters refNum ln c Hcap)
      as (hM & c1 & -> & Hcap1 & Hrefs & Hacc & Hcnt); [lia..|].
    cbn.
    destruct (IH (Int.to_int (refNum + 1)) c1 Hcap1)
      as (c' & recs & -> & Hrecs & Hlen & Hlines & Hhits & Hmiss);
      try (rewrite ?to_int_small by (unfold Int.INT_MAX in *; lia); lia).
    rewrite to_int_small in Hlines by (unfold Int.INT_MAX in *; lia).
    set (m0 := MemRef.setHM hM (CacheTable.make_mem_ref refNum ln c)) in *.
    exists c', (m0 :: recs). split_and!.
    + done.
    + by rewrite Hrecs, Hrefs, <- app_assoc.
    + cbn. by rewrite Hlen.
    + intros [|k] ln' Hk; cbn in Hk.
      * injection Hk as <-. exists m0. split; [done|].
        destruct ln as [[rW size] address]. cbn. split; [lia|done].
      * destruct (Hlines k ln' Hk) as (m & Hm0 & Hnum & Hln).
        exists m. split_and!; [done| |done]. lia.
    + rewrite Hhits, filter_cons.
      destruct Hcnt as [(-> & Hh1 & Hm1)|(-> & Hh1 & Hm1)]; cbn;
        destruct (decide _); try done; rewrite Hh1; cbn [length]; lia.
    + rewrite Hmiss, filter_cons.
      destruct Hcnt as [(-> & Hh1 & Hm1)|(-> & Hh1 & Hm1)]; cbn;
        destruct (decide _); try done; rewrite Hm1; cbn [length]; lia.
Qed.

(** X10.  The report agrees with the run: [read_mem_trace] appends one record
    per line of the trace, in trace order, the record at position [k]
    carrying reference number [k] and the access type, size and address of
    line [k]; [totalHits] grows by the number of records marked as hits and
    [totalMiss] by the number marked as misses (for sets of positive
    capacity and a trace short enough for the [int] counters). *)
Theorem records_agree_with_counters (lines : list CacheTable.line) (c : CacheTable.t) :
  Forall (fun s => 0 < CacheSet.setSize_ s) (CacheTable.cacheSet_ c) ->
  - 2 ^ 31 <= CacheTable.totalHits c ->
  - 2 ^ 31 <= CacheTable.totalMiss c ->
  - 2 ^ 31 <= CacheTable.totalAccess c ->
  CacheTable.totalHits c + Z.of_nat (length lines) <= Int.INT_MAX ->
  CacheTable.totalMiss c + Z.of_nat (length lines) <= Int.INT_MAX ->
  CacheTable.totalAccess c + Z.of_nat (length lines) <= Int.INT_MAX ->
  Z.of_nat (length lines) <= Int.INT_MAX ->
  exists c' recs,
    CacheTable.read_mem_trace lines c = Some c' /\
    CacheTable.memRef_ c' = CacheTable.memRef_ c ++ recs /\
    length recs = length lines /\
    (forall k ln, lines !! k = Some ln ->
       exists m, recs !! k = Some m /\
         MemRef.refNum_ m = Z.of_nat k /\
         (MemRef.rW_ m, MemRef.size_ m, MemRef.address_ m) = ln) /\
    CacheTable.totalHits c' =
      CacheTable.totalHits c +
      Z.of_nat (length (filter (fun m => MemRef.hM_ m = true) recs)) /\
    CacheTable.totalMiss c' =
      CacheTable.totalMiss c +
      Z.of_nat (length (filter (fun m => MemRef.hM_ m = false) recs)).
Proof.
  intros Hcap Hh Hm Ha Hh' Hm' Ha' Hn.
  destruct (read_mem_trace_from_records lines 0 c)
    as (c' & recs & Hrun & Hrecs & Hlen & Hlines & Hhits & Hmiss); try done; try lia.
  exists c', recs. by split_and!.
Qed.

Lemma records_agree_with_counters_witness :
  exists c' recs,
    CacheTable.read_mem_trace [(READ, 4, 0); (READ, 4, 16); (WRITE, 4, 0)]
      (CacheTable.mk [CacheSet.mk 1 0 []; CacheSet.mk 1 1 []; CacheSet.mk 1 2 [];
                      CacheSet.mk 1 3 []]
                     [] 64 16 1 4 2 4 0 0 0 15 48) = Some c' /\
    CacheTable.memRef_ c' = [] ++ recs /\
    length recs = 3%nat.
Proof.
  destruct (records_agree_with_counters [(READ, 4, 0); (READ, 4, 16); (WRITE, 4, 0)]
      (CacheTable.mk [CacheSet.mk 1 0 []; CacheSet.mk 1 1 []; CacheSet.mk 1 2 [];
                      CacheSet.mk 1 3 []]
                     [] 64 16 1 4 2 4 0 0 0 15 48))
    as (c' & recs & Hrun & Hrecs & Hlen & _).
  - repeat constructor.
  - cbn. lia.
  - cbn. lia.
  - cbn. lia.
  - cbn. unfold Int.INT_MAX. lia.
  - cbn. unfold Int.INT_MAX. lia.
  - cbn. unfold Int.INT_MAX. lia.
  - cbn. unfold Int.INT_MAX. lia.
  - exists c', recs. split; [exact Hrun|]. split; [exact Hrecs | exact Hlen].
Defined.

(** ** Independence of the sets *)

Lemma at_index_cons index i t accesses :
  at_index index ((i, t) :: accesses) =
  if decide (i = index) then t :: at_index index accesses
  else at_index index accesses.
Proof. unfold at_index. rewrite filter_cons. cbn. by destruct (decide (i = index)). Qed.

Lemma outcomes_at_cons index i t accesses hM outcomes :
  outcomes_at index ((i, t) :: accesses) (hM :: outcomes) =
  if decide (i = index) then hM :: outcomes_at index accesses outcomes
  else outcomes_at index accesses outcomes.
Proof.
  unfold outcomes_at. cbn [zip zip_with]. rewrite filter_cons. cbn.
  by destruct (decide (i = index)).
Qed.

Lemma run_accesses_cons i t accesses c outcomes c' :
  run_accesses ((i, t) :: accesses) c = Some (outcomes, c') ->
  exists hM c1 outcomes',
    CacheTable.determine_hit_or_miss i t c = Some (hM, c1) /\
    run_accesses accesses c1 = Some (outcomes', c') /\
    outcomes = hM :: outcomes'.
Proof.
  cbn. destruct (CacheTable.determine_hit_or_miss i t c) as [[hM c1]|]; cbn; [|done].
  destruct (run_accesses accesses c1) as [[outcomes' c2]|] eqn:Hrest; cbn; [|done].
  intros [= <- <-]. by exists hM, c1, outcomes'.
Qed.

Lemma run_accesses_routes accesses :
  forall c outcomes c' index s,
  run_accesses accesses c = Some (outcomes, c') ->
  set_at index (CacheTable.cacheSet_ c) = Some s ->
  exists s',
    run_set (at_index index accesses) s =
      Some (outcomes_at index accesses outcomes, s') /\
    set_at index (CacheTable.cacheSet_ c') = Some s'.
Proof.
  induction accesses as [|[i t] accesses IH]; intros c outcomes c' index s Hrun Hs.
  - cbn in Hrun. injection Hrun as <- <-. by exists s.
  - destruct (run_accesses_cons _ _ _ _ _ _ Hrun)
      as (hM & c1 & outcomes' & Hd & Hrest & ->).
    rewrite at_index_cons, outcomes_at_cons.
    destruct (decide (i = index)) as [->|Hne].
    + destruct (determine_hit_or_miss_result _ _ _ _ _ Hd) as (sets' & Hc1 & Hsets).
      rewrite Hs in Hsets. destruct Hsets as (s1 & Ha & ->).
      destruct (determine_hit_or_miss_at _ _ _ _ _ _ Hs Ha) as (c1' & Hd' & _ & Hs1).
      rewrite Hd in Hd'. injection Hd' as <-.
      destruct (IH _ _ _ _ _ Hrest Hs1) as (s' & Hset & Hs').
      exists s'. cbn [run_set]. rewrite Ha. cbn [mbind option_bind].
      by rewrite Hset.
    + destruct (determine_hit_or_miss_frame _ _ _ _ _ Hd)
        as (_ & _ & _ & _ & _ & _ & Hat).
      rewrite <- (Hat index) in Hs by done.
      by apply (IH _ _ _ _ _ Hrest Hs).
Qed.

Lemma run_accesses_length accesses :
  forall c outcomes c',
  run_accesses accesses c = Some (outcomes, c') ->
  length outcomes = length accesses.
Proof.
  induction accesses as [|[i t] accesses IH]; intros c outcomes c' Hrun.
  - cbn in Hrun. by injection Hrun as <- <-.
  - destruct (run_accesses_cons _ _ _ _ _ _ Hrun)
      as (hM & c1 & outcomes' & _ & Hrest & ->).
    cbn. by rewrite (IH _ _ _ Hrest).
Qed.

(** X11.  The sets are independent: in any sequence of accesses, the outcomes
    of the accesses to one index and the final contents of the set that index
    names are those of that set accessed alone with the tags the sequence
    sends to it; the accesses to other indexes have no influence on them. *)
Theorem sets_are_independent
    (accesses : list (Z * Z)) (c c' : CacheTable.t) (outcomes : list bool)
    (index : Z) (s : CacheSet.t) :
  run_accesses accesses c = Some (outcomes, c') ->
  set_at index (CacheTable.cacheSet_ c) = Some s ->
  length outcomes = length accesses /\
  exists s',
    run_set (at_index index accesses) s =
      Some (outcomes_at index accesses outcomes, s') /\
    set_at index (CacheTable.cacheSet_ c') = Some s'.
Proof.
  intros Hrun Hs. split.
  - by eapply run_accesses_length.
  - by eapply run_accesses_routes.
Qed.

Lemma sets_are_independent_witness :
  exists s',
    run_set [10; 20; 10] (CacheSet.mk 2 1 []) = Some ([false; false; true], s') /\
    tags s' = [10; 20].
Proof.
  destruct (sets_are_independent
              [(1, 10); (0, 7); (1, 20); (3, 7); (1, 10)]
              (CacheTable.mk [CacheSet.mk 2 0 []; CacheSet.mk 2 1 []; CacheSet.mk 2 2 [];
                              CacheSet.mk 2 3 []] [] 128 16 2 4 2 4 0 0 0 15 48)
              (CacheTable.mk
                 [CacheSet.mk 2 0 [CacheLine.mk 7 0];
                  CacheSet.mk 2 1 [CacheLine.mk 10 0; CacheLine.mk 20 1];
                  CacheSet.mk 2 2 []; CacheSet.mk 2 3 [CacheLine.mk 7 0]]
                 [] 128 16 2 4 2 4 1 4 0 15 48)
              [false; false; false; false; true] 1 (CacheSet.mk 2 1 []))
    as (_ & s' & Hset & Hs').
  - vm_compute. reflexivity.
  - reflexivity.
  - exists s'. split; [exact Hset|].
    vm_compute in Hs'. injection Hs' as <-. reflexivity.
Defined.

(** ** First references and repeated references *)

(** The three ways an access to a set can go. *)
Lemma access_set_cases tag s hit s' :
  access_set tag s = Some (hit, s') ->
  (hit = true /\ tag ∈ tags s /\ tags s' = tags s) \/
  (hit = false /\ (tag ∉ tags s) /\
   Z.of_nat (length (CacheSet.cacheLine_ s)) < CacheSet.setSize_ s /\
   s' = CacheSet.add_new_cache_line tag s /\ tags s' = tags s ++ [tag]) \/
  (hit = false /\ (tag ∉ tags s) /\
   CacheSet.setSize_ s <= Z.of_nat (length (CacheSet.cacheLine_ s)) /\
   (CacheSet.find_LRU s < length (CacheSet.cacheLine_ s))%nat /\
   s' = CacheSet.with_lines
          (alter (fun l => CacheLine.set_LRU (CacheLine.setTag tag l))
                 (CacheSet.find_LRU s)
                 (CacheLine.increment_LRU <$> CacheSet.cacheLine_ s)) s /\
   tags s' = <[CacheSet.find_LRU s := tag]> (tags s)).
Proof.
  intros Ha. destruct (decide (tag ∈ tags s)) as [Hin|Hnot].
  - left. destruct (access_set_hit tag s Hin) as (s1 & Hs1 & Hc).
    rewrite Hs1 in Ha. injection Ha as <- <-.
    destruct (check_cache_lines_true _ _ _ Hc) as (_ & Htags & _). done.
  - right.
    destruct (Z.lt_ge_cases (Z.of_nat (length (CacheSet.cacheLine_ s)))
                (CacheSet.setSize_ s)) as [Hroom|Hfull].
    + left. rewrite access_set_miss_room in Ha by done. injection Ha as <- <-.
      split_and!; try done. apply tags_add_new_cache_line.
    + right.
      assert (CacheSet.cacheLine_ s <> []) as Hne.
      { intros Hnil. unfold access_set in Ha.
        rewrite check_cache_lines_miss in Ha by done.
        unfold CacheSet.update_cache_lines in Ha.
        replace (_ <? _) with false in Ha by (symmetry; apply Z.ltb_ge; lia).
        unfold CacheSet.find_LRU in Ha. rewrite Hnil in Ha. cbn in Ha.
        rewrite Hnil in Ha. cbn in Ha. rewrite decide_False in Ha by lia. done. }
      rewrite access_set_miss_full in Ha by done. injection Ha as <- <-.
      destruct (find_LRU_spec s Hne) as (lv & Hlv & _).
      apply lookup_lt_Some in Hlv.
      split_and!; try done. unfold tags at 1. cbn. by rewrite tags_replace.
Qed.

Lemma access_set_tags_subset tag s hit s' t :
  access_set tag s = Some (hit, s') -> t ∈ tags s' -> t = tag \/ t ∈ tags s.
Proof.
  intros Ha Ht.
  destruct (access_set_cases _ _ _ _ Ha)
    as [(_ & _ & Htags)|[(_ & _ & _ & _ & Htags)|(_ & _ & _ & _ & _ & Htags)]];
    rewrite Htags in Ht.
  - by right.
  - apply elem_of_app in Ht as [?|?%list_elem_of_singleton]; auto.
  - apply list_elem_of_lookup in Ht as [j Hj].
    apply list_lookup_insert_Some in Hj as [(_ & ? & _)|[_ Hj]]; [by left|].
    right. by eapply list_elem_of_lookup_2.
Qed.

Lemma elem_of_put_set index s' sets x :
  x ∈ put_set index s' sets -> x = s' \/ x ∈ sets.
Proof.
  induction sets as [|s0 rest IH]; cbn; [by right|].
  destruct (index =? CacheSet.getIndex s0); rewrite !elem_of_cons.
  - intros [->|?]; auto.
  - intros [->|Hx]; [auto|]. destruct (IH Hx); auto.
Qed.

Lemma run_accesses_hits accesses :
  forall c (seen : list (Z * Z)) outcomes c',
  (forall s t, s ∈ CacheTable.cacheSet_ c -> t ∈ tags s ->
     (CacheSet.getIndex s, t) ∈ seen) ->
  run_accesses accesses c = Some (outcomes, c') ->
  forall k a, outcomes !! k = Some true -> accesses !! k = Some a ->
    a ∈ seen \/ exists j, (j < k)%nat /\ accesses !! j = Some a.
Proof.
  induction accesses as [|[i t] accesses IH];
    intros c seen outcomes c' Hinv Hrun k a Hk Ha; [done|].
  destruct (run_accesses_cons _ _ _ _ _ _ Hrun)
    as (hM & c1 & outcomes' & Hd & Hrest & ->).
  destruct (determine_hit_or_miss_result _ _ _ _ _ Hd) as (sets' & Hc1 & Hsets).
  assert (CacheTable.cacheSet_ c1 = sets') as Hsets1 by (rewrite Hc1; by destruct hM).
  destruct k as [|k]; cbn in Hk, Ha.
  - injection Hk as ->. injection Ha as <-. left.
    destruct (set_at i (CacheTable.cacheSet_ c)) as [s|] eqn:Hs.
    + destruct Hsets as (s1 & Hacc & _).
      destruct (access_set_spec _ _ _ _ Hacc) as (Hhit & _).
      rewrite <- (set_at_index _ _ _ Hs). apply Hinv; [by eapply set_at_elem|].
      by apply Hhit.
    + by destruct Hsets.
  - destruct (IH c1 ((i, t) :: seen) outcomes' c') with (k := k) (a := a)
      as [Hseen|(j & Hj & Haj)]; try done.
    + intros s0 t0 Hs0 Ht0. rewrite Hsets1 in Hs0. apply elem_of_cons.
      destruct (set_at i (CacheTable.cacheSet_ c)) as [s|] eqn:Hs.
      * destruct Hsets as (s1 & Hacc & ->).
        apply elem_of_put_set in Hs0 as [->|Hs0]; [|right; by apply Hinv].
        destruct (access_set_spec _ _ _ _ Hacc) as (_ & _ & _ & Hidx & _).
        assert (CacheSet.getIndex s1 = i) as ->.
        { unfold CacheSet.getIndex. rewrite Hidx. by apply set_at_index in Hs. }
        destruct (access_set_tags_subset _ _ _ _ _ Hacc Ht0) as [->|Ht0s]; [by left|].
        right. rewrite <- (set_at_index _ _ _ Hs). apply Hinv; [|done].
        by eapply set_at_elem.
      * destruct Hsets as [_ ->]. right. by apply Hinv.
    + apply elem_of_cons in Hseen as [->|Hseen]; [|by left].
      right. exists 0%nat. split; [lia|done].
    + right. exists (S j). split; [lia|done].
Qed.

(** X12.  No hit without an earlier reference: from a cache whose sets hold
    no line, an access is a hit only when an earlier access of the sequence
    had the same index and the same tag; the first access to each pair of
    index and tag is a miss. *)
Theorem hits_are_repeated_references
    (accesses : list (Z * Z)) (c c' : CacheTable.t) (outcomes : list bool)
    (k : nat) (a : Z * Z) :
  Forall (fun s => CacheSet.cacheLine_ s = []) (CacheTable.cacheSet_ c) ->
  run_accesses accesses c = Some (outcomes, c') ->
  accesses !! k = Some a ->
  outcomes !! k = Some true ->
  exists j, (j < k)%nat /\ accesses !! j = Some a.
Proof.
  intros Hcold Hrun Ha Hk.
  destruct (run_accesses_hits accesses c [] outcomes c') with (k := k) (a := a)
    as [Hseen|Hrep]; try done.
  - intros s t Hs Ht. rewrite Forall_forall in Hcold.
    unfold tags in Ht. rewrite (Hcold s Hs) in Ht. by apply elem_of_nil in Ht.
  - by apply elem_of_nil in Hseen.
Qed.

Lemma hits_are_repeated_references_witness :
  exists j, (j < 4)%nat /\
    [(1, 10); (0, 7); (1, 20); (3, 7); (1, 10)] !! j = Some (1, 10).
Proof.
  refine (hits_are_repeated_references
            [(1, 10); (0, 7); (1, 20); (3, 7); (1, 10)]
            (CacheTable.mk [CacheSet.mk 2 0 []; CacheSet.mk 2 1 []; CacheSet.mk 2 2 [];
                            CacheSet.mk 2 3 []] [] 128 16 2 4 2 4 0 0 0 15 48)
            (CacheTable.mk
               [CacheSet.mk 2 0 [CacheLine.mk 7 0];
                CacheSet.mk 2 1 [CacheLine.mk 10 0; CacheLine.mk 20 1];
                CacheSet.mk 2 2 []; CacheSet.mk 2 3 [CacheLine.mk 7 0]]
               [] 128 16 2 4 2 4 1 4 0 15 48)
            [false; false; false; false; true] 4 (1, 10) _ _ eq_refl eq_refl).
  - repeat constructor.
  - vm_compute. reflexivity.
Defined.

(** ** A working set that fits *)

Lemma distinct_le (l l' : list Z) :
  NoDup l -> (forall x, x ∈ l -> x ∈ l') ->
  (length l <= length (remove_dups l'))%nat.
Proof.
  intros Hnd Hsub. apply submseteq_length, NoDup_submseteq; [done|].
  intros x Hx. apply elem_of_remove_dups. by apply Hsub.
Qed.

Lemma distinct_mono (l l' : list Z) :
  (forall x, x ∈ l -> x ∈ l') ->
  (length (remove_dups l) <= length (remove_dups l'))%nat.
Proof.
  intros Hsub. apply distinct_le; [apply NoDup_remove_dups|].
  intros x Hx. apply Hsub. by apply elem_of_remove_dups.
Qed.

Lemma run_accesses_fitting index accesses :
  forall c outcomes c' s,
  run_accesses accesses c = Some (outcomes, c') ->
  set_at index (CacheTable.cacheSet_ c) = Some s ->
  NoDup (tags s) ->
  Z.of_nat (length (remove_dups (tags s ++ at_index index accesses)))
    <= CacheSet.setSize_ s ->
  (forall k t hM,
     accesses !! k = Some (index, t) -> outcomes !! k = Some hM ->
     (hM = true <->
      t ∈ tags s \/ exists j, (j < k)%nat /\ accesses !! j = Some (index, t))) /\
  exists s',
    set_at index (CacheTable.cacheSet_ c') = Some s' /\
    NoDup (tags s') /\
    forall t, t ∈ tags s' <-> t ∈ tags s \/ t ∈ at_index index accesses.
Proof.
  induction accesses as [|[i t0] accesses IH]; intros c outcomes c' s Hrun Hs Hnd Hfit.
  - cbn in Hrun. injection Hrun as <- <-. split; [done|].
    exists s. split_and!; [done..|]. intros t. unfold at_index. cbn.
    rewrite elem_of_nil. tauto.
  - destruct (run_accesses_cons _ _ _ _ _ _ Hrun)
      as (hM0 & c1 & outcomes' & Hd & Hrest & ->).
    rewrite at_index_cons in *.
    destruct (decide (i = index)) as [->|Hne].
    + destruct (determine_hit_or_miss_result _ _ _ _ _ Hd) as (sets' & Hc1 & Hsets).
      rewrite Hs in Hsets. destruct Hsets as (s1 & Ha & ->).
      destruct (determine_hit_or_miss_at _ _ _ _ _ _ Hs Ha) as (c1' & Hd' & _ & Hs1).
      rewrite Hd in Hd'. injection Hd' as <-.
      destruct (access_set_spec _ _ _ _ Ha) as (Hhit & _ & Hsz & _ & _ & Hnd1).
      assert (forall t, t ∈ tags s1 <-> t ∈ tags s \/ t = t0) as Htags1.
      { destruct (access_set_cases _ _ _ _ Ha)
          as [(_ & Hin & Htags)|[(_ & _ & _ & _ & Htags)|(_ & Hnot & Hfull & _)]].
        - intros t. rewrite Htags. split; [by left|]. by intros [?| ->].
        - intros t. rewrite Htags, elem_of_app, list_elem_of_singleton. done.
        - exfalso.
          assert (length (tags s ++ [t0]) <=
                  length (remove_dups (tags s ++ t0 :: at_index index accesses)))%nat
            as Hle.
          { apply distinct_le.
            - apply NoDup_app. split_and!; [done| |apply NoDup_singleton].
              intros x Hx ->%list_elem_of_singleton. done.
            - intros x. rewrite !elem_of_app, !elem_of_cons, elem_of_nil.
              tauto. }
          rewrite length_app in Hle. unfold tags in Hle at 1.
          rewrite length_fmap in Hle. cbn in Hle. lia. }
      destruct (IH c1 outcomes' c' s1 Hrest Hs1 (Hnd1 Hnd)) as (Hout & s' & Hs' & Hnd' & Htags').
      { rewrite Hsz. etrans; [|exact Hfit]. apply Nat2Z.inj_le, distinct_mono.
        intros x. rewrite !elem_of_app, elem_of_cons, Htags1. tauto. }
      split.
      * intros [|k] t hM Hk Hh; cbn in Hk, Hh.
        -- injection Hk as <-. injection Hh as <-. rewrite Hhit. split; [by left|].
           intros [?|(j & Hj & _)]; [done|lia].
        -- rewrite (Hout k t hM Hk Hh), Htags1. split.
           ++ intros [[?| ->]|(j & Hj & Haj)].
              ** by left.
              ** right. exists 0%nat. split; [lia|done].
              ** right. exists (S j). split; [lia|done].
           ++ intros [?|([|j] & Hj & Haj)]; cbn in *.
              ** left. by left.
              ** injection Haj as ->. left. by right.
              ** right. exists j. split; [lia|done].
      * exists s'. split_and!; [done..|]. intros t.
        rewrite Htags', Htags1, elem_of_cons. tauto.
    + destruct (determine_hit_or_miss_frame _ _ _ _ _ Hd)
        as (_ & _ & _ & _ & _ & _ & Hat).
      rewrite <- (Hat index) in Hs by done.
      destruct (IH c1 outcomes' c' s Hrest Hs Hnd Hfit) as (Hout & Hfinal).
      split; [|done].
      intros [|k] t hM Hk Hh; cbn in Hk, Hh; [congruence|].
      rewrite (Hout k t hM Hk Hh). split.
      * intros [?|(j & Hj & Haj)]; [by left|].
        right. exists (S j). split; [lia|done].
      * intros [?|([|j] & Hj & Haj)]; cbn in *; [by left|congruence|].
        right. exists j. split; [lia|done].
Qed.

(** X13.  A working set that fits: when the accesses to one set, empty at
    the start, carry no more distinct tags than the set has room for, an
    access to that set is a hit exactly when its tag was accessed there
    before, so only first references miss; nothing is evicted, and the set
    ends up holding exactly the tags that were sent to it, each once. *)
Theorem working_set_that_fits
    (accesses : list (Z * Z)) (c c' : CacheTable.t) (outcomes : list bool)
    (index : Z) (s : CacheSet.t) :
  run_accesses accesses c = Some (outcomes, c') ->
  set_at index (CacheTable.cacheSet_ c) = Some s ->
  CacheSet.cacheLine_ s = [] ->
  Z.of_nat (length (remove_dups (at_index index accesses))) <= CacheSet.setSize_ s ->
  (forall k t hM,
     accesses !! k = Some (index, t) -> outcomes !! k = Some hM ->
     (hM = true <-> exists j, (j < k)%nat /\ accesses !! j = Some (index, t))) /\
  exists s',
    set_at index (CacheTable.cacheSet_ c') = Some s' /\
    NoDup (tags s') /\
    forall t, t ∈ tags s' <-> t ∈ at_index index accesses.
Proof.
  intros Hrun Hs Hnil Hfit.
  assert (tags s = []) as Htags by (unfold tags; by rewrite Hnil).
  destruct (run_accesses_fitting index accesses c outcomes c' s Hrun Hs)
    as (Hout & s' & Hs' & Hnd & Hfinal).
  - rewrite Htags. apply NoDup_nil_2.
  - by rewrite Htags.
  - rewrite Htags in *. split.
    + intros k t hM Hk Hh. rewrite (Hout k t hM Hk Hh), elem_of_nil. tauto.
    + exists s'. split_and!; [done..|]. intros t. rewrite Hfinal, elem_of_nil. tauto.
Qed.

Lemma working_set_that_fits_witness :
  exists s',
    set_at 1 (CacheTable.cacheSet_
                (CacheTable.mk
                   [CacheSet.mk 2 0 [CacheLine.mk 7 0];
                    CacheSet.mk 2 1 [CacheLine.mk 10 0; CacheLine.mk 20 1];
                    CacheSet.mk 2 2 []; CacheSet.mk 2 3 [CacheLine.mk 7 0]]
                   [] 128 16 2 4 2 4 1 4 0 15 48)) = Some s' /\
    NoDup (tags s').
Proof.
  destruct (working_set_that_fits
              [(1, 10); (0, 7); (1, 20); (3, 7); (1, 10)]
              (CacheTable.mk [CacheSet.mk 2 0 []; CacheSet.mk 2 1 []; CacheSet.mk 2 2 [];
                              CacheSet.mk 2 3 []] [] 128 16 2 4 2 4 0 0 0 15 48)
              (CacheTable.mk
                 [CacheSet.mk 2 0 [CacheLine.mk 7 0];
                  CacheSet.mk 2 1 [CacheLine.mk 10 0; CacheLine.mk 20 1];
                  CacheSet.mk 2 2 []; CacheSet.mk 2 3 [CacheLine.mk 7 0]]
                 [] 128 16 2 4 2 4 1 4 0 15 48)
              [false; false; false; false; true] 1 (CacheSet.mk 2 1 []))
    as (_ & s' & Hs' & Hnd & _).
  - vm_compute. reflexivity.
  - reflexivity.
  - reflexivity.
  - vm_compute. discriminate.
  - exists s'. split; [exact Hs' | exact Hnd].
Defined.

(** ** The replacement policy is least recently used *)

Lemma first_index_spec tag ts k :
  first_index tag ts = Some k ->
  ts !! k = Some tag /\ forall j, (j < k)%nat -> ts !! j <> Some tag.
Proof.
  revert k. induction ts as [|t ts IH]; intros k; cbn; [done|].
  destruct (Z.eqb_spec tag t) as [->|Hne].
  - intros [= <-]. split; [done|]. intros j Hj. lia.
  - destruct (first_index tag ts) as [k'|]; cbn; [|done].
    intros [= <-]. destruct (IH k' eq_refl) as [Hk Hfirst]. split; [done|].
    intros [|j] Hj; cbn; [congruence|]. apply Hfirst. lia.
Qed.

Lemma first_index_None tag ts : first_index tag ts = None <-> tag ∉ ts.
Proof.
  induction ts as [|t ts IH]; cbn.
  - split; [intros _; apply not_elem_of_nil|done].
  - rewrite not_elem_of_cons. destruct (Z.eqb_spec tag t) as [->|Hne].
    + split; [done|]. by intros [? _].
    + destruct (first_index tag ts); cbn.
      * split; [done|]. intros [_ Hnot]. by apply IH in Hnot.
      * split; [|done]. intros _. split; [done|]. by apply IH.
Qed.

Lemma check_cache_lines_from_first_index tag s rest it k :
  first_index tag (CacheLine.getTag <$> rest) = Some k ->
  CacheSet.check_cache_lines_from tag it rest s =
    (true,
     CacheSet.with_lines
       (alter CacheLine.set_LRU (it + k)%nat
              (CacheLine.increment_LRU <$> CacheSet.cacheLine_ s)) s).
Proof.
  revert it k. induction rest as [|l rest IH]; intros it k; cbn; [done|].
  destruct (tag =? CacheLine.getTag l).
  - intros [= <-]. by rewrite Nat.add_0_r.
  - destruct (first_index tag (CacheLine.getTag <$> rest)) as [k'|] eqn:Hk'; cbn;
      [|done].
    intros [= <-]. rewrite (IH (S it) k' eq_refl). do 3 f_equal. lia.
Qed.

(** The line of least time of the reference model. *)
Lemma oldest_from_spec (ls : list LruReference.line) rest pre best bestTime :
  ls = pre ++ rest ->
  (exists ab, ls !! best = Some ab /\ ab.2 = bestTime) ->
  (forall j aj, (j < length pre)%nat -> ls !! j = Some aj -> (bestTime <= aj.2)%nat) ->
  exists am,
    ls !! LruReference.oldest_from best bestTime (length pre) rest = Some am /\
    forall j aj, ls !! j = Some aj -> (am.2 <= aj.2)%nat.
Proof.
  revert pre best bestTime.
  induction rest as [|l rest IH]; intros pre best bestTime Hls (ab & Hab & Htime) Hle;
    cbn [LruReference.oldest_from].
  - exists ab. split; [done|]. intros j aj Hj. rewrite Htime. apply (Hle j); [|done].
    apply lookup_lt_Some in Hj. by rewrite Hls, app_nil_r in Hj.
  - assert (ls !! length pre = Some l) as Hit
      by (rewrite Hls; by apply list_lookup_middle).
    assert (ls = (pre ++ [l]) ++ rest) as Hls' by (by rewrite <- app_assoc).
    assert (length (pre ++ [l]) = S (length pre)) as Hlen
      by (rewrite length_app; cbn; lia).
    rewrite <- Hlen.
    destruct (Nat.ltb_spec l.2 bestTime) as [Hless|Hmore].
    + apply IH; [done|by exists l|]. rewrite Hlen. intros j aj Hj Haj.
      destruct (decide (j = length pre)) as [->|].
      * pose proof (eq_trans (eq_sym Hit) Haj) as [= <-]. lia.
      * assert (bestTime <= aj.2)%nat by (apply (Hle j); [lia|done]). lia.
    + apply IH; [done|by exists ab|]. rewrite Hlen. intros j aj Hj Haj.
      destruct (decide (j = length pre)) as [->|].
      * pose proof (eq_trans (eq_sym Hit) Haj) as [= <-]. lia.
      * apply (Hle j); [lia|done].
Qed.

Lemma oldest_spec (ls : list LruReference.line) :
  ls <> [] ->
  exists am,
    ls !! LruReference.oldest ls = Some am /\
    forall j aj, ls !! j = Some aj -> (am.2 <= aj.2)%nat.
Proof.
  intros Hne. destruct ls as [|l0 rest]; [done|]. unfold LruReference.oldest.
  apply (oldest_from_spec (l0 :: rest) rest [l0] 0%nat l0.2); [done|by exists l0|].
  intros [|j] aj Hj Haj; cbn in *; [|lia]. by injection Haj as <-.
Qed.

Lemma lru_related_length now s ls :
  lru_related now s ls -> length ls = length (CacheSet.cacheLine_ s).
Proof.
  intros (Htags & _). unfold tags in *.
  apply (f_equal length) in Htags. rewrite !length_fmap in Htags. done.
Qed.

Lemma lru_related_tag now s ls i l a :
  lru_related now s ls ->
  CacheSet.cacheLine_ s !! i = Some l -> ls !! i = Some a ->
  a.1 = CacheLine.tag_ l.
Proof.
  intros (Htags & _) Hl Ha.
  assert (tags s !! i = Some (CacheLine.tag_ l)) as Ht
    by (unfold tags; by rewrite list_lookup_fmap, Hl).
  rewrite Htags, list_lookup_fmap, Ha in Ht. by injection Ht.
Qed.

(** The victim [find_LRU] picks is the line whose last use is the oldest. *)
Lemma victim_is_oldest now s ls :
  lru_related now s ls -> CacheSet.cacheLine_ s <> [] ->
  CacheSet.find_LRU s = LruReference.oldest ls.
Proof.
  intros Hrel Hne.
  pose proof (lru_related_length _ _ _ Hrel) as Hlen.
  destruct (find_LRU_spec s Hne) as (lv & Hlv & Hmax & Hfirst).
  assert (ls <> []) as Hne' by (intros ->; destruct (CacheSet.cacheLine_ s); done).
  destruct (oldest_spec ls Hne') as (am & Ham & Hmin).
  destruct Hrel as (_ & _ & _ & Hdistinct & Horder).
  set (v := CacheSet.find_LRU s) in *. set (m := LruReference.oldest ls) in *.
  destruct (decide (v = m)) as [|Hvm]; [done|exfalso].
  assert (exists av, ls !! v = Some av) as [av Hav].
  { apply lookup_lt_is_Some. rewrite Hlen. by eapply lookup_lt_Some. }
  assert (exists lm, CacheSet.cacheLine_ s !! m = Some lm) as [lm Hlm].
  { apply lookup_lt_is_Some. rewrite <- Hlen. by eapply lookup_lt_Some. }
  assert (am.2 < av.2)%nat as Hlt.
  { pose proof (Hmin v av Hav). pose proof (Hdistinct v m av am Hav Ham Hvm). lia. }
  pose proof (Hmax m lm Hlm) as Hle. unfold CacheLine.get_LRU in *.
  destruct (Horder m v lm lv am av Hlm Hlv Ham Hav Hlt) as [Hold|[Heq Hpos]]; [lia|].
  pose proof (Hfirst m lm Hpos Hlm). lia.
Qed.

(** A hit or a replacement at place [p]: the line there gets recency 0,
    every other line is aged. *)
Lemma touch_related now s ls s' p tag :
  lru_related now s ls ->
  Z.of_nat now < 2 ^ 64 - 1 ->
  (p < length (CacheSet.cacheLine_ s))%nat ->
  CacheSet.cacheLine_ s' !! p = Some (CacheLine.mk tag 0) ->
  (forall j, j <> p ->
     CacheSet.cacheLine_ s' !! j =
       CacheLine.increment_LRU <$> CacheSet.cacheLine_ s !! j) ->
  lru_related (S now) s' (<[p := (tag, now)]> ls).
Proof.
  intros Hrel Hnow Hp Hat Hother.
  pose proof (lru_related_length _ _ _ Hrel) as Hlen.
  pose proof Hrel as (Htags & Hbound & Htime & Hdistinct & Horder).
  assert (forall j l', p <> j -> CacheSet.cacheLine_ s' !! j = Some l' ->
            exists l, CacheSet.cacheLine_ s !! j = Some l /\
              CacheLine.tag_ l' = CacheLine.tag_ l /\
              CacheLine.LRUFlag_ l' = CacheLine.LRUFlag_ l + 1 /\
              0 <= CacheLine.LRUFlag_ l <= Z.of_nat now) as Haged.
  { intros j l' Hj Hl'. rewrite (Hother j (not_eq_sym Hj)) in Hl'.
    destruct (CacheSet.cacheLine_ s !! j) as [l|] eqn:Hl; [|done].
    injection Hl' as <-. exists l. pose proof (Hbound j l Hl).
    split; [done|]. split; [done|]. split; [|done].
    cbn. apply increment_exact. lia. }
  unfold lru_related. split_and!.
  - apply list_eq. intros j. unfold tags in *. rewrite list_fmap_insert. cbn.
    destruct (decide (j = p)) as [->|Hj].
    + rewrite list_lookup_fmap, Hat, list_lookup_insert_eq; [done|].
      by rewrite length_fmap, Hlen.
    + rewrite list_lookup_insert_ne, <- Htags, !list_lookup_fmap, (Hother j Hj) by done.
      by destruct (CacheSet.cacheLine_ s !! j).
  - intros i l Hl. destruct (decide (p = i)) as [<-|Hi].
    + rewrite Hat in Hl. injection Hl as <-. cbn. lia.
    + destruct (Haged i l Hi Hl) as (l0 & _ & _ & -> & ?). lia.
  - intros i a [(_ & <- & _)|[_ Ha]]%list_lookup_insert_Some; cbn; [lia|].
    pose proof (Htime i a Ha). lia.
  - intros i j ai aj
      [(<- & <- & _)|[Hi Hai]]%list_lookup_insert_Some
      [(<- & <- & _)|[Hj Haj]]%list_lookup_insert_Some Hij; cbn.
    + done.
    + pose proof (Htime j aj Haj). lia.
    + pose proof (Htime i ai Hai). lia.
    + by apply (Hdistinct i j).
  - intros i j li lj ai aj Hli Hlj
      [(<- & <- & _)|[Hi Hai]]%list_lookup_insert_Some
      [(<- & <- & _)|[Hj Haj]]%list_lookup_insert_Some Hlt; cbn in Hlt.
    + lia.
    + pose proof (Htime j aj Haj). lia.
    + rewrite Hat in Hlj. injection Hlj as <-. cbn.
      destruct (Haged i li Hi Hli) as (l0 & _ & _ & -> & ?). left. lia.
    + destruct (Haged i li Hi Hli) as (l0 & Hl0 & _ & -> & _).
      destruct (Haged j lj Hj Hlj) as (l1 & Hl1 & _ & -> & _).
      destruct (Horder i j l0 l1 ai aj Hl0 Hl1 Hai Haj Hlt) as [?|[? ?]];
        [left|right]; lia.
Qed.

(** A new line at the back. *)
Lemma append_related now s ls tag :
  lru_related now s ls ->
  lru_related (S now) (CacheSet.add_new_cache_line tag s) (ls ++ [(tag, now)]).
Proof.
  intros Hrel.
  pose proof (lru_related_length _ _ _ Hrel) as Hlen.
  pose proof Hrel as (Htags & Hbound & Htime & Hdistinct & Horder).
  unfold lru_related. split_and!.
  - rewrite tags_add_new_cache_line, fmap_app, Htags. done.
  - cbn. intros i l [[_ Hl]|[_ <-]]%lookup_snoc_Some; cbn; [|lia].
    pose proof (Hbound i l Hl). lia.
  - intros i a [[_ Ha]|[_ <-]]%lookup_snoc_Some; cbn; [|lia].
    pose proof (Htime i a Ha). lia.
  - intros i j ai aj [[_ Hai]|[Hi <-]]%lookup_snoc_Some
      [[_ Haj]|[Hj <-]]%lookup_snoc_Some Hij; cbn.
    + by apply (Hdistinct i j).
    + pose proof (Htime i ai Hai). lia.
    + pose proof (Htime j aj Haj). lia.
    + lia.
  - cbn. intros i j li lj ai aj
      [[Hi Hli]|[Hi <-]]%lookup_snoc_Some [[Hj Hlj]|[Hj <-]]%lookup_snoc_Some
      [[Hi' Hai]|[Hi' <-]]%lookup_snoc_Some [[Hj' Haj]|[Hj' <-]]%lookup_snoc_Some Hlt;
      cbn in *; try lia.
    + by apply (Horder i j li lj ai aj).
    + pose proof (Hbound i li Hli).
      destruct (decide (CacheLine.LRUFlag_ li = 0)) as [->|]; [right|left]; lia.
    + pose proof (Htime j aj Haj). lia.
Qed.

(** One access on both sides. *)
Lemma lru_step now s ls tag :
  lru_related now s ls ->
  0 < CacheSet.setSize_ s ->
  Z.of_nat now < 2 ^ 64 - 1 ->
  exists hit s' ls',
    access_set tag s = Some (hit, s') /\
    LruReference.access (CacheSet.setSize_ s) now tag ls = (hit, ls') /\
    lru_related (S now) s' ls' /\
    CacheSet.setSize_ s' = CacheSet.setSize_ s.
Proof.
  intros Hrel Hcap Hnow.
  pose proof (lru_related_length _ _ _ Hrel) as Hlen.
  pose proof Hrel as (Htags & _).
  unfold LruReference.access. rewrite <- Htags, Hlen.
  destruct (first_index tag (tags s)) as [k|] eqn:Hk.
  - destruct (first_index_spec _ _ _ Hk) as [Hat _].
    pose proof (check_cache_lines_from_first_index tag s _ 0 k Hk) as Hc.
    fold (CacheSet.check_cache_lines tag s) in Hc. cbn in Hc.
    unfold tags in Hat. rewrite list_lookup_fmap in Hat.
    destruct (CacheSet.cacheLine_ s !! k) as [lk|] eqn:Hlk; [|done].
    injection Hat as Hat. unfold CacheLine.getTag in Hat.
    eexists true, _, _. split; [unfold access_set; by rewrite Hc|].
    split; [done|]. split; [|done].
    apply (touch_related now s ls); try done.
    + by eapply lookup_lt_Some.
    + cbn. rewrite list_lookup_alter_eq, list_lookup_fmap, Hlk. cbn.
      unfold CacheLine.set_LRU. cbn. by rewrite Hat.
    + intros j Hj. cbn. rewrite list_lookup_alter_ne by exact (not_eq_sym Hj).
      apply list_lookup_fmap.
  - apply first_index_None in Hk.
    destruct (Z.ltb_spec (Z.of_nat (length (CacheSet.cacheLine_ s)))
                (CacheSet.setSize_ s)) as [Hroom|Hfull].
    + eexists false, _, _. split; [by apply access_set_miss_room|].
      split; [done|]. split; [|done]. by apply append_related.
    + assert (CacheSet.cacheLine_ s <> []) as Hne.
      { intros Hnil. rewrite Hnil in Hfull. cbn in Hfull. lia. }
      destruct (find_LRU_spec s Hne) as (lv & Hlv & _).
      eexists false, _, _. split; [by apply access_set_miss_full|].
      rewrite <- (victim_is_oldest now s ls) by done.
      split; [done|]. split; [|done].
      apply (touch_related now s ls); try done.
      * by eapply lookup_lt_Some.
      * cbn. by rewrite list_lookup_alter_eq, list_lookup_fmap, Hlv.
      * intros j Hj. cbn. rewrite list_lookup_alter_ne by exact (not_eq_sym Hj).
      apply list_lookup_fmap.
Qed.

Lemma lru_run ts :
  forall now s ls,
  lru_related now s ls ->
  0 < CacheSet.setSize_ s ->
  Z.of_nat (now + length ts) < 2 ^ 64 ->
  exists outcomes s' ls',
    run_set ts s = Some (outcomes, s') /\
    LruReference.run (CacheSet.setSize_ s) now ts ls = (outcomes, ls') /\
    lru_related (now + length ts) s' ls'.
Proof.
  induction ts as [|tag ts IH]; intros now s ls Hrel Hcap Hlen.
  - exists [], s, ls. cbn. rewrite Nat.add_0_r. done.
  - cbn [length] in Hlen.
    destruct (lru_step now s ls tag Hrel Hcap) as (hit & s1 & ls1 & Ha & Hr & Hrel1 & Hsz);
      [lia|].
    destruct (IH (S now) s1 ls1 Hrel1) as (outcomes & s' & ls' & Hrun & Href & Hrel');
      [lia|lia|].
    exists (hit :: outcomes), s', ls'. cbn [run_set LruReference.run length].
    rewrite Ha, Hr. cbn. rewrite Hrun. rewrite <- Hsz, Href. cbn.
    split_and!; [done..|]. by replace (now + S (length ts))%nat
      with (S now + length ts)%nat by lia.
Qed.

(** X14.  The replacement is least recently used: in any sequence of
    accesses (shorter than 2^64) starting with an empty set of positive
    capacity, the outcomes of the accesses to that set are those of the
    reference model, in which a miss on a full set replaces the line whose
    last use is the oldest; after the run the set holds the same tags as the
    reference model, in the same places.  The insertion that does not age
    the other lines leaves the order of replacement unchanged. *)
Theorem replacement_is_least_recently_used
    (accesses : list (Z * Z)) (c c' : CacheTable.t) (outcomes : list bool)
    (index : Z) (s : CacheSet.t) :
  run_accesses accesses c = Some (outcomes, c') ->
  set_at index (CacheTable.cacheSet_ c) = Some s ->
  CacheSet.cacheLine_ s = [] ->
  0 < CacheSet.setSize_ s ->
  Z.of_nat (length accesses) < 2 ^ 64 ->
  exists s' ls',
    LruReference.run (CacheSet.setSize_ s) 0 (at_index index accesses) [] =
      (outcomes_at index accesses outcomes, ls') /\
    set_at index (CacheTable.cacheSet_ c') = Some s' /\
    tags s' = fst <$> ls'.
Proof.
  intros Hrun Hs Hnil Hcap Hlen.
  destruct (run_accesses_routes _ _ _ _ _ _ Hrun Hs) as (s' & Hset & Hs').
  assert (lru_related 0 s []) as Hrel.
  { unfold lru_related, tags. rewrite Hnil. by split_and!. }
  destruct (lru_run (at_index index accesses) 0%nat s [] Hrel Hcap)
    as (outcomes2 & s2 & ls' & Hset2 & Href & Hrel').
  { pose proof (length_filter (fun a : Z * Z => a.1 = index) accesses).
    unfold at_index. rewrite length_fmap. lia. }
  rewrite Hset in Hset2. injection Hset2 as <- <-.
  exists s', ls'. split_and!; [done|done|]. by destruct Hrel' as (Htags & _).
Qed.

Lemma replacement_is_least_recently_used_witness :
  exists ls',
    LruReference.run 2 0 [10; 20; 10; 30] [] = ([false; false; true; false], ls') /\
    [10; 30] = fst <$> ls'.
Proof.
  destruct (replacement_is_least_recently_used
              [(1, 10); (0, 7); (1, 20); (1, 10); (1, 30)]
              (CacheTable.mk [CacheSet.mk 2 0 []; CacheSet.mk 2 1 []; CacheSet.mk 2 2 [];
                              CacheSet.mk 2 3 []] [] 128 16 2 4 2 4 0 0 0 15 48)
              (CacheTable.mk
                 [CacheSet.mk 2 0 [CacheLine.mk 7 0];
                  CacheSet.mk 2 1 [CacheLine.mk 10 1; CacheLine.mk 30 0];
                  CacheSet.mk 2 2 []; CacheSet.mk 2 3 []]
                 [] 128 16 2 4 2 4 1 4 0 15 48)
              [false; false; false; true; false] 1 (CacheSet.mk 2 1 []))
    as (s' & ls' & Href & Hs' & Htags).
  - vm_compute. reflexivity.
  - reflexivity.
  - reflexivity.
  - cbn. lia.
  - cbn. lia.
  - exists ls'. split; [exact Href|].
    vm_compute in Hs'. injection Hs' as <-. exact Htags.
Defined.

(** ** The text of the trace *)

Section ParsingProperties.

Import String.

Variable tokenize : string -> list string.
Variable atoi : string -> Z.
Variable strtoul16 : string -> Z.

Lemma parse_line_Some rW input ln :
  parse_line tokenize atoi strtoul16 rW input = Some ln ->
  exists token0 token1 token2 more,
    tokenize input = token0 :: token1 :: token2 :: more /\
    ln = (access_type rW token0, atoi token1, strtoul16 token2).
Proof.
  unfold parse_line.
  destruct (tokenize input) as [|token0 [|token1 [|token2 more]]]; try done.
  intros [= <-]. by exists token0, token1, token2, more.
Qed.

Lemma access_type_cases rW token :
  (token = "R"%string -> access_type rW token = READ) /\
  (token = "W"%string -> access_type rW token = WRITE) /\
  (token <> "R"%string -> token <> "W"%string -> access_type rW token = rW).
Proof.
  unfold access_type. split_and!.
  - intros ->. done.
  - intros ->. done.
  - intros HR HW. apply String.eqb_neq in HR, HW. by rewrite HR, HW.
Qed.

(** X15.  The access type of a line of the trace: the line at position [k]
    is recorded as a read when its first field is [R] and as a write when it
    is [W]; with any other first field it takes the access type of the line
    before it, and the first line of the trace takes [ERROR].  The size and
    the address are the second and the third field; further fields are
    ignored. *)
Theorem access_type_is_carried_over
    (inputs : list string) (lns : list CacheTable.line)
    (k : nat) (input : string) (ln : CacheTable.line) :
  parse_lines tokenize atoi strtoul16 ERROR inputs = Some lns ->
  inputs !! k = Some input ->
  lns !! k = Some ln ->
  exists token0 token1 token2 more before,
    tokenize input = token0 :: token1 :: token2 :: more /\
    match k with
    | O => before = ERROR
    | S k' => exists lp, lns !! k' = Some lp /\ before = lp.1.1
    end /\
    ln = (access_type before token0, atoi token1, strtoul16 token2) /\
    (token0 = "R"%string -> ln.1.1 = READ) /\
    (token0 = "W"%string -> ln.1.1 = WRITE) /\
    (token0 <> "R"%string -> token0 <> "W"%string -> ln.1.1 = before).
Proof.
  generalize ERROR as rW. revert lns k.
  induction inputs as [|input0 inputs IH]; intros lns k rW Hparse Hk Hln; [done|].
  cbn in Hparse.
  destruct (parse_line tokenize atoi strtoul16 rW input0) as [ln0|] eqn:Hln0;
    [|done].
  cbn in Hparse.
  destruct (parse_lines tokenize atoi strtoul16 ln0.1.1 inputs) as [lns'|] eqn:Hrest;
    [|done].
  cbn in Hparse. injection Hparse as <-.
  destruct k as [|k]; cbn in Hk, Hln.
  - injection Hk as <-. injection Hln as <-.
    destruct (parse_line_Some _ _ _ Hln0) as (token0 & token1 & token2 & more & Ht & ->).
    exists token0, token1, token2, more, rW.
    destruct (access_type_cases rW token0) as (HR & HW & Hother).
    split_and!; done.
  - destruct (IH lns' k ln0.1.1 Hrest Hk Hln)
      as (token0 & token1 & token2 & more & before & Ht & Hbefore & Hrec & HR & HW & Ho).
    exists token0, token1, token2, more, before. split_and!; try done.
    destruct k as [|k]; cbn.
    + exists ln0. by rewrite Hbefore.
    + done.
Qed.

(** X16.  The run depends on the text of the trace only through the parsed
    lines: running [read_mem_trace] on the text is parsing every line, with
    the access type carried from line to line, and then processing the parsed
    lines in order.  A line with fewer than three fields leaves the run
    undefined. *)
Theorem text_run_is_parse_then_run (inputs : list string) (c : CacheTable.t) :
  read_mem_trace_text tokenize atoi strtoul16 inputs c =
    (lns ← parse_lines tokenize atoi strtoul16 ERROR inputs;
     CacheTable.read_mem_trace lns c) /\
  (forall k input,
     inputs !! k = Some input ->
     (exists token0 token1, tokenize input = [] \/ tokenize input = [token0] \/
        tokenize input = [token0; token1]) ->
     read_mem_trace_text tokenize atoi strtoul16 inputs c = None).
Proof.
  unfold read_mem_trace_text, CacheTable.read_mem_trace.
  generalize 0 as refNum. generalize ERROR as rW. revert c.
  assert (forall c rW refNum,
    read_mem_trace_text_from tokenize atoi strtoul16 refNum rW inputs c =
    (lns ← parse_lines tokenize atoi strtoul16 rW inputs;
     CacheTable.read_mem_trace_from refNum lns c)) as Hfuse.
  { induction inputs as [|input0 inputs IH]; intros c rW refNum; [done|].
    cbn [read_mem_trace_text_from parse_lines].
    destruct (parse_line tokenize atoi strtoul16 rW input0) as [ln0|]; [|done].
    cbn [mbind option_bind].
    destruct (parse_lines tokenize atoi strtoul16 ln0.1.1 inputs) as [lns'|] eqn:Hrest.
    - cbn [mbind option_bind CacheTable.read_mem_trace_from].
      destruct (CacheTable.read_line refNum ln0 c) as [c1|]; [|done].
      cbn [mbind option_bind]. by rewrite IH, Hrest.
    - cbn [mbind option_bind].
      destruct (CacheTable.read_line refNum ln0 c) as [c1|]; [|done].
      cbn [mbind option_bind]. by rewrite IH, Hrest. }
  intros c rW refNum. split; [apply Hfuse|].
  intros k input Hk Hshort. rewrite Hfuse.
  assert (parse_lines tokenize atoi strtoul16 rW inputs = None) as ->; [|done].
  clear Hfuse. revert k rW Hk.
  induction inputs as [|input0 inputs IH]; intros k rW Hk; [done|].
  cbn [parse_lines]. destruct k as [|k]; cbn in Hk.
  - injection Hk as ->. unfold parse_line.
    destruct Hshort as (token0 & token1 & [->|[->| ->]]); done.
  - destruct (parse_line tokenize atoi strtoul16 rW input0) as [ln0|]; [|done].
    cbn [mbind option_bind]. by rewrite (IH k).
Qed.

End ParsingProperties.

Section ParsingExamples.

Import String.

Lemma access_type_is_carried_over_witness :
  exists token0 token1 token2 more before,
    colon_tokens "X:4:1a" = token0 :: token1 :: token2 :: more /\
    (exists lp, [(READ, 4, 26); (READ, 4, 26)] !! 0%nat = Some lp /\ before = lp.1.1) /\
    (READ, 4, 26) = (access_type before token0, 4, 26).
Proof.
  destruct (access_type_is_carried_over colon_tokens (fun _ => 4) (fun _ => 26)
              ["R:4:1a"; "X:4:1a"]%string [(READ, 4, 26); (READ, 4, 26)] 1 "X:4:1a"
              (READ, 4, 26))
    as (token0 & token1 & token2 & more & before & Ht & Hb & Hln & _).
  - reflexivity.
  - reflexivity.
  - reflexivity.
  - exists token0, token1, token2, more, before.
    split; [exact Ht|]. split; [exact Hb | exact Hln].
Defined.

Lemma text_run_is_parse_then_run_witness :
  read_mem_trace_text colon_tokens (fun _ => 4) (fun _ => 26)
    ["R:4:1a"; "W:4"]%string CacheTable.new = None.
Proof.
  refine (proj2 (text_run_is_parse_then_run colon_tokens (fun _ => 4) (fun _ => 26)
                   ["R:4:1a"; "W:4"]%string CacheTable.new) 1%nat "W:4"%string eq_refl _).
  exists "W"%string, "4"%string. right. right. reflexivity.
Defined.

End ParsingExamples.

(** ** The recency counters stay small *)

(** X17.  The recency counters cannot wrap in a run: after any sequence of
    accesses shorter than 2^64 that starts with an empty set of positive
    capacity, every recency value of that set is at least 0 and at most the
    number of accesses the sequence sent to the set. *)
Theorem recency_is_bounded
    (accesses : list (Z * Z)) (c c' : CacheTable.t) (outcomes : list bool)
    (index : Z) (s : CacheSet.t) :
  run_accesses accesses c = Some (outcomes, c') ->
  set_at index (CacheTable.cacheSet_ c) = Some s ->
  CacheSet.cacheLine_ s = [] ->
  0 < CacheSet.setSize_ s ->
  Z.of_nat (length accesses) < 2 ^ 64 ->
  exists s',
    set_at index (CacheTable.cacheSet_ c') = Some s' /\
    forall l, l ∈ CacheSet.cacheLine_ s' ->
      0 <= CacheLine.LRUFlag_ l <= Z.of_nat (length (at_index index accesses)) /\
      CacheLine.LRUFlag_ l < 2 ^ 64.
Proof.
  intros Hrun Hs Hnil Hcap Hlen.
  destruct (run_accesses_routes _ _ _ _ _ _ Hrun Hs) as (s' & Hset & Hs').
  assert (lru_related 0 s []) as Hrel.
  { unfold lru_related, tags. rewrite Hnil. by split_and!. }
  assert (length (at_index index accesses) <= length accesses)%nat as Hsub.
  { pose proof (length_filter (fun a : Z * Z => a.1 = index) accesses).
    unfold at_index. by rewrite length_fmap. }
  destruct (lru_run (at_index index accesses) 0%nat s [] Hrel Hcap)
    as (outcomes2 & s2 & ls' & Hset2 & _ & Hrel'); [lia|].
  rewrite Hset in Hset2. injection Hset2 as <- <-.
  exists s'. split; [done|]. intros l [i Hl]%list_elem_of_lookup.
  destruct Hrel' as (_ & Hbound & _). pose proof (Hbound i l Hl) as Hb.
  cbn in Hb. lia.
Qed.

Lemma recency_is_bounded_witness :
  exists s',
    set_at 1 (CacheTable.cacheSet_
                (CacheTable.mk
                   [CacheSet.mk 2 0 [CacheLine.mk 7 0];
                    CacheSet.mk 2 1 [CacheLine.mk 10 1; CacheLine.mk 30 0];
                    CacheSet.mk 2 2 []; CacheSet.mk 2 3 []]
                   [] 128 16 2 4 2 4 1 4 0 15 48)) = Some s' /\
    forall l, l ∈ CacheSet.cacheLine_ s' -> CacheLine.LRUFlag_ l < 2 ^ 64.
Proof.
  destruct (recency_is_bounded
              [(1, 10); (0, 7); (1, 20); (1, 10); (1, 30)]
              (CacheTable.mk [CacheSet.mk 2 0 []; CacheSet.mk 2 1 []; CacheSet.mk 2 2 [];
                              CacheSet.mk 2 3 []] [] 128 16 2 4 2 4 0 0 0 15 48)
              (CacheTable.mk
                 [CacheSet.mk 2 0 [CacheLine.mk 7 0];
                  CacheSet.mk 2 1 [CacheLine.mk 10 1; CacheLine.mk 30 0];
                  CacheSet.mk 2 2 []; CacheSet.mk 2 3 []]
                 [] 128 16 2 4 2 4 1 4 0 15 48)
              [false; false; false; true; false] 1 (CacheSet.mk 2 1 []))
    as (s' & Hs' & Hb).
  - vm_compute. reflexivity.
  - reflexivity.
  - reflexivity.
  - cbn. lia.
  - cbn. lia.
  - exists s'. split; [exact Hs'|]. intros l Hl. exact (proj2 (Hb l Hl)).
Defined.
